(** * patch_wasm_table: in-place patching of wasm externref table limits

    A shallow embedding of [scripts/patch_wasm_table.py] and the properties
    of its LEB128 codec, its section walker, its two section patchers and its
    command-line driver.

    Conventions of the embedding:
    - a byte buffer ([bytes], [bytearray]) is a [list Z], each element a byte
      value; bit operations are those of [Z];
    - Python integers that hold decoded values are [Z]; offsets into the
      buffer and byte counts are [nat];
    - a raised exception is the [Err] branch of [result]; the exceptions are
      told apart by the constructor of [error];
    - the file on disk is explicit state: the walker carries the stored bytes
      and the number of [write_bytes] calls made so far. *)

From stdpp Require Import base tactics option list numbers strings gmap.
From Stdlib Require Import ZArith Lia.

Local Open Scope Z_scope.

(** ** Exceptions and the error monad *)

Inductive error : Type :=
  | UnexpectedEOF        (* ValueError("unexpected EOF while reading varuint") *)
  | VaruintTooLarge      (* ValueError("varuint too large") *)
  | ValueDoesNotFit      (* ValueError("value does not fit in fixed width") *)
  | NotAModule           (* ValueError("not a wasm module: ...") *)
  | InvalidSectionSize   (* ValueError("invalid section size in ...") *)
  | TableTruncated       (* ValueError("table section truncated") *)
  | IndexOutOfRange      (* IndexError of [data[p]] *)
  | ReadFailed.          (* OSError of [path.read_bytes()] *)

Inductive result (A : Type) : Type :=
  | Ok (a : A)
  | Err (e : error).
Arguments Ok {A} a.
Arguments Err {A} e.

Definition bind {A B : Type} (r : result A) (k : A -> result B) : result B :=
  match r with
  | Ok a => k a
  | Err e => Err e
  end.

Notation "x <- e ;; k" := (bind e (fun x => k))
  (at level 20, e at level 99, k at level 200, only parsing).
Notation "' pat <- e ;; k" := (bind e (fun x => match x with pat => k end))
  (at level 20, pat pattern, e at level 99, k at level 200, only parsing).

(** ** Byte buffers *)

Abbreviation buffer := (list Z) (only parsing).

(** [data[p]]: an [IndexError] past the end. *)
Definition index (data : buffer) (p : nat) : result Z :=
  match data !! p with
  | Some b => Ok b
  | None => Err IndexOutOfRange
  end.

(** [data[a : a + len]]: a Python slice ends where the buffer ends. *)
Definition slice (data : buffer) (a : nat) (len : Z) : buffer :=
  take (Z.to_nat (Z.min len (Z.of_nat (length data)))) (drop a data).

(** [mutable[a : b] = enc] on a bytearray. *)
Definition splice (mutable : buffer) (a b : nat) (enc : buffer) : buffer :=
  take a mutable ++ enc ++ drop b mutable.

(** ** The LEB128 codec *)

(** The [while True] loop of [_read_varuint]. [rest] is [data[off + n :]]:
    the test [off + n >= len(data)] is [rest = []]. *)
Fixpoint read_loop (rest : buffer) (res shift : Z) (n : nat)
  : result (Z * nat) :=
  match rest with
  | [] => Err UnexpectedEOF
  | b :: rest' =>
      let n := S n in
      let res := Z.lor res (Z.shiftl (Z.land b 0x7F) shift) in
      if Z.land b 0x80 =? 0 then Ok (res, n)
      else
        let shift := shift + 7 in
        if shift >? 35 then Err VaruintTooLarge
        else read_loop rest' res shift n
  end.

Definition _read_varuint (data : buffer) (off : nat) : result (Z * nat) :=
  read_loop (drop off data) 0 0 0.

(** The [for i in range(width)] loop of [_encode_varuint_fixed_width]; [k] is
    the number of iterations left, so [i != width - 1] is [k <> 1]. Returns
    the bytes emitted and what is left of [value]. *)
Fixpoint encode_loop (k : nat) (value : Z) : buffer * Z :=
  match k with
  | O => ([], value)
  | S k' =>
      let byte := Z.land value 0x7F in
      let value := Z.shiftr value 7 in
      let byte := match k' with O => byte | S _ => Z.lor byte 0x80 end in
      let '(out, value) := encode_loop k' value in
      (byte :: out, value)
  end.

Definition _encode_varuint_fixed_width (value : Z) (width : nat)
  : result buffer :=
  let '(out, value) := encode_loop width value in
  if value =? 0 then Ok out else Err ValueDoesNotFit.

(** ** The table section (id 4) *)

(** The local variables a section patcher updates while it scans. *)
Record scan : Type := Scan {
  sc_p : nat;                          (* p *)
  sc_index : option Z;                 (* externref_table_index *)
  sc_patched : bool;                   (* patched *)
  sc_mutable : buffer                  (* mutable *)
}.

(** One iteration of [for table_idx in range(table_count)]. *)
Definition table_entry (data : buffer) (payload_end : nat) (table_idx : Z)
    (s : scan) : result scan :=
  let p := sc_p s in
  if decide (payload_end <= p)%nat then Err TableTruncated else
  elem_type <- index data p ;;
  let p := (p + 1)%nat in
  '(flags, n) <- _read_varuint data p ;;
  let p := (p + n)%nat in
  '(initial, n) <- _read_varuint data p ;;
  let p := (p + n)%nat in
  let has_max := negb (Z.land flags 0x01 =? 0) in
  '(max, p) <-
     (if has_max then
        '(max_val, max_n) <- _read_varuint data p ;;
        Ok (Some (p, max_val, max_n), (p + max_n)%nat)
      else Ok (None, p)) ;;
  let externref_table_index :=
    match sc_index s with
    | None => if elem_type =? 0x6F then Some table_idx else None
    | Some i => Some i
    end in
  match max with
  | Some (max_off, max_val, max_n) =>
      if (elem_type =? 0x6F) && has_max && (max_val <? initial + 4) then
        let new_max := Z.shiftl 1 (7 * Z.of_nat max_n) - 1 in
        enc <- _encode_varuint_fixed_width new_max max_n ;;
        Ok (Scan p externref_table_index true
              (splice (sc_mutable s) max_off (max_off + max_n) enc))
      else Ok (Scan p externref_table_index (sc_patched s) (sc_mutable s))
  | None => Ok (Scan p externref_table_index (sc_patched s) (sc_mutable s))
  end.

(** [for table_idx in range(table_count)], with [count] iterations left. *)
Fixpoint table_loop (data : buffer) (payload_end : nat) (count : nat)
    (table_idx : Z) (s : scan) : result scan :=
  match count with
  | O => Ok s
  | S count' =>
      s' <- table_entry data payload_end table_idx s ;;
      table_loop data payload_end count' (table_idx + 1) s'
  end.

(** The body of [if section_id == 4]. *)
Definition table_section (data : buffer) (payload_off payload_end : nat)
    (s : scan) : result scan :=
  let p := payload_off in
  '(table_count, n) <- _read_varuint data p ;;
  let p := (p + n)%nat in
  table_loop data payload_end (Z.to_nat table_count) 0
    (Scan p (sc_index s) (sc_patched s) (sc_mutable s)).

(** ** The export section (id 7) *)

(** The bytes of ["__wbindgen_externrefs"]. The name is plain ASCII, and
    [decode("utf-8", "replace")] yields an ASCII string only from the same
    ASCII bytes, so the comparison of the decoded name is a comparison of
    bytes. *)
Definition externrefs_name : buffer :=
  map (fun c => Z.of_nat (Ascii.nat_of_ascii c))
      (String.list_ascii_of_string "__wbindgen_externrefs").

Definition name_matches (name : buffer) : bool :=
  bool_decide (name = externrefs_name).

(** One iteration of [for _ in range(export_count)]; the externref table
    index is known to be [ext] here. *)
Definition export_entry (data : buffer) (ext : Z) (s : scan) : result scan :=
  let p := sc_p s in
  '(name_len, n) <- _read_varuint data p ;;
  let p := (p + n)%nat in
  let name := slice data p name_len in
  let p := (p + Z.to_nat name_len)%nat in
  kind <- index data p ;;
  let p := (p + 1)%nat in
  let idx_off := p in
  '(idx_val, idx_n) <- _read_varuint data p ;;
  let p := (p + idx_n)%nat in
  if name_matches name && (kind =? 1) && negb (idx_val =? ext) then
    enc <- _encode_varuint_fixed_width ext idx_n ;;
    Ok (Scan p (sc_index s) true
          (splice (sc_mutable s) idx_off (idx_off + idx_n) enc))
  else Ok (Scan p (sc_index s) (sc_patched s) (sc_mutable s)).

Fixpoint export_loop (data : buffer) (ext : Z) (count : nat) (s : scan)
  : result scan :=
  match count with
  | O => Ok s
  | S count' =>
      s' <- export_entry data ext s ;;
      export_loop data ext count' s'
  end.

(** The body of [if section_id == 7] once the index is known. *)
Definition export_section (data : buffer) (payload_off : nat) (ext : Z)
    (s : scan) : result scan :=
  let p := payload_off in
  '(export_count, n) <- _read_varuint data p ;;
  let p := (p + n)%nat in
  export_loop data ext (Z.to_nat export_count)
    (Scan p (sc_index s) (sc_patched s) (sc_mutable s)).

(** ** The section walker: [patch_wasm_file] *)

(** The local variables of [patch_wasm_file], together with the file behind
    [path]: the bytes it holds and how often it has been written. *)
Record walker : Type := Walker {
  w_data : buffer;                     (* data *)
  w_off : nat;                         (* off *)
  w_patched : bool;                    (* patched *)
  w_index : option Z;                  (* externref_table_index *)
  w_disk : buffer;                     (* the bytes stored at path *)
  w_writes : nat                       (* calls of path.write_bytes so far *)
}.

(** [off = payload_end; continue]. *)
Definition skip_section (st : walker) (payload_end : nat) : walker :=
  Walker (w_data st) payload_end (w_patched st) (w_index st)
         (w_disk st) (w_writes st).

(** The end of the loop body: [if patched: data = bytes(mutable);
    path.write_bytes(data)], then [off = payload_end]. *)
Definition commit (st : walker) (payload_end : nat) (s : scan) : walker :=
  if sc_patched s then
    Walker (sc_mutable s) payload_end true (sc_index s)
           (sc_mutable s) (S (w_writes st))
  else
    Walker (w_data st) payload_end false (sc_index s)
           (w_disk st) (w_writes st).

(** One iteration of [while off < len(data)]. *)
Definition section_step (st : walker) : result walker :=
  let data := w_data st in
  let off := w_off st in
  section_id <- index data off ;;
  let off := (off + 1)%nat in
  '(section_size, n) <- _read_varuint data off ;;
  let off := (off + n)%nat in
  let payload_off := off in
  let payload_end := Z.of_nat payload_off + section_size in
  if payload_end >? Z.of_nat (length data) then Err InvalidSectionSize else
  let payload_end := Z.to_nat payload_end in
  if negb ((section_id =? 4) || (section_id =? 7)) then
    Ok (skip_section st payload_end)
  else
    let s := Scan payload_off (w_index st) (w_patched st) data in
    if section_id =? 4 then
      s' <- table_section data payload_off payload_end s ;;
      Ok (commit st payload_end s')
    else
      match w_index st with
      | None => Ok (skip_section st payload_end)
      | Some ext =>
          s' <- export_section data payload_off ext s ;;
          Ok (commit st payload_end s')
      end.

(** What a run of the walker ends in: the value returned or the exception
    raised, and the walker as it was then (for an exception, as it was at the
    start of the section that raised). *)
Definition outcome : Type := (result bool * walker)%type.

(** [while off < len(data)]. The loop is bounded by [fuel]; [None] is an
    exhausted bound ([walk_fuel] shows [length data] is always enough). *)
Fixpoint walk (fuel : nat) (st : walker) : option outcome :=
  if decide (w_off st < length (w_data st))%nat then
    match fuel with
    | O => None
    | S fuel' =>
        match section_step st with
        | Ok st' => walk fuel' st'
        | Err e => Some (Err e, st)
        end
    end
  else Some (Ok (w_patched st), st).

Definition wasm_magic : buffer := [0x00; 0x61; 0x73; 0x6D].

Definition start (stored : buffer) : walker :=
  Walker stored 8 false None stored 0.

(** [patch_wasm_file(path)], for a file that holds [stored]. *)
Definition patch_wasm_file (stored : buffer) : option outcome :=
  let data := stored in
  if decide ((length data < 8)%nat \/ take 4 data <> wasm_magic) then
    Some (Err NotAModule, start stored)
  else walk (length data) (start stored).

(** ** The driver: [main] *)

Inductive message : Type :=
  | Patched (path : string)            (* stdout: "patched: <path>" *)
  | Failed (path : string) (e : error) (* stderr: "error: <path>: <e>" *)
  | NoChanges.                         (* stdout: "no changes needed" *)

(** The state the driver runs in: the files and what has been printed. *)
Record world : Type := World {
  files : gmap string buffer;
  printed : list message
}.

Definition print (m : message) (w : world) : world :=
  World (files w) (printed w ++ [m]).

(** [patch_wasm_file(wasm)] on the files of [w]. *)
Definition patch_path (wasm : string) (w : world)
  : option (result bool * world) :=
  match files w !! wasm with
  | None => Some (Err ReadFailed, w)
  | Some stored =>
      match patch_wasm_file stored with
      | None => None
      | Some (r, st) =>
          Some (r, if decide (w_writes st = 0%nat) then w
                   else World (<[wasm := w_disk st]> (files w)) (printed w))
      end
  end.

(** [for wasm in iter_wasm_candidates(args.path)] and what follows it; the
    candidates are given as the list of their paths. Returns the exit
    status. *)
Fixpoint main_loop (candidates : list string) (any_patched : bool)
    (w : world) : option (Z * world) :=
  match candidates with
  | [] =>
      Some (0, if any_patched then w else print NoChanges w)
  | wasm :: rest =>
      match patch_path wasm w with
      | None => None
      | Some (Ok did, w') =>
          if did then main_loop rest true (print (Patched wasm) w')
          else main_loop rest any_patched w'
      | Some (Err e, w') => Some (2, print (Failed wasm e) w')
      end
  end.

Definition main (candidates : list string) (w : world) : option (Z * world) :=
  main_loop candidates false w.

(** ** Predicates of the statements *)

(** What holds of the walker between two iterations, for a file that held
    [stored] at first: the file holds [data]; [data] has the length of
    [stored]; nothing has been written, and [data] is [stored], as long as
    [patched] is false. *)
Record walker_inv (stored : buffer) (st : walker) : Prop := WalkerInv {
  inv_disk : w_disk st = w_data st;
  inv_length : length (w_data st) = length stored;
  inv_clean : w_patched st = false -> w_data st = stored /\ w_writes st = 0%nat;
  inv_dirty : w_patched st = true -> (0 < w_writes st)%nat
}.


(** [d'] has the bytes of [d] at the positions from [a] up to [b]. *)
Definition agree (a b : nat) (d d' : buffer) : Prop :=
  forall i, (a <= i < b)%nat -> d' !! i = d !! i.

(** Whether the scan of the section at [off] stays inside the section: a
    table or export section that the walker scans is scanned up to a [p] that
    is not behind [payload_end]. (The entries of a well-formed module end
    where the payload ends.) *)
Definition section_confined (st : walker) : bool :=
  let data := w_data st in
  match index data (w_off st), _read_varuint data (w_off st + 1) with
  | Ok section_id, Ok (section_size, n) =>
      let payload_off := (w_off st + 1 + n)%nat in
      let payload_end := Z.to_nat (Z.of_nat payload_off + section_size) in
      let s := Scan payload_off (w_index st) (w_patched st) data in
      let scanned :=
        if section_id =? 4 then
          Some (table_section data payload_off payload_end s)
        else if section_id =? 7 then
          match w_index st with
          | Some ext => Some (export_section data payload_off ext s)
          | None => None
          end
        else None in
      match scanned with
      | Some (Ok s') => bool_decide (sc_p s' <= payload_end)%nat
      | _ => true
      end
  | _, _ => true
  end.

(** [section_confined] at every iteration of the walker. *)
Fixpoint confined (fuel : nat) (st : walker) : bool :=
  if decide (w_off st < length (w_data st))%nat then
    match fuel with
    | O => true
    | S fuel' =>
        section_confined st &&
        match section_step st with
        | Ok st' => confined fuel' st'
        | Err _ => true
        end
    end
  else true.

(** [confined] over the whole run of [patch_wasm_file]. *)
Definition well_delimited (stored : buffer) : bool :=
  confined (length stored) (start stored).

(** The walker after [k] iterations of [while off < len(data)] that start at
    [st]; [None] when the loop has ended, or an iteration has raised, before
    that. *)
Fixpoint iterate (k : nat) (st : walker) : option walker :=
  match k with
  | O => Some st
  | S k' =>
      if decide (w_off st < length (w_data st))%nat then
        match section_step st with
        | Ok st' => iterate k' st'
        | Err _ => None
        end
      else None
  end.

(** The walker [st] is at a table section that lies inside the file, and the
    scan of that section comes, after some of its entries, to a table
    descriptor, with the variables of the scan as in [s]: the descriptor
    starts at [sc_p s]. *)
Definition descriptor_at (st : walker) (s : scan) : Prop :=
  exists (section_size : Z) (n : nat) (table_count : Z) (cn j : nat),
    let data := w_data st in
    let payload_off := (w_off st + 1 + n)%nat in
    let payload_end := Z.to_nat (Z.of_nat payload_off + section_size) in
    data !! w_off st = Some 4 /\
    _read_varuint data (w_off st + 1) = Ok (section_size, n) /\
    Z.of_nat payload_off + section_size <= Z.of_nat (length data) /\
    _read_varuint data payload_off = Ok (table_count, cn) /\
    (j < Z.to_nat table_count)%nat /\
    table_loop data payload_end j 0
      (Scan (payload_off + cn) (w_index st) (w_patched st) data) = Ok s.

(** The walker [st], with the externref table index [ext] recorded, is at an
    export section that lies inside the file, and the scan of that section
    comes, after some of its entries, to an export, with the variables of
    the scan as in [s]: the export starts at [sc_p s]. *)
Definition export_at (st : walker) (ext : Z) (s : scan) : Prop :=
  exists (section_size : Z) (n : nat) (export_count : Z) (cn j : nat),
    let data := w_data st in
    let payload_off := (w_off st + 1 + n)%nat in
    data !! w_off st = Some 7 /\
    w_index st = Some ext /\
    _read_varuint data (w_off st + 1) = Ok (section_size, n) /\
    Z.of_nat payload_off + section_size <= Z.of_nat (length data) /\
    _read_varuint data payload_off = Ok (export_count, cn) /\
    (j < Z.to_nat export_count)%nat /\
    export_loop data ext j
      (Scan (payload_off + cn) (Some ext) (w_patched st) data) = Ok s.

(** At [p] stands the descriptor of an externref table with an explicit
    maximum that is the largest value of its width and still below the
    initial size plus 4. *)
Definition saturated_at (d : buffer) (p : nat) : Prop :=
  exists (flags initial : Z) (fn inn w : nat),
    d !! p = Some 0x6F /\
    _read_varuint d (p + 1) = Ok (flags, fn) /\
    Z.land flags 0x01 <> 0 /\
    _read_varuint d (p + 1 + fn) = Ok (initial, inn) /\
    _read_varuint d (p + 1 + fn + inn) = Ok (2 ^ (7 * Z.of_nat w) - 1, w) /\
    2 ^ (7 * Z.of_nat w) - 1 < initial + 4.

(** The candidates [candidates] have all been processed: [patch_wasm_file]
    has run on each in turn, on the files as the ones before it left them,
    none has failed, and the line "patched" has been printed for each that
    returned true. Gives [any_patched] and the files and output after the
    last of them. *)
Fixpoint processed (candidates : list string) (any_patched : bool) (w : world)
  : option (bool * world) :=
  match candidates with
  | [] => Some (any_patched, w)
  | wasm :: rest =>
      match patch_path wasm w with
      | Some (Ok true, w') => processed rest true (print (Patched wasm) w')
      | Some (Ok false, w') => processed rest any_patched w'
      | _ => None
      end
  end.

(** ** Modules and file sets of the examples *)

(** The magic tag and the version 1. *)
Definition wasm_header : buffer := [0x00; 0x61; 0x73; 0x6D; 0x01; 0x00; 0x00; 0x00].

(** The table of the specification's scenario: one externref table, flags 1,
    initial size 4, maximum 4 in one byte. *)
Definition needs_patch : buffer :=
  wasm_header ++ [0x04; 0x05; 0x01; 0x6F; 0x01; 0x04; 0x04].

(** The same module with the maximum 0x7F. *)
Definition is_patched : buffer :=
  wasm_header ++ [0x04; 0x05; 0x01; 0x6F; 0x01; 0x04; 0x7F].

(** An export section that names the externref table, with nothing recorded
    yet; its index field holds 5. *)
Definition lone_export_section : buffer :=
  [0x07; 0x19; 0x01; 0x15] ++ externrefs_name ++ [0x01; 0x05].

(** The export [__wbindgen_externrefs] of kind 1, pointing at table 0. *)
Definition export_of_table_0 : buffer :=
  [0x07; 0x19; 0x01; 0x15] ++ externrefs_name ++ [0x01; 0x00].


(** A module with 129 tables, of which the last one, of index 128, is the
    externref table, and with the export [__wbindgen_externrefs] pointing at
    table 0 through a one-byte index. *)
Definition externref_table_128 : buffer :=
  wasm_header
  ++ [0x04; 0x85; 0x03; 0x81; 0x01]
  ++ concat (replicate 128 [0x70; 0x00; 0x00]) ++ [0x6F; 0x00; 0x00]
  ++ export_of_table_0.

(** A module with a funcref table and an externref table of maximum 4, and
    the export [__wbindgen_externrefs] pointing at table 0: the first run
    patches both sections. *)
Definition both_defects : buffer :=
  wasm_header
  ++ [0x04; 0x08; 0x02; 0x70; 0x00; 0x00; 0x6F; 0x01; 0x04; 0x04]
  ++ export_of_table_0.

(** What the patcher makes of it. *)
Definition both_defects_patched : buffer :=
  wasm_header
  ++ [0x04; 0x08; 0x02; 0x70; 0x00; 0x00; 0x6F; 0x01; 0x04; 0x7F]
  ++ [0x07; 0x19; 0x01; 0x15] ++ externrefs_name ++ [0x01; 0x01].

(** An externref table of initial size 124 whose maximum, 4, takes one byte:
    the largest maximum of that width, 127, is still below 124 + 4. *)
Definition large_initial : buffer :=
  wasm_header ++ [0x04; 0x05; 0x01; 0x6F; 0x01; 0x7C; 0x04].

(** An export section with an empty payload, scanned over the bytes behind
    it, among them a second table section: the one-byte maximum of that table
    is also the length of the second export's name. *)
Definition overlapping_sections : buffer :=
  wasm_header
  ++ [0x04; 0x04; 0x01; 0x6F; 0x00; 0x00]
  ++ [0x07; 0x00]
  ++ [0x04; 0x02; 0x01; 0x6F; 0x01; 0x09; 0x00]
  ++ [0x00; 0x00; 0x00; 0x00; 0x00; 0x00; 0x00; 0x00].

(** Two candidates: the first is no wasm module, the second is a module whose
    externref table needs the patch. *)
Definition two_files : world :=
  World (<["a_bg.wasm" := [0x01; 0x02; 0x03]]> (<["c_bg.wasm" := needs_patch]> ∅)) [].

(** One candidate, which needs no patch. *)
Definition one_clean_file : world :=
  World (<["c_bg.wasm" := is_patched]> ∅) [].

(** A module whose only table is a funcref table of maximum 4. *)
Definition funcref_only : buffer :=
  wasm_header ++ [0x04; 0x05; 0x01; 0x70; 0x01; 0x04; 0x04] ++ export_of_table_0.

(** Three candidates: a module whose externref table needs the patch, a file
    that is no wasm module, and a module with both defects. *)
Definition three_files : world :=
  World (<["a_bg.wasm" := needs_patch]>
           (<["b_bg.wasm" := [0x01; 0x02; 0x03]]>
              (<["c_bg.wasm" := both_defects]> ∅))) [].

(** ** Reading the codec *)

(** A byte of a [bytes] object. *)
Definition is_byte (b : Z) : Prop := 0 <= b < 256.

(** The number a run of bytes spells: the low seven bits of each byte, least
    significant group first. *)
Fixpoint varuint_value (bs : buffer) : Z :=
  match bs with
  | [] => 0
  | b :: bs' => Z.land b 0x7F + 128 * varuint_value bs'
  end.

(** Whether the byte has its continuation bit. *)
Definition continues (b : Z) : Prop := Z.land b 0x80 <> 0.

(** A run of bytes that is one encoded integer: every byte but the last has
    the continuation bit. *)
Definition terminated (bs : buffer) : Prop :=
  exists body b,
    bs = body ++ [b] /\ Forall continues body /\ ~ continues b.

(** ** Classes of errors *)

(** The errors of the table patcher, for a payload inside the buffer. *)
Definition table_error (e : error) : Prop :=
  e = UnexpectedEOF \/ e = VaruintTooLarge \/ e = TableTruncated.

(** The errors of the export patcher. *)
Definition export_error (e : error) : Prop :=
  e = UnexpectedEOF \/ e = VaruintTooLarge \/ e = IndexOutOfRange \/ e = ValueDoesNotFit.

(** ** The files before and after a run *)

(** How the files of [w'] relate to those of [w] at the path [p]: the same
    files exist, and a file has the length it had. *)
Definition same_shape (w w' : world) (p : string) : Prop :=
  match files w !! p, files w' !! p with
  | Some d, Some d' => length d' = length d
  | None, None => True
  | _, _ => False
  end.

(** ** Candidate discovery: [iter_wasm_candidates] *)

#[local] Set Warnings "-register-all".

(** A directory as [os.walk] sees it: the names of its entries that are not
    directories, and its subdirectories. *)
Inductive dir : Type :=
  | Dir (files : list string) (subdirs : list (string * dir)).

#[local] Set Warnings "register-all".

(** What a path names. *)
Inductive entry : Type :=
  | NoEntry
  | FileEntry
  | DirEntry (d : dir).

(** A path, as the list of its components: [Path(root) / f] is
    [root ++ [f]]. *)
Abbreviation path := (list string) (only parsing).

(** [os.walk(p)], top down: the directory itself, then the walks of its
    subdirectories in turn. Each item is [root] and [files]. *)
Fixpoint os_walk (root : path) (d : dir) : list (path * list string) :=
  match d with
  | Dir files subdirs =>
      (root, files) ::
      (fix walk_subdirs (ds : list (string * dir)) : list (path * list string) :=
         match ds with
         | [] => []
         | (name, child) :: ds' =>
             os_walk (root ++ [name]) child ++ walk_subdirs ds'
         end) subdirs
  end.

(** The walks of the subdirectories, as [os_walk] has them. *)
Definition walk_subdirs (root : path) : list (string * dir) -> list (path * list string) :=
  fix walk_subdirs ds :=
    match ds with
    | [] => []
    | (name, child) :: ds' => os_walk (root ++ [name]) child ++ walk_subdirs ds'
    end.

(** [f.endswith(suffix)]. *)
Definition endswith (f suffix : string) : bool :=
  bool_decide (String.list_ascii_of_string suffix
               `suffix_of` String.list_ascii_of_string f).

(** [for f in files: if f.endswith("_bg.wasm"): yield Path(root) / f]. *)
Fixpoint dir_candidates (root : path) (files : list string) : list path :=
  match files with
  | [] => []
  | f :: files' =>
      if endswith f "_bg.wasm" then (root ++ [f]) :: dir_candidates root files'
      else dir_candidates root files'
  end.

(** [for root, _dirs, files in os.walk(p)]. *)
Fixpoint walk_candidates (items : list (path * list string)) : list path :=
  match items with
  | [] => []
  | (root, files) :: items' => dir_candidates root files ++ walk_candidates items'
  end.

(** [iter_wasm_candidates(p)], as the list of what it yields; [e] is what [p]
    names. [os.walk] of a path that is no directory yields nothing. *)
Definition iter_wasm_candidates (p : path) (e : entry) : list path :=
  match e with
  | FileEntry => [p]
  | DirEntry d => walk_candidates (os_walk p d)
  | NoEntry => []
  end.

(** The non-directory entries of the tree under a directory, by their paths
    relative to it. *)
Fixpoint file_at (d : dir) (rel : path) : Prop :=
  match rel with
  | [] => False
  | name :: rel' =>
      match rel' with
      | [] => match d with Dir files _ => name ∈ files end
      | _ :: _ =>
          match d with
          | Dir _ subdirs =>
              exists child, (name, child) ∈ subdirs /\ file_at child rel'
          end
      end
  end.

(** The directory of the specification's scenario, with a subdirectory. *)
Definition scenario_dir : dir :=
  Dir ["a_bg.wasm"; "b.wasm"; "c_bg.wasm"] [("pkg", Dir ["x_bg.wasm"; "x.js"] [])].

(** * Properties *)

(** ** The error monad *)

Lemma bind_ok {A B : Type} (r : result A) (k : A -> result B) (b : B) :
  bind r k = Ok b -> exists a, r = Ok a /\ k a = Ok b.
Proof. destruct r as [a|e]; simpl; [eauto | discriminate]. Qed.

(** ** Bit-level facts behind the codec *)

Lemma low7_testbit (v i : Z) :
  0 <= i -> Z.testbit (Z.land v 0x7F) i = Z.testbit v i && (i <? 7).
Proof.
  intros Hi. change 0x7F with (Z.ones 7).
  rewrite Z.land_spec. destruct (Z.ltb_spec i 7).
  - rewrite Z.ones_spec_low by lia. reflexivity.
  - rewrite Z.ones_spec_high by lia. reflexivity.
Qed.

Lemma bit7_testbit (i : Z) : Z.testbit 0x80 i = (i =? 7).
Proof.
  change 0x80 with (2 ^ 7). destruct (Z.eqb_spec i 7) as [->|Hne].
  - apply Z.pow2_bits_true. lia.
  - apply Z.pow2_bits_false. lia.
Qed.

Lemma low7_small (v : Z) : 0 <= v < 128 -> Z.land v 0x7F = v.
Proof.
  intros Hv. change 0x7F with (Z.ones 7). rewrite Z.land_ones by lia.
  apply Z.mod_small. change (2 ^ 7) with 128. lia.
Qed.

Lemma low7_range (v : Z) : 0 <= Z.land v 0x7F < 128.
Proof.
  change 0x7F with (Z.ones 7). rewrite Z.land_ones by lia.
  change (2 ^ 7) with 128. apply Z.mod_pos_bound. lia.
Qed.

Lemma low7_clear_bit7 (v : Z) : Z.land (Z.land v 0x7F) 0x80 = 0.
Proof.
  apply Z.bits_inj'. intros i Hi.
  rewrite Z.land_spec, low7_testbit, bit7_testbit, Z.bits_0 by lia.
  destruct (Z.eqb_spec i 7), (Z.ltb_spec i 7); try lia;
    rewrite ?andb_false_r; reflexivity.
Qed.

Lemma set_bit7_low7 (v : Z) : Z.land (Z.lor (Z.land v 0x7F) 0x80) 0x7F = Z.land v 0x7F.
Proof.
  apply Z.bits_inj'. intros i Hi.
  rewrite !low7_testbit, Z.lor_spec, low7_testbit, bit7_testbit by lia.
  destruct (Z.eqb_spec i 7), (Z.ltb_spec i 7); try lia;
    rewrite ?andb_false_r, ?orb_false_r, ?andb_true_r; reflexivity.
Qed.

Lemma set_bit7_bit7 (v : Z) : Z.land (Z.lor (Z.land v 0x7F) 0x80) 0x80 = 0x80.
Proof.
  apply Z.bits_inj'. intros i Hi.
  rewrite Z.land_spec, Z.lor_spec, low7_testbit, bit7_testbit by lia.
  destruct (Z.eqb_spec i 7), (Z.ltb_spec i 7); try lia;
    rewrite ?andb_false_r, ?orb_false_r, ?andb_true_r, ?orb_true_r; reflexivity.
Qed.

(** A value is its low seven bits put below the rest. *)
Lemma split_low7 (v shift : Z) :
  0 <= shift ->
  Z.lor (Z.shiftl (Z.land v 0x7F) shift) (Z.shiftl (Z.shiftr v 7) (shift + 7))
  = Z.shiftl v shift.
Proof.
  intros Hs. apply Z.bits_inj'. intros i Hi.
  rewrite Z.lor_spec, !Z.shiftl_spec by lia.
  destruct (Z.ltb_spec i shift) as [Hlt|Hge].
  - rewrite !(Z.testbit_neg_r _ (i - shift)), (Z.testbit_neg_r _ (i - (shift + 7))) by lia.
    reflexivity.
  - rewrite low7_testbit by lia.
    destruct (Z.ltb_spec (i - shift) 7).
    + rewrite (Z.testbit_neg_r _ (i - (shift + 7))) by lia.
      rewrite andb_true_r, orb_false_r. reflexivity.
    + rewrite Z.shiftr_spec by lia. rewrite andb_false_r. simpl.
      f_equal. lia.
Qed.

(** ** The fixed-width encoder *)

Lemma encode_loop_length (k : nat) (v : Z) :
  length (encode_loop k v).1 = k.
Proof.
  revert v. induction k as [|k IH]; intros v; simpl; [reflexivity|].
  specialize (IH (Z.shiftr v 7)).
  destruct (encode_loop k (Z.shiftr v 7)) as [out v']. simpl in *. lia.
Qed.

Lemma encode_loop_rest (k : nat) (v : Z) :
  (encode_loop k v).2 = Z.shiftr v (7 * Z.of_nat k).
Proof.
  revert v. induction k as [|k IH]; intros v; simpl encode_loop.
  - simpl. rewrite Z.shiftr_0_r. reflexivity.
  - specialize (IH (Z.shiftr v 7)).
    destruct (encode_loop k (Z.shiftr v 7)) as [out v']. simpl in *.
    rewrite IH, Z.shiftr_shiftr by lia. f_equal. lia.
Qed.

Lemma shiftr_zero_iff (v n : Z) :
  0 <= n -> Z.shiftr v n = 0 <-> 0 <= v < 2 ^ n.
Proof.
  intros Hn. rewrite Z.shiftr_div_pow2 by lia.
  assert (0 < 2 ^ n) by (apply Z.pow_pos_nonneg; lia).
  rewrite Z.div_small_iff by lia. lia.
Qed.

(** The encoder succeeds exactly on the values below [2^(7*width)]. *)
Lemma encode_ok_iff (v : Z) (w : nat) (enc : buffer) :
  _encode_varuint_fixed_width v w = Ok enc <->
  enc = (encode_loop w v).1 /\ 0 <= v < 2 ^ (7 * Z.of_nat w).
Proof.
  unfold _encode_varuint_fixed_width.
  pose proof (encode_loop_rest w v) as Hrest.
  destruct (encode_loop w v) as [out v']. simpl in *. subst v'.
  rewrite <- shiftr_zero_iff by lia.
  destruct (Z.eqb_spec (Z.shiftr v (7 * Z.of_nat w)) 0) as [Hz|Hz]; split.
  - intros [= <-]. auto.
  - intros [-> _]. reflexivity.
  - discriminate.
  - intros [_ ?]. contradiction.
Qed.

Lemma encode_err (v : Z) (w : nat) (e : error) :
  _encode_varuint_fixed_width v w = Err e ->
  e = ValueDoesNotFit /\ ~ (0 <= v < 2 ^ (7 * Z.of_nat w)).
Proof.
  unfold _encode_varuint_fixed_width.
  pose proof (encode_loop_rest w v) as Hrest.
  destruct (encode_loop w v) as [out v']. simpl in *. subst v'.
  rewrite <- shiftr_zero_iff by lia.
  destruct (Z.eqb_spec (Z.shiftr v (7 * Z.of_nat w)) 0); [discriminate|].
  intros [= <-]. auto.
Qed.

Lemma encode_length (v : Z) (w : nat) (enc : buffer) :
  _encode_varuint_fixed_width v w = Ok enc -> length enc = w.
Proof. intros [-> _]%encode_ok_iff. apply encode_loop_length. Qed.

(** A negative value fits in no width. *)
Lemma encode_negative (v : Z) (w : nat) :
  v < 0 -> _encode_varuint_fixed_width v w = Err ValueDoesNotFit.
Proof.
  intros Hv. destruct (_encode_varuint_fixed_width v w) as [enc|e] eqn:He.
  - apply encode_ok_iff in He as [_ Hr]. lia.
  - apply encode_err in He as [-> _]. reflexivity.
Qed.

(** The value the table patcher writes. *)
Lemma new_max_range (w : nat) :
  0 <= Z.shiftl 1 (7 * Z.of_nat w) - 1 < 2 ^ (7 * Z.of_nat w).
Proof.
  rewrite Z.shiftl_1_l.
  assert (0 < 2 ^ (7 * Z.of_nat w)) by (apply Z.pow_pos_nonneg; lia). lia.
Qed.

Lemma encode_new_max (w : nat) :
  _encode_varuint_fixed_width (Z.shiftl 1 (7 * Z.of_nat w) - 1) w
  = Ok (encode_loop w (Z.shiftl 1 (7 * Z.of_nat w) - 1)).1.
Proof. apply encode_ok_iff. split; [reflexivity | apply new_max_range]. Qed.

(** ** The decoder *)

(** Decoding what the encoder emitted, in the middle of a decode: the groups
    land above [shift]. *)
Lemma read_loop_encode (k : nat) : forall (v : Z) (rest : buffer) (res shift : Z) (n : nat),
  (1 <= k)%nat ->
  0 <= v < 2 ^ (7 * Z.of_nat k) ->
  0 <= shift ->
  shift + 7 * (Z.of_nat k - 1) <= 35 ->
  read_loop ((encode_loop k v).1 ++ rest) res shift n
  = Ok (Z.lor res (Z.shiftl v shift), (n + k)%nat).
Proof.
  induction k as [|k IH]; intros v rest res shift n Hk Hv Hs Hb; [lia|].
  simpl encode_loop.
  destruct k as [|k'].
  - (* the last byte *)
    simpl. change (2 ^ (7 * Z.of_nat 1)) with 128 in Hv.
    rewrite low7_clear_bit7. simpl.
    rewrite (low7_small (Z.land v 127)) by apply low7_range.
    rewrite low7_small by lia. do 2 f_equal. lia.
  - (* a byte with the continuation bit *)
    specialize (IH (Z.shiftr v 7) rest
                  (Z.lor res (Z.shiftl (Z.land v 0x7F) shift)) (shift + 7) (S n)).
    destruct (encode_loop (S k') (Z.shiftr v 7)) as [out v'] eqn:Hout.
    simpl fst in *. simpl app. simpl read_loop.
    change 127 with 0x7F. change 128 with 0x80.
    rewrite set_bit7_low7, set_bit7_bit7. simpl (0x80 =? 0).
    cbv iota.
    destruct (Z.gtb_spec (shift + 7) 35) as [Hgt|_]; [lia|].
    rewrite IH; try lia.
    + rewrite <- Z.lor_assoc, split_low7 by lia. do 2 f_equal. lia.
    + rewrite Z.shiftr_div_pow2 by lia. change (2 ^ 7) with 128.
      replace (7 * Z.of_nat (S (S k'))) with (7 + 7 * Z.of_nat (S k')) in Hv by lia.
      rewrite Z.pow_add_r in Hv by lia. change (2 ^ 7) with 128 in Hv.
      split; [apply Z.div_pos; lia|].
      apply Z.div_lt_upper_bound; lia.
Qed.

(** A successful decode consumed between one and six bytes: the loop gives
    up once [shift] has passed 35, that is after a sixth byte that still has
    its continuation bit. *)
Lemma read_loop_width (rest : buffer) : forall (res shift : Z) (n : nat) (v : Z) (m : nat),
  shift <= 35 ->
  read_loop rest res shift n = Ok (v, m) ->
  (n < m)%nat /\ shift + 7 * (Z.of_nat m - Z.of_nat n - 1) <= 35.
Proof.
  induction rest as [|b rest IH]; intros res shift n v m Hs Hr;
    simpl in Hr; [discriminate|].
  destruct (Z.land b 128 =? 0).
  - injection Hr as <- <-. lia.
  - destruct (Z.gtb_spec (shift + 7) 35) as [|Hle]; [discriminate|].
    apply IH in Hr; lia.
Qed.

Lemma read_varuint_width (data : buffer) (off : nat) (v : Z) (n : nat) :
  _read_varuint data off = Ok (v, n) -> (1 <= n <= 6)%nat.
Proof. intros Hr. apply read_loop_width in Hr; lia. Qed.

Lemma read_loop_lt (rest : buffer) : forall (res shift : Z) (n : nat) (v : Z) (m : nat),
  read_loop rest res shift n = Ok (v, m) -> (n < m)%nat.
Proof.
  induction rest as [|b rest IH]; intros res shift n v m Hr;
    simpl in Hr; [discriminate|].
  destruct (Z.land b 128 =? 0).
  - injection Hr as <- <-. lia.
  - destruct (shift + 7 >? 35); [discriminate|].
    apply IH in Hr. lia.
Qed.

(** The decoder looks at the bytes it consumes and at no others. *)
Lemma read_loop_take (rest : buffer) : forall (res shift : Z) (n : nat) (v : Z) (m : nat),
  read_loop rest res shift n = Ok (v, m) ->
  (m - n <= length rest)%nat /\
  forall rest', take (m - n) rest' = take (m - n) rest ->
    read_loop rest' res shift n = Ok (v, m).
Proof.
  induction rest as [|b rest IH]; intros res shift n v m; simpl; [discriminate|].
  destruct (Z.land b 128 =? 0) eqn:Hb.
  - intros [= <- <-]. split; [lia|]. intros rest'.
    replace (S n - n)%nat with 1%nat by lia.
    destruct rest' as [|b' rest']; simpl; [discriminate|].
    intros [= ->]. rewrite Hb. reflexivity.
  - destruct (shift + 7 >? 35) eqn:Hgt; [discriminate|].
    intros Hr. pose proof (read_loop_lt _ _ _ _ _ _ Hr) as Hlt.
    apply IH in Hr as [Hlen Hr]. split; [lia|].
    intros rest'. replace (m - n)%nat with (S (m - S n)) by lia.
    destruct rest' as [|b' rest']; simpl; [discriminate|].
    intros [= -> Heq]. rewrite Hb, Hgt. apply Hr, Heq.
Qed.

Lemma read_varuint_bound (data : buffer) (off : nat) (v : Z) (n : nat) :
  _read_varuint data off = Ok (v, n) -> (off + n <= length data)%nat.
Proof.
  intros Hr. pose proof (read_loop_lt _ _ _ _ _ _ Hr).
  apply read_loop_take in Hr as [Hlen _].
  rewrite length_drop in Hlen. lia.
Qed.

Lemma read_varuint_local (data data' : buffer) (off : nat) (v : Z) (n : nat) :
  _read_varuint data off = Ok (v, n) ->
  take n (drop off data') = take n (drop off data) ->
  _read_varuint data' off = Ok (v, n).
Proof.
  intros Hr Heq. apply read_loop_take in Hr as [_ Hr].
  apply Hr. rewrite Nat.sub_0_r. exact Heq.
Qed.

Lemma read_loop_err (rest : buffer) : forall (res shift : Z) (n : nat) (e : error),
  read_loop rest res shift n = Err e -> e = UnexpectedEOF \/ e = VaruintTooLarge.
Proof.
  induction rest as [|b rest IH]; intros res shift n e; simpl.
  - intros [= <-]. auto.
  - destruct (Z.land b 128 =? 0); [discriminate|].
    destruct (shift + 7 >? 35); [intros [= <-]; auto|]. apply IH.
Qed.

Lemma read_varuint_err (data : buffer) (off : nat) (e : error) :
  _read_varuint data off = Err e -> e = UnexpectedEOF \/ e = VaruintTooLarge.
Proof. apply read_loop_err. Qed.

(** Six bytes in a row that all have the continuation bit are too many. *)
Lemma read_loop_six (rest : buffer) (res : Z) (n : nat) :
  (forall i, (i < 6)%nat -> exists b, rest !! i = Some b /\ Z.land b 0x80 <> 0) ->
  read_loop rest res 0 n = Err VaruintTooLarge.
Proof.
  intros Hc.
  assert (forall b, Z.land b 0x80 <> 0 -> (Z.land b 0x80 =? 0) = false) as Hnz
    by (intros b Hb; apply Z.eqb_neq, Hb).
  destruct (Hc 0%nat) as (b0 & H0 & Hb0); [lia|].
  destruct (Hc 1%nat) as (b1 & H1 & Hb1); [lia|].
  destruct (Hc 2%nat) as (b2 & H2 & Hb2); [lia|].
  destruct (Hc 3%nat) as (b3 & H3 & Hb3); [lia|].
  destruct (Hc 4%nat) as (b4 & H4 & Hb4); [lia|].
  destruct (Hc 5%nat) as (b5 & H5 & Hb5); [lia|].
  destruct rest as [|c0 [|c1 [|c2 [|c3 [|c4 [|c5 rest]]]]]]; try discriminate.
  simpl in H0, H1, H2, H3, H4, H5.
  injection H0 as ->. injection H1 as ->. injection H2 as ->.
  injection H3 as ->. injection H4 as ->. injection H5 as ->.
  cbn [read_loop].
  rewrite (Hnz b0), (Hnz b1), (Hnz b2), (Hnz b3), (Hnz b4), (Hnz b5) by assumption.
  reflexivity.
Qed.

(** The round trip within a buffer: what the encoder wrote in [width] bytes
    at [off] is read back from there, whatever surrounds it. *)
Lemma read_encoded (pre enc post : buffer) (v : Z) (w : nat) :
  (1 <= w <= 6)%nat ->
  _encode_varuint_fixed_width v w = Ok enc ->
  _read_varuint (pre ++ enc ++ post) (length pre) = Ok (v, w).
Proof.
  intros Hw [-> Hv]%encode_ok_iff. unfold _read_varuint.
  rewrite drop_app_length.
  rewrite read_loop_encode; try lia.
  rewrite Z.shiftl_0_r, Z.lor_0_l. reflexivity.
Qed.

(** ** The codec: round trip and width bound *)

(** C6, as the code has it: for every width [w] from 1 to 6 and every value
    [v] with [0 <= v < 2^(7*w)], the fixed-width encoder succeeds on [(v, w)]
    with [w] bytes, and decoding these bytes succeeds, yields [v] and reports
    [w] bytes consumed. *)
Theorem fixed_width_round_trip (v : Z) (w : nat) :
  (1 <= w <= 6)%nat ->
  0 <= v < 2 ^ (7 * Z.of_nat w) ->
  exists enc,
    _encode_varuint_fixed_width v w = Ok enc /\
    length enc = w /\
    _read_varuint enc 0 = Ok (v, w).
Proof.
  intros Hw Hv. exists (encode_loop w v).1.
  assert (_encode_varuint_fixed_width v w = Ok (encode_loop w v).1) as Henc
    by (apply encode_ok_iff; auto).
  split; [exact Henc|]. split; [apply encode_loop_length|].
  pose proof (read_encoded [] _ [] v w Hw Henc) as Hr.
  simpl in Hr. rewrite app_nil_r in Hr. exact Hr.
Qed.

Lemma fixed_width_round_trip_witness :
  exists enc,
    _encode_varuint_fixed_width 300 2 = Ok enc /\
    length enc = 2%nat /\
    _read_varuint enc 0 = Ok (300, 2%nat).
Proof.
  apply (fixed_width_round_trip 300 2).
  - lia.
  - simpl. lia.
Defined.

(** C6 as stated fails from width 7 on: the encoder emits seven bytes for
    the value 0, and the decoder gives up on them after the sixth. *)
Lemma fixed_width_seven_not_read_back :
  (1 <= 7)%nat /\ 0 < 2 ^ (7 * 7) /\
  exists enc,
    _encode_varuint_fixed_width 0 7 = Ok enc /\
    length enc = 7%nat /\
    _read_varuint enc 0 = Err VaruintTooLarge.
Proof.
  split; [lia|]. split; [reflexivity|].
  exists [0x80; 0x80; 0x80; 0x80; 0x80; 0x80; 0x00]. repeat split.
Qed.

(** C7, as the code has it: a successful decode consumes at least one and at
    most six bytes, and the decoder raises "varuint too large" whenever the
    six bytes at the offset all have their continuation bit, that is
    whenever it would have to consume more than six bytes. *)
Theorem read_varuint_at_most_six (data : buffer) (off : nat) :
  (forall v n, _read_varuint data off = Ok (v, n) -> (1 <= n <= 6)%nat) /\
  ((forall i, (i < 6)%nat ->
      exists b, data !! (off + i)%nat = Some b /\ Z.land b 0x80 <> 0) ->
   _read_varuint data off = Err VaruintTooLarge).
Proof.
  split.
  - intros v n. apply read_varuint_width.
  - intros Hc. apply read_loop_six. intros i Hi.
    destruct (Hc i Hi) as (b & Hb & Hnz). exists b.
    rewrite lookup_drop. auto.
Qed.

Lemma read_varuint_at_most_six_witness :
  (1 <= 6 <= 6)%nat /\
  _read_varuint [0x80; 0x80; 0x80; 0x80; 0x80; 0x80; 0x01] 0 = Err VaruintTooLarge.
Proof.
  split.
  - apply (proj1 (read_varuint_at_most_six [0x80; 0x80; 0x80; 0x80; 0x80; 0x00] 0)
             0 6%nat).
    reflexivity.
  - apply (proj2 (read_varuint_at_most_six [0x80; 0x80; 0x80; 0x80; 0x80; 0x80; 0x01] 0)).
    intros i Hi. exists 0x80.
    destruct i as [|[|[|[|[|[|i]]]]]]; simpl; try (split; [reflexivity | discriminate]).
    lia.
Defined.

(** C7 as stated fails: five bytes with the continuation bit and a sixth
    without are decoded, with six bytes consumed. *)
Lemma read_varuint_consumes_six :
  _read_varuint [0x80; 0x80; 0x80; 0x80; 0x80; 0x00] 0 = Ok (0, 6%nat) /\
  ~ (forall data off v n, _read_varuint data off = Ok (v, n) -> (n <= 5)%nat).
Proof.
  split; [reflexivity|].
  intros H. specialize (H [0x80; 0x80; 0x80; 0x80; 0x80; 0x00] 0%nat 0 6%nat).
  simpl in H. specialize (H eq_refl). lia.
Qed.

(** ** The table-section patcher *)

Lemma index_err (data : buffer) (p : nat) (e : error) :
  index data p = Err e -> e = IndexOutOfRange.
Proof. unfold index. destruct (data !! p); [discriminate | intros [= <-]; reflexivity]. Qed.

Lemma index_ok (data : buffer) (p : nat) (b : Z) :
  index data p = Ok b <-> data !! p = Some b.
Proof.
  unfold index. destruct (data !! p); split; try discriminate; intros [= ->]; reflexivity.
Qed.

(** Splitting [bind]s, in the goal and in a hypothesis. *)
Ltac bind_head r :=
  lazymatch r with
  | bind ?r' _ => bind_head r'
  | _ => constr:(r)
  end.

Ltac bind_goal :=
  match goal with
  | |- context [bind ?r _] =>
      let r' := bind_head r in
      let E := fresh "E" in destruct r' as [?|?] eqn:E; cbn [bind]
  end.

Ltac bind_hyp H :=
  let a := fresh "a" in
  let E := fresh "E" in
  apply bind_ok in H as (a & E & H).

Lemma table_entry_fits (data : buffer) (payload_end : nat) (table_idx : Z) (s : scan) :
  table_entry data payload_end table_idx s <> Err ValueDoesNotFit.
Proof.
  unfold table_entry. destruct (decide _); [discriminate|].
  bind_goal; [|apply index_err in E; subst; discriminate].
  bind_goal; [|apply read_varuint_err in E0 as [->| ->]; discriminate].
  destruct a0 as [flags fn].
  bind_goal; [|apply read_varuint_err in E1 as [->| ->]; discriminate].
  destruct a0 as [initial inn].
  destruct (negb (Z.land flags 1 =? 0)).
  - bind_goal; [|apply read_varuint_err in E2 as [->| ->]; discriminate].
    destruct a0 as [m w]. cbn [bind].
    destruct (_ && _ && _); [|discriminate].
    rewrite encode_new_max. discriminate.
  - cbn [bind]. discriminate.
Qed.

Lemma table_loop_fits (data : buffer) (payload_end : nat) (count : nat) :
  forall (table_idx : Z) (s : scan),
  table_loop data payload_end count table_idx s <> Err ValueDoesNotFit.
Proof.
  induction count as [|count IH]; intros table_idx s; simpl; [discriminate|].
  pose proof (table_entry_fits data payload_end table_idx s).
  destruct (table_entry data payload_end table_idx s); simpl; [apply IH | congruence].
Qed.

(** C10: the value the table patcher writes, [2^(7*max_n) - 1], always fits
    in [max_n] bytes, so no step of the table-section patcher ever raises
    "value does not fit in fixed width". *)
Theorem table_patch_value_fits :
  (forall max_n : nat,
     exists enc,
       _encode_varuint_fixed_width (Z.shiftl 1 (7 * Z.of_nat max_n) - 1) max_n = Ok enc /\
       length enc = max_n) /\
  (forall data payload_end table_idx s,
     table_entry data payload_end table_idx s <> Err ValueDoesNotFit) /\
  (forall data payload_off payload_end s,
     table_section data payload_off payload_end s <> Err ValueDoesNotFit).
Proof.
  split; [|split].
  - intros max_n. eexists. split; [apply encode_new_max | apply encode_loop_length].
  - apply table_entry_fits.
  - intros data payload_off payload_end s. unfold table_section.
    bind_goal; [|apply read_varuint_err in E as [->| ->]; discriminate].
    destruct a as [table_count n]. apply table_loop_fits.
Qed.

(** Overwriting a field of [w] bytes by [w] bytes. *)
Lemma splice_length (mutable enc : buffer) (a w : nat) :
  (a + w <= length mutable)%nat -> length enc = w ->
  length (splice mutable a (a + w) enc) = length mutable.
Proof.
  intros Hb He. unfold splice.
  rewrite !length_app, length_take, length_drop. lia.
Qed.

Lemma splice_lookup_out (mutable enc : buffer) (a w i : nat) :
  (a + w <= length mutable)%nat -> length enc = w ->
  ~ (a <= i < a + w)%nat ->
  splice mutable a (a + w) enc !! i = mutable !! i.
Proof.
  intros Hb He Hi. unfold splice.
  destruct (decide (i < a)%nat).
  - rewrite lookup_app_l by (rewrite length_take; lia).
    apply lookup_take_lt. lia.
  - rewrite lookup_app_r by (rewrite length_take; lia).
    rewrite length_take, lookup_app_r by lia.
    rewrite lookup_drop. f_equal. lia.
Qed.

Lemma splice_lookup_in (mutable enc : buffer) (a w i : nat) :
  (a + w <= length mutable)%nat -> length enc = w ->
  (i < w)%nat ->
  splice mutable a (a + w) enc !! (a + i)%nat = enc !! i.
Proof.
  intros Hb He Hi. unfold splice.
  rewrite lookup_app_r by (rewrite length_take; lia).
  rewrite length_take, lookup_app_l by lia. f_equal. lia.
Qed.

Lemma read_spliced (mutable enc : buffer) (a w : nat) (v : Z) :
  (1 <= w <= 6)%nat ->
  (a + w <= length mutable)%nat ->
  _encode_varuint_fixed_width v w = Ok enc ->
  _read_varuint (splice mutable a (a + w) enc) a = Ok (v, w).
Proof.
  intros Hw Hb He. unfold splice.
  pose proof (read_encoded (take a mutable) enc (drop (a + w) mutable) v w Hw He) as Hr.
  rewrite length_take in Hr. replace (a `min` length mutable)%nat with a in Hr by lia.
  exact Hr.
Qed.


(** The table loop run for [k + m] entries is the loop for [k] entries
    followed by the loop for [m] entries. *)
Lemma table_loop_split (data : buffer) (payload_end : nat) (k m : nat) :
  forall (table_idx : Z) (s : scan),
  table_loop data payload_end (k + m) table_idx s
  = (s' <- table_loop data payload_end k table_idx s ;;
     table_loop data payload_end m (table_idx + Z.of_nat k) s').
Proof.
  induction k as [|k IH]; intros table_idx s.
  - cbn [Nat.add table_loop bind]. rewrite Z.add_0_r. reflexivity.
  - cbn [Nat.add table_loop].
    destruct (table_entry data payload_end table_idx s) as [s1|e]; cbn [bind];
      [|reflexivity].
    rewrite IH. replace (table_idx + 1 + Z.of_nat k) with (table_idx + Z.of_nat (S k)) by lia.
    reflexivity.
Qed.

(** ** The patchers keep the length of the buffer *)

Lemma read_loop_nonneg (rest : buffer) : forall (res shift : Z) (n : nat) (v : Z) (m : nat),
  0 <= res -> 0 <= shift ->
  read_loop rest res shift n = Ok (v, m) -> 0 <= v.
Proof.
  induction rest as [|b rest IH]; intros res shift n v m Hres Hs; simpl; [discriminate|].
  assert (0 <= Z.lor res (Z.shiftl (Z.land b 127) shift)) as Hnn.
  { apply Z.lor_nonneg. split; [lia|]. apply Z.shiftl_nonneg.
    pose proof (low7_range b). lia. }
  destruct (Z.land b 128 =? 0); [intros [= <- <-]; exact Hnn|].
  destruct (shift + 7 >? 35); [discriminate|].
  apply IH; lia.
Qed.

Lemma read_varuint_nonneg (data : buffer) (off : nat) (v : Z) (n : nat) :
  _read_varuint data off = Ok (v, n) -> 0 <= v.
Proof. apply read_loop_nonneg; lia. Qed.

Lemma table_entry_length (data : buffer) (payload_end : nat) (table_idx : Z) (s s' : scan) :
  table_entry data payload_end table_idx s = Ok s' ->
  length (sc_mutable s) = length data ->
  length (sc_mutable s') = length data.
Proof.
  unfold table_entry. intros H Hlen.
  destruct (decide _); [discriminate|].
  bind_hyp H. bind_hyp H. destruct a0 as [flags fn].
  bind_hyp H. destruct a0 as [initial inn].
  destruct (negb (Z.land flags 1 =? 0)).
  - bind_hyp H. bind_hyp E2. destruct a1 as [m w]. injection E2 as <-.
    pose proof (read_varuint_bound _ _ _ _ E3).
    destruct (_ && _ && _).
    + bind_hyp H. injection H as <-. cbn [sc_mutable].
      apply encode_length in E2.
      rewrite splice_length; [exact Hlen | lia | exact E2].
    + injection H as <-. exact Hlen.
  - cbn [bind] in H. injection H as <-. exact Hlen.
Qed.

Lemma table_loop_length (data : buffer) (payload_end : nat) (count : nat) :
  forall (table_idx : Z) (s s' : scan),
  table_loop data payload_end count table_idx s = Ok s' ->
  length (sc_mutable s) = length data ->
  length (sc_mutable s') = length data.
Proof.
  induction count as [|count IH]; intros table_idx s s'; simpl.
  - intros [= <-]. auto.
  - intros H Hlen. bind_hyp H.
    eapply IH; [exact H|]. eapply table_entry_length; eauto.
Qed.

Lemma table_section_length (data : buffer) (payload_off payload_end : nat) (s s' : scan) :
  table_section data payload_off payload_end s = Ok s' ->
  length (sc_mutable s) = length data ->
  length (sc_mutable s') = length data.
Proof.
  unfold table_section. intros H Hlen. bind_hyp H. destruct a as [table_count n].
  eapply table_loop_length; [exact H | exact Hlen].
Qed.

Lemma export_entry_length (data : buffer) (ext : Z) (s s' : scan) :
  export_entry data ext s = Ok s' ->
  length (sc_mutable s) = length data ->
  length (sc_mutable s') = length data.
Proof.
  unfold export_entry. intros H Hlen.
  bind_hyp H. destruct a as [name_len n].
  bind_hyp H. bind_hyp H. destruct a0 as [idx_val idx_n].
  pose proof (read_varuint_bound _ _ _ _ E1).
  destruct (_ && _ && _).
  - bind_hyp H. injection H as <-. cbn [sc_mutable].
    apply encode_length in E2.
    rewrite splice_length; [exact Hlen | lia | exact E2].
  - injection H as <-. exact Hlen.
Qed.

Lemma export_loop_length (data : buffer) (ext : Z) (count : nat) :
  forall (s s' : scan),
  export_loop data ext count s = Ok s' ->
  length (sc_mutable s) = length data ->
  length (sc_mutable s') = length data.
Proof.
  induction count as [|count IH]; intros s s'; simpl.
  - intros [= <-]. auto.
  - intros H Hlen. bind_hyp H.
    eapply IH; [exact H|]. eapply export_entry_length; eauto.
Qed.

Lemma export_section_length (data : buffer) (payload_off : nat) (ext : Z) (s s' : scan) :
  export_section data payload_off ext s = Ok s' ->
  length (sc_mutable s) = length data ->
  length (sc_mutable s') = length data.
Proof.
  unfold export_section. intros H Hlen. bind_hyp H. destruct a as [export_count n].
  eapply export_loop_length; [exact H | exact Hlen].
Qed.

(** ** The walker terminates *)

Lemma commit_off (st : walker) (payload_end : nat) (s : scan) :
  w_off (commit st payload_end s) = payload_end.
Proof. unfold commit. destruct (sc_patched s); reflexivity. Qed.

Lemma commit_length (st : walker) (payload_end : nat) (s : scan) :
  length (sc_mutable s) = length (w_data st) ->
  length (w_data (commit st payload_end s)) = length (w_data st).
Proof. unfold commit. destruct (sc_patched s); simpl; auto. Qed.

(** Every iteration moves [off] forward, not past the end, and keeps the
    length of [data]. *)
Lemma section_step_advance (st st' : walker) :
  section_step st = Ok st' ->
  (w_off st < w_off st' <= length (w_data st))%nat /\
  length (w_data st') = length (w_data st).
Proof.
  unfold section_step. intros H.
  bind_hyp H. bind_hyp H. destruct a0 as [section_size n].
  pose proof (read_varuint_nonneg _ _ _ _ E0) as Hnn.
  destruct (Z.gtb_spec (Z.of_nat (w_off st + 1 + n) + section_size)
              (Z.of_nat (length (w_data st)))) as [|Hle]; [discriminate|].
  set (payload_end := Z.to_nat (Z.of_nat (w_off st + 1 + n) + section_size)) in *.
  assert (w_off st < payload_end <= length (w_data st))%nat as Hpe
    by (subst payload_end; lia).
  destruct (negb _).
  { injection H as <-. simpl. auto. }
  destruct (a =? 4).
  - bind_hyp H. injection H as <-. rewrite commit_off. split; [exact Hpe|].
    apply commit_length. eapply table_section_length; [exact E1 | reflexivity].
  - destruct (w_index st) as [ext|].
    + bind_hyp H. injection H as <-. rewrite commit_off. split; [exact Hpe|].
      apply commit_length. eapply export_section_length; [exact E1 | reflexivity].
    + injection H as <-. simpl. auto.
Qed.

Lemma walk_fuel (fuel : nat) : forall st : walker,
  (length (w_data st) - w_off st <= fuel)%nat ->
  exists out, walk fuel st = Some out.
Proof.
  induction fuel as [|fuel IH]; intros st Hf; simpl.
  - destruct (decide _); [lia | eauto].
  - destruct (decide _); [|eauto].
    destruct (section_step st) as [st'|e] eqn:Hstep; [|eauto].
    apply section_step_advance in Hstep as [Hoff Hlen].
    apply IH. lia.
Qed.

(** [patch_wasm_file] returns or raises on every file: the bound on the loop
    is never reached. *)
Lemma patch_wasm_file_total (stored : buffer) :
  exists out, patch_wasm_file stored = Some out.
Proof.
  unfold patch_wasm_file. destruct (decide _); [eauto|].
  apply walk_fuel. simpl. lia.
Qed.

(** A run of the walker that has ended is the same with more fuel. *)
Lemma walk_more_fuel (fuel : nat) : forall (m : nat) (st : walker) (out : outcome),
  walk fuel st = Some out -> walk (fuel + m) st = Some out.
Proof.
  induction fuel as [|fuel IH]; intros m st out.
  - cbn [walk Nat.add]. destruct (decide _) as [Hin|Hout]; [discriminate|].
    intros H. destruct m; cbn [walk]; (destruct (decide _); [contradiction | exact H]).
  - cbn [walk Nat.add]. destruct (decide _); [|auto].
    destruct (section_step st) as [st'|e]; [apply IH | auto].
Qed.

(** The run of the walker from [st0] goes through the walker [st] that [k]
    iterations lead to. *)
Lemma walk_iterate (k : nat) : forall (fuel : nat) (st0 st : walker),
  iterate k st0 = Some st -> walk (k + fuel) st0 = walk fuel st.
Proof.
  induction k as [|k IH]; intros fuel st0 st; cbn [iterate walk Nat.add].
  - intros [= ->]. reflexivity.
  - destruct (decide _); [|discriminate].
    destruct (section_step st0) as [st1|e]; [apply IH | discriminate].
Qed.


(** What the walker ends in from a point that [patch_wasm_file] comes
    through is what [patch_wasm_file] ends in. *)
Lemma patch_through (stored : buffer) (k fuel : nat) (st : walker) (out : outcome) :
  (8 <= length stored)%nat -> take 4 stored = wasm_magic ->
  iterate k (start stored) = Some st ->
  walk fuel st = Some out ->
  patch_wasm_file stored = Some out.
Proof.
  intros Hlen Hmagic Hk Hw.
  destruct (patch_wasm_file_total stored) as [out' Hrun]. rewrite Hrun.
  unfold patch_wasm_file in Hrun.
  destruct (decide _) as [[?|?]|_]; [lia | contradiction |].
  apply (walk_more_fuel _ (k + fuel)) in Hrun.
  pose proof (walk_iterate k fuel _ _ Hk) as Hki. rewrite Hw in Hki.
  apply (walk_more_fuel _ (length stored)) in Hki.
  replace (k + fuel + length stored)%nat with (length stored + (k + fuel))%nat in Hki by lia.
  congruence.
Qed.

(** An iteration that raises ends the run of [patch_wasm_file] in that
    error, with the walker as it was at the start of the section. *)
Lemma patch_raises (stored : buffer) (k : nat) (st : walker) (e : error) :
  (8 <= length stored)%nat -> take 4 stored = wasm_magic ->
  iterate k (start stored) = Some st ->
  (w_off st < length (w_data st))%nat ->
  section_step st = Err e ->
  patch_wasm_file stored = Some (Err e, st).
Proof.
  intros Hlen Hmagic Hk Hin Hstep.
  apply (patch_through stored k 1 st); try assumption.
  cbn [walk]. destruct (decide _); [|contradiction]. rewrite Hstep. reflexivity.
Qed.


(** ** The export section before any externref table *)

(** C9: when the walker reaches an export section (id 7) while no externref
    table index is recorded, the iteration only moves [off] to the end of
    the payload: it is the iteration of a section that is not looked at. The
    buffer, [patched], the index, the stored bytes and the number of writes
    are as before, whatever the payload holds. *)
Theorem export_without_index (st : walker) (section_size : Z) (n : nat) :
  w_index st = None ->
  w_data st !! w_off st = Some 7 ->
  _read_varuint (w_data st) (w_off st + 1) = Ok (section_size, n) ->
  Z.of_nat (w_off st + 1 + n) + section_size <= Z.of_nat (length (w_data st)) ->
  let payload_end := Z.to_nat (Z.of_nat (w_off st + 1 + n) + section_size) in
  section_step st = Ok (skip_section st payload_end) /\
  w_data (skip_section st payload_end) = w_data st /\
  w_patched (skip_section st payload_end) = w_patched st /\
  w_index (skip_section st payload_end) = None /\
  w_disk (skip_section st payload_end) = w_disk st /\
  w_writes (skip_section st payload_end) = w_writes st /\
  w_off (skip_section st payload_end) = payload_end.
Proof.
  intros Hidx Hid Hsize Hend payload_end.
  split; [|simpl; auto 10].
  unfold section_step. apply index_ok in Hid. rewrite Hid. cbn [bind].
  rewrite Hsize. cbn [bind].
  destruct (Z.gtb_spec (Z.of_nat (w_off st + 1 + n) + section_size)
              (Z.of_nat (length (w_data st)))) as [|_]; [lia|].
  change (7 =? 4) with false. change (7 =? 7) with true. cbn [orb negb].
  rewrite Hidx. reflexivity.
Qed.

Lemma export_without_index_witness :
  section_step (start (wasm_header ++ lone_export_section))
  = Ok (skip_section (start (wasm_header ++ lone_export_section)) 35).
Proof.
  apply (export_without_index (start (wasm_header ++ lone_export_section)) 25 1).
  - reflexivity.
  - reflexivity.
  - reflexivity.
  - simpl. lia.
Defined.

(** The export section in front of the table section: the export is left as
    it is, and only the table is patched. *)
Example export_before_table :
  let file := wasm_header ++ lone_export_section ++ [0x04; 0x05; 0x01; 0x6F; 0x01; 0x04; 0x04] in
  exists st,
    patch_wasm_file file = Some (Ok true, st) /\
    w_disk st = wasm_header ++ lone_export_section ++ [0x04; 0x05; 0x01; 0x6F; 0x01; 0x04; 0x7F] /\
    w_index st = Some 0.
Proof. eexists. vm_compute. repeat split. Qed.

(** ** What is on disk when the walker stops *)

Lemma scan_patched_mono_table_entry (data : buffer) (payload_end : nat) (table_idx : Z) (s s' : scan) :
  table_entry data payload_end table_idx s = Ok s' ->
  (sc_patched s' = false -> sc_patched s = false /\ sc_mutable s' = sc_mutable s).
Proof.
  unfold table_entry. intros H.
  destruct (decide _); [discriminate|].
  bind_hyp H. bind_hyp H. destruct a0 as [flags fn].
  bind_hyp H. destruct a0 as [initial inn].
  bind_hyp H. destruct a0 as [[[[max_off max_val] max_n]|] p'].
  - destruct (_ && _ && _).
    + bind_hyp H. injection H as <-. discriminate.
    + injection H as <-. auto.
  - injection H as <-. auto.
Qed.

Lemma scan_patched_mono_table_loop (data : buffer) (payload_end : nat) (count : nat) :
  forall (table_idx : Z) (s s' : scan),
  table_loop data payload_end count table_idx s = Ok s' ->
  (sc_patched s' = false -> sc_patched s = false /\ sc_mutable s' = sc_mutable s).
Proof.
  induction count as [|count IH]; intros table_idx s s'; simpl.
  - intros [= <-]. auto.
  - intros H Hf. bind_hyp H.
    destruct (IH _ _ _ H Hf) as [Hp Hm].
    destruct (scan_patched_mono_table_entry _ _ _ _ _ E Hp) as [Hp' Hm'].
    split; [exact Hp' | congruence].
Qed.

Lemma scan_patched_mono_export_entry (data : buffer) (ext : Z) (s s' : scan) :
  export_entry data ext s = Ok s' ->
  (sc_patched s' = false -> sc_patched s = false /\ sc_mutable s' = sc_mutable s).
Proof.
  unfold export_entry. intros H.
  bind_hyp H. destruct a as [name_len n].
  bind_hyp H. bind_hyp H. destruct a0 as [idx_val idx_n].
  destruct (_ && _ && _).
  - bind_hyp H. injection H as <-. discriminate.
  - injection H as <-. auto.
Qed.

Lemma scan_patched_mono_export_loop (data : buffer) (ext : Z) (count : nat) :
  forall (s s' : scan),
  export_loop data ext count s = Ok s' ->
  (sc_patched s' = false -> sc_patched s = false /\ sc_mutable s' = sc_mutable s).
Proof.
  induction count as [|count IH]; intros s s'; simpl.
  - intros [= <-]. auto.
  - intros H Hf. bind_hyp H.
    destruct (IH _ _ H Hf) as [Hp Hm].
    destruct (scan_patched_mono_export_entry _ _ _ _ E Hp) as [Hp' Hm'].
    split; [exact Hp' | congruence].
Qed.

Lemma walker_inv_start (stored : buffer) : walker_inv stored (start stored).
Proof. split; simpl; auto; discriminate. Qed.

Lemma walker_inv_skip (stored : buffer) (st : walker) (payload_end : nat) :
  walker_inv stored st -> walker_inv stored (skip_section st payload_end).
Proof. intros [Hd Hl Hc Hw]. split; simpl; auto. Qed.

Lemma walker_inv_commit (stored : buffer) (st : walker) (payload_end : nat) (s : scan) :
  walker_inv stored st ->
  length (sc_mutable s) = length (w_data st) ->
  (sc_patched s = false -> w_patched st = false) ->
  walker_inv stored (commit st payload_end s).
Proof.
  intros [Hd Hl Hc Hw] Hlen Hmono. unfold commit.
  destruct (sc_patched s); split; simpl; auto; try discriminate; try lia.
Qed.

Lemma walker_inv_step (stored : buffer) (st st' : walker) :
  walker_inv stored st -> section_step st = Ok st' -> walker_inv stored st'.
Proof.
  intros Hinv. unfold section_step. intros H.
  bind_hyp H. bind_hyp H. destruct a0 as [section_size n].
  destruct (_ >? _); [discriminate|].
  destruct (negb _); [injection H as <-; apply walker_inv_skip, Hinv|].
  destruct (a =? 4).
  - bind_hyp H. injection H as <-.
    apply walker_inv_commit; [exact Hinv | |].
    + eapply table_section_length; [exact E1 | reflexivity].
    + unfold table_section in E1. bind_hyp E1. destruct a1 as [table_count k].
      intros Hf. eapply scan_patched_mono_table_loop in E1 as [Hp _]; [|exact Hf].
      exact Hp.
  - destruct (w_index st) as [ext|]; [|injection H as <-; apply walker_inv_skip, Hinv].
    bind_hyp H. injection H as <-.
    apply walker_inv_commit; [exact Hinv | |].
    + eapply export_section_length; [exact E1 | reflexivity].
    + unfold export_section in E1. bind_hyp E1. destruct a1 as [export_count k].
      intros Hf. eapply scan_patched_mono_export_loop in E1 as [Hp _]; [|exact Hf].
      exact Hp.
Qed.

Lemma walker_inv_walk (stored : buffer) (fuel : nat) : forall (st : walker) (r : result bool) (st' : walker),
  walker_inv stored st -> walk fuel st = Some (r, st') -> walker_inv stored st'.
Proof.
  induction fuel as [|fuel IH]; intros st r st' Hinv; simpl.
  - destruct (decide _); [discriminate|]. intros [= <- <-]. exact Hinv.
  - destruct (decide _); [|intros [= <- <-]; exact Hinv].
    destruct (section_step st) as [st1|e] eqn:Hstep.
    + apply IH. eapply walker_inv_step; eauto.
    + intros [= <- <-]. exact Hinv.
Qed.

Lemma patch_wasm_file_inv (stored : buffer) (r : result bool) (st : walker) :
  patch_wasm_file stored = Some (r, st) -> walker_inv stored st.
Proof.
  unfold patch_wasm_file. destruct (decide _).
  - intros [= <- <-]. apply walker_inv_start.
  - apply walker_inv_walk, walker_inv_start.
Qed.




(** ** The driver *)

Lemma patch_path_total (wasm : string) (w : world) :
  exists r w', patch_path wasm w = Some (r, w').
Proof.
  unfold patch_path. destruct (files w !! wasm) as [stored|]; [|eauto].
  destruct (patch_wasm_file_total stored) as [[r st] ->]. eauto.
Qed.

Lemma main_loop_total (candidates : list string) : forall (any_patched : bool) (w : world),
  exists code w', main_loop candidates any_patched w = Some (code, w').
Proof.
  induction candidates as [|wasm rest IH]; intros any_patched w; simpl; [eauto|].
  destruct (patch_path_total wasm w) as (r & w' & ->).
  destruct r as [[|]|e]; eauto.
Qed.

(** [main] returns on every set of candidates. *)
Lemma main_total (candidates : list string) (w : world) :
  exists code w', main candidates w = Some (code, w').
Proof. apply main_loop_total. Qed.

(** Patching a file prints nothing. *)
Lemma patch_path_printed (wasm : string) (w w' : world) (r : result bool) :
  patch_path wasm w = Some (r, w') -> printed w' = printed w.
Proof.
  unfold patch_path. destruct (files w !! wasm) as [stored|]; [|intros [= <- <-]; reflexivity].
  destruct (patch_wasm_file stored) as [[r' st]|]; [|discriminate].
  intros [= <- <-]. destruct (decide _); reflexivity.
Qed.

(** The run over [candidates], from any point of the loop on: an exit status
    2 comes with the report of a failed candidate as the last line printed,
    and with the same result whatever candidates [post] follow. *)
Lemma main_loop_failure (candidates : list string) : forall (post : list string) (any_patched : bool) (w w' : world),
  main_loop candidates any_patched w = Some (2, w') ->
  main_loop (candidates ++ post) any_patched w = Some (2, w') /\
  exists wasm e, wasm ∈ candidates /\ last (printed w') = Some (Failed wasm e).
Proof.
  induction candidates as [|wasm rest IH]; intros post any_patched w w'; simpl.
  - intros [= ? ?].
  - destruct (patch_path wasm w) as [[[did|e] w1]|] eqn:Hp; [| |discriminate].
    + destruct did; intros Hr; apply (IH post) in Hr as (Hr & wasm' & e & Hin & Hlast);
        (split; [exact Hr|]); exists wasm', e; (split; [right; exact Hin | exact Hlast]).
    + intros [= <-]. split; [reflexivity|]. exists wasm, e. split; [left|].
      simpl. apply last_snoc.
Qed.

(** The driver's loop over candidates that all succeed goes on with the
    candidates behind them. *)
Lemma main_loop_processed (pre : list string) : forall (post : list string) (any_patched any1 : bool) (w w1 : world),
  processed pre any_patched w = Some (any1, w1) ->
  main_loop (pre ++ post) any_patched w = main_loop post any1 w1.
Proof.
  induction pre as [|c pre IH]; intros post any_patched any1 w w1;
    cbn [processed main_loop app].
  - intros [= -> ->]. reflexivity.
  - destruct (patch_path c w) as [[[[|]|e] w']|]; try discriminate; apply IH.
Qed.

(** What [patch_wasm_file(wasm)] leaves in the file [wasm]: what its walker
    has on disk. It leaves the other files alone. *)
Lemma patch_path_effect (wasm : string) (w w' : world) (r : result bool) :
  patch_path wasm w = Some (r, w') ->
  (forall p, p <> wasm -> files w' !! p = files w !! p) /\
  (forall stored, files w !! wasm = Some stored ->
     exists st, patch_wasm_file stored = Some (r, st) /\
                files w' !! wasm = Some (w_disk st)).
Proof.
  unfold patch_path. destruct (files w !! wasm) as [stored|] eqn:Hl.
  - destruct (patch_wasm_file stored) as [[r' st]|] eqn:Hrun; [|discriminate].
    intros [= <- <-].
    pose proof (patch_wasm_file_inv _ _ _ Hrun) as [Hd Hlen Hc Hdirty].
    destruct (decide (w_writes st = 0%nat)) as [Hz|Hnz].
    + split; [reflexivity|]. intros stored' [= <-]. exists st. split; [exact Hrun|].
      rewrite Hl. f_equal. destruct (w_patched st) eqn:Hp.
      * specialize (Hdirty eq_refl). lia.
      * destruct (Hc eq_refl) as [Hs _]. congruence.
    + split.
      * intros p Hp. cbn [files]. apply lookup_insert_ne. congruence.
      * intros stored' [= <-]. exists st. split; [exact Hrun|].
        cbn [files]. apply lookup_insert_eq.
  - intros [= <- <-]. split; [reflexivity|]. intros stored; discriminate.
Qed.

(** Processing candidates touches no other file and removes no line. *)
Lemma processed_keeps (pre : list string) : forall (any_patched any1 : bool) (w w1 : world),
  processed pre any_patched w = Some (any1, w1) ->
  (forall p, p ∉ pre -> files w1 !! p = files w !! p) /\
  (forall m, m ∈ printed w -> m ∈ printed w1).
Proof.
  induction pre as [|c pre IH]; intros any_patched any1 w w1; cbn [processed].
  - intros [= -> ->]. auto.
  - destruct (patch_path c w) as [[[did|e] w']|] eqn:Hp; try discriminate.
    pose proof (patch_path_printed _ _ _ _ Hp) as Hpr.
    destruct (patch_path_effect _ _ _ _ Hp) as [Hother _].
    assert (forall w2 any2, files w2 = files w' ->
              (forall m, m ∈ printed w' -> m ∈ printed w2) ->
              processed pre any2 w2 = Some (any1, w1) ->
              (forall p, p ∉ c :: pre -> files w1 !! p = files w !! p) /\
              (forall m, m ∈ printed w -> m ∈ printed w1)) as Hgo.
    { intros w2 any2 Hf Hm Hrest. destruct (IH _ _ _ _ Hrest) as [Hk Hl]. split.
      - intros p Hnot. apply not_elem_of_cons in Hnot as [Hne Hnr].
        rewrite Hk, Hf by exact Hnr. apply Hother, Hne.
      - intros m Hin. apply Hl, Hm. rewrite Hpr. exact Hin. }
    destruct did.
    + apply Hgo; [reflexivity|]. intros m Hin. cbn [print printed].
      apply elem_of_app. left. exact Hin.
    + apply Hgo; auto.
Qed.

(** Each of the candidates processed has been patched: its file holds what
    [patch_wasm_file] leaves of the bytes it held, and the line "patched"
    has been printed for it if [patch_wasm_file] returned true. *)
Lemma processed_candidate (pre : list string) : forall (any_patched any1 : bool) (w w1 : world) (c : string) (stored : buffer),
  processed pre any_patched w = Some (any1, w1) ->
  NoDup pre -> c ∈ pre -> files w !! c = Some stored ->
  exists b st,
    patch_wasm_file stored = Some (Ok b, st) /\
    files w1 !! c = Some (w_disk st) /\
    (b = true -> Patched c ∈ printed w1).
Proof.
  induction pre as [|c0 pre IH]; intros any_patched any1 w w1 c stored; cbn [processed].
  - intros _ _ Hin. apply elem_of_nil in Hin. contradiction.
  - intros Hrun Hnd Hin Hfile. apply NoDup_cons in Hnd as [Hc0 Hnd].
    destruct (patch_path c0 w) as [[[did|e] w']|] eqn:Hp; try discriminate.
    destruct (patch_path_effect _ _ _ _ Hp) as [Hother Hself].
    assert (exists any2 w2, processed pre any2 w2 = Some (any1, w1) /\
              files w2 = files w' /\
              (did = true -> Patched c0 ∈ printed w2)) as (any2 & w2 & Hrest & Hf & Hline).
    { destruct did.
      - exists true, (print (Patched c0) w'). split; [exact Hrun|]. split; [reflexivity|].
        intros _. cbn [print printed]. apply elem_of_app. right. left.
      - exists any_patched, w'. split; [exact Hrun|]. split; [reflexivity | discriminate]. }
    destruct (processed_keeps _ _ _ _ _ Hrest) as [Hk Hl].
    apply elem_of_cons in Hin as [->|Hin].
    + destruct (Hself _ Hfile) as (st & Hpatch & Hst).
      exists did, st. split; [exact Hpatch|]. split.
      * rewrite Hk, Hf by exact Hc0. exact Hst.
      * intros Hd. apply Hl, Hline, Hd.
    + eapply IH; [exact Hrest | exact Hnd | exact Hin |].
      rewrite Hf, Hother; [exact Hfile|]. intros ->. contradiction.
Qed.

(** A run that ends with the report of the failure of [wasm] has processed
    the candidates before [wasm] and has failed on [wasm]. *)
Lemma main_loop_failed_at (pre : list string) : forall (wasm : string) (post : list string) (any_patched : bool) (w w' : world) (e : error),
  NoDup (pre ++ wasm :: post) ->
  main_loop (pre ++ wasm :: post) any_patched w = Some (2, w') ->
  last (printed w') = Some (Failed wasm e) ->
  exists any1 w1 w2,
    processed pre any_patched w = Some (any1, w1) /\
    patch_path wasm w1 = Some (Err e, w2) /\
    w' = print (Failed wasm e) w2.
Proof.
  induction pre as [|c pre IH]; intros wasm post any_patched w w' e;
    cbn [app main_loop processed].
  - intros Hnd Hrun Hlast. apply NoDup_cons in Hnd as [Hnot _].
    destruct (patch_path wasm w) as [[[did|e0] w1]|] eqn:Hp; [| |discriminate].
    + exfalso.
      assert (exists any2 w2, main_loop post any2 w2 = Some (2, w'))
        as (any2 & w2 & Hrest) by (destruct did; eauto).
      destruct (main_loop_failure post [] _ _ _ Hrest) as (_ & wasm' & e' & Hin & Hl').
      rewrite Hl' in Hlast. injection Hlast as -> _. contradiction.
    + injection Hrun as <-. cbn [print printed] in Hlast.
      rewrite last_snoc in Hlast. injection Hlast as ->.
      exists any_patched, w, w1. auto.
  - intros Hnd Hrun Hlast. apply NoDup_cons in Hnd as [Hnot Hnd].
    destruct (patch_path c w) as [[[did|e0] w1]|] eqn:Hp; [| |discriminate].
    + destruct did; eapply IH; eassumption.
    + exfalso. injection Hrun as <-. cbn [print printed] in Hlast.
      rewrite last_snoc in Hlast. injection Hlast as -> _.
      apply Hnot, elem_of_app. right. left.
Qed.

(** C1, as the code has it: when processing a candidate fails, the driver
    reports the path and the error and returns the exit status 2 at once,
    whatever candidates are left. The candidates before the failed one have
    been processed: the run ends in the files and the output that processing
    them, and then failing on this one, leaves, so that the file of each of
    them holds what [patch_wasm_file] made of it, and its line "patched" has
    been printed if [patch_wasm_file] returned true. The candidates behind
    the failed one are not attempted: their files are as they were, a run
    that ends with status 2 has the report of a failed candidate as its last
    line, and its exit status, its files and its output are the same
    whatever candidates follow. *)
Theorem failure_ends_run :
  (forall (wasm : string) (rest : list string) (any_patched : bool)
          (w w1 : world) (e : error),
     patch_path wasm w = Some (Err e, w1) ->
     main_loop (wasm :: rest) any_patched w = Some (2, print (Failed wasm e) w1)) /\
  (forall (candidates post : list string) (w w' : world),
     main candidates w = Some (2, w') ->
     main (candidates ++ post) w = Some (2, w') /\
     exists wasm e, wasm ∈ candidates /\ last (printed w') = Some (Failed wasm e)) /\
  (forall (pre : list string) (wasm : string) (post : list string)
          (any_patched any1 : bool) (w w1 w2 : world) (e : error),
     processed pre any_patched w = Some (any1, w1) ->
     patch_path wasm w1 = Some (Err e, w2) ->
     main_loop (pre ++ wasm :: post) any_patched w
     = Some (2, print (Failed wasm e) w2)) /\
  (forall (pre : list string) (wasm : string) (post : list string)
          (w w' : world) (e : error),
     NoDup (pre ++ wasm :: post) ->
     main (pre ++ wasm :: post) w = Some (2, w') ->
     last (printed w') = Some (Failed wasm e) ->
     (exists any1 w1 w2,
        processed pre false w = Some (any1, w1) /\
        patch_path wasm w1 = Some (Err e, w2) /\
        w' = print (Failed wasm e) w2) /\
     (forall c stored, c ∈ pre -> files w !! c = Some stored ->
        exists b st,
          patch_wasm_file stored = Some (Ok b, st) /\
          files w' !! c = Some (w_disk st) /\
          (b = true -> Patched c ∈ printed w')) /\
     (forall c, c ∈ post -> files w' !! c = files w !! c)).
Proof.
  split; [|split; [|split]].
  - intros wasm rest any_patched w w1 e Hp. simpl. rewrite Hp. reflexivity.
  - intros candidates post w w'. apply main_loop_failure.
  - intros pre wasm post any_patched any1 w w1 w2 e Hpre Hp.
    rewrite (main_loop_processed _ _ _ _ _ _ Hpre). cbn [main_loop].
    rewrite Hp. reflexivity.
  - intros pre wasm post w w' e Hnd Hrun Hlast.
    destruct (main_loop_failed_at _ _ _ _ _ _ _ Hnd Hrun Hlast)
      as (any1 & w1 & w2 & Hpre & Hp & ->).
    apply NoDup_app in Hnd as (Hndpre & Hdisj & Hnd).
    apply NoDup_cons in Hnd as [Hwp _].
    destruct (patch_path_effect _ _ _ _ Hp) as [Hother _].
    pose proof (patch_path_printed _ _ _ _ Hp) as Hpr.
    destruct (processed_keeps _ _ _ _ _ Hpre) as [Hk _].
    split; [exists any1, w1, w2; auto|]. split.
    + intros c stored Hin Hfile.
      destruct (processed_candidate _ _ _ _ _ _ _ Hpre Hndpre Hin Hfile)
        as (b & st & Hpatch & Hst & Hline).
      exists b, st. split; [exact Hpatch|]. cbn [print files printed]. split.
      * rewrite Hother; [exact Hst|]. intros ->.
        apply (Hdisj _ Hin). left.
      * intros Hb. apply elem_of_app. left. rewrite Hpr. apply Hline, Hb.
    + intros c Hin. cbn [print files].
      rewrite Hother by (intros ->; contradiction).
      apply Hk. intros Hc. apply (Hdisj _ Hc). right. exact Hin.
Qed.

(** Of three candidates the second is no module: the first has been patched
    and reported, the third is not attempted. *)
Lemma failure_ends_run_witness :
  main_loop (["a_bg.wasm"] ++ "b_bg.wasm" :: ["c_bg.wasm"]) false three_files
  = Some (2, print (Failed "b_bg.wasm" NotAModule)
               (World (<["a_bg.wasm" := is_patched]> (files three_files))
                      [Patched "a_bg.wasm"])) /\
  (exists b st,
     patch_wasm_file needs_patch = Some (Ok b, st) /\
     files (World (<["a_bg.wasm" := is_patched]> (files three_files))
                  [Patched "a_bg.wasm"; Failed "b_bg.wasm" NotAModule]) !! "a_bg.wasm"
     = Some (w_disk st)) /\
  files (World (<["a_bg.wasm" := is_patched]> (files three_files))
               [Patched "a_bg.wasm"; Failed "b_bg.wasm" NotAModule]) !! "c_bg.wasm"
  = files three_files !! "c_bg.wasm".
Proof.
  split.
  - apply (proj1 (proj2 (proj2 failure_ends_run))
             ["a_bg.wasm"] "b_bg.wasm" ["c_bg.wasm"] false true three_files
             (World (<["a_bg.wasm" := is_patched]> (files three_files))
                    [Patched "a_bg.wasm"])).
    + vm_compute. reflexivity.
    + vm_compute. reflexivity.
  - destruct (proj2 (proj2 (proj2 failure_ends_run))
                ["a_bg.wasm"] "b_bg.wasm" ["c_bg.wasm"] three_files
                (World (<["a_bg.wasm" := is_patched]> (files three_files))
                       [Patched "a_bg.wasm"; Failed "b_bg.wasm" NotAModule])
                NotAModule) as (_ & Hbefore & Hafter).
    + repeat (apply NoDup_cons; split;
              [rewrite ?elem_of_cons, elem_of_nil; intros H;
               repeat (destruct H as [H|H]; [discriminate|]); exact H|]).
      apply NoDup_nil. exact I.
    + vm_compute. reflexivity.
    + reflexivity.
    + split.
      * destruct (Hbefore "a_bg.wasm" needs_patch) as (b & st & Hrun & Hfile & _).
        -- left.
        -- reflexivity.
        -- exists b, st. split; [exact Hrun | exact Hfile].
      * apply Hafter. left.
Defined.

(** C1 as stated fails: after the failure of [a_bg.wasm] the run is over, and
    [c_bg.wasm], which the patcher would have patched, is as it was. *)
Lemma failure_skips_later_candidates :
  exists w',
    main ["a_bg.wasm"; "c_bg.wasm"] two_files = Some (2, w') /\
    printed w' = [Failed "a_bg.wasm" NotAModule] /\
    files w' !! "c_bg.wasm" = Some needs_patch /\
    exists w'',
      main ["c_bg.wasm"] two_files = Some (0, w'') /\
      printed w'' = [Patched "c_bg.wasm"] /\
      files w'' !! "c_bg.wasm" = Some is_patched.
Proof.
  eexists. split; [vm_compute; reflexivity|].
  split; [reflexivity|]. split; [reflexivity|].
  eexists. split; [vm_compute; reflexivity|].
  split; reflexivity.
Qed.





(** ** An index that does not fit the export's field *)

(** The export loop run for [k + m] entries is the loop for [k] entries
    followed by the loop for [m] entries. *)
Lemma export_loop_split (data : buffer) (ext : Z) (k m : nat) : forall s : scan,
  export_loop data ext (k + m) s
  = (s' <- export_loop data ext k s ;; export_loop data ext m s').
Proof.
  induction k as [|k IH]; intros s; simpl; [reflexivity|].
  destruct (export_entry data ext s) as [s1|e]; simpl; [apply IH | reflexivity].
Qed.

(** An export that raises ends the iteration of the walker over its section
    in that error. *)
Lemma export_at_raises (st : walker) (ext : Z) (s : scan) (e : error) :
  export_at st ext s ->
  export_entry (w_data st) ext s = Err e ->
  (w_off st < length (w_data st))%nat /\ section_step st = Err e.
Proof.
  intros (section_size & n & export_count & cn & j
          & Hid & Hidx & Hsize & Hfit & Hcount & Hj & Hloop) Hentry.
  split; [apply lookup_lt_Some in Hid; exact Hid|].
  unfold section_step. apply index_ok in Hid. rewrite Hid. cbn [bind].
  rewrite Hsize. cbn [bind].
  destruct (Z.gtb_spec (Z.of_nat (w_off st + 1 + n) + section_size)
              (Z.of_nat (length (w_data st)))) as [|_]; [lia|].
  change (7 =? 4) with false. change (7 =? 7) with true. cbn [orb negb].
  rewrite Hidx. unfold export_section. cbn [sc_index sc_patched sc_mutable].
  rewrite Hcount. cbn [bind].
  replace (Z.to_nat export_count) with (j + S (Z.to_nat export_count - S j))%nat by lia.
  rewrite export_loop_split, Hloop. cbn [bind export_loop].
  rewrite Hentry. reflexivity.
Qed.

(** C2, as the code has it: at an export named [__wbindgen_externrefs] of
    kind 1 whose index differs from the recorded externref table index
    [ext], when [ext] cannot be encoded in the [idx_n] bytes of the index
    field, the fixed-width encoder raises "value does not fit in fixed
    width" and nothing in [patch_wasm_file] catches it. The scan of the
    entry ends in that error, and so does every scan of exports that comes
    to this entry; the iteration of the walker over an export section whose
    scan comes to it raises the error; a run of [patch_wasm_file] that comes
    to that section ends in the error, with the file as it was at the start
    of the section; and the driver, given the file as a candidate, reports
    it as failed and exits with status 2, whatever candidates are left. *)
Theorem unfit_export_index_raises
    (data : buffer) (ext : Z) (s : scan) (name_len idx_val : Z) (n idx_n : nat) :
  _read_varuint data (sc_p s) = Ok (name_len, n) ->
  slice data (sc_p s + n) name_len = externrefs_name ->
  data !! (sc_p s + n + Z.to_nat name_len)%nat = Some 1 ->
  _read_varuint data (sc_p s + n + Z.to_nat name_len + 1) = Ok (idx_val, idx_n) ->
  idx_val <> ext ->
  ~ (0 <= ext < 2 ^ (7 * Z.of_nat idx_n)) ->
  export_entry data ext s = Err ValueDoesNotFit /\
  (forall (k count : nat) (s0 : scan),
     export_loop data ext k s0 = Ok s -> (k < count)%nat ->
     export_loop data ext count s0 = Err ValueDoesNotFit) /\
  (forall st : walker,
     w_data st = data -> export_at st ext s ->
     section_step st = Err ValueDoesNotFit /\
     forall (stored : buffer) (k : nat),
       (8 <= length stored)%nat -> take 4 stored = wasm_magic ->
       iterate k (start stored) = Some st ->
       patch_wasm_file stored = Some (Err ValueDoesNotFit, st) /\
       forall (wasm : string) (rest : list string) (any_patched : bool) (w : world),
         files w !! wasm = Some stored ->
         exists w',
           main_loop (wasm :: rest) any_patched w = Some (2, w') /\
           printed w' = printed w ++ [Failed wasm ValueDoesNotFit] /\
           files w' !! wasm = Some (w_disk st) /\
           forall p, p <> wasm -> files w' !! p = files w !! p).
Proof.
  intros Hlen Hname Hkind Hidx Hne Hfit.
  assert (export_entry data ext s = Err ValueDoesNotFit) as Hentry.
  { unfold export_entry. rewrite Hlen. cbn [bind].
    apply index_ok in Hkind. rewrite Hkind. cbn [bind].
    rewrite Hidx. cbn [bind]. rewrite Hname.
    unfold name_matches. rewrite bool_decide_eq_true_2 by reflexivity.
    change (1 =? 1) with true. apply Z.eqb_neq in Hne. rewrite Hne. cbn [andb negb].
    destruct (_encode_varuint_fixed_width ext idx_n) as [enc|e] eqn:Henc.
    - apply encode_ok_iff in Henc as [_ Hin]. contradiction.
    - apply encode_err in Henc as [-> _]. reflexivity. }
  split; [exact Hentry|]. split.
  { intros k count s0 Hk Hlt.
    replace count with (k + S (count - S k))%nat by lia.
    rewrite export_loop_split, Hk. simpl. rewrite Hentry. reflexivity. }
  intros st Hdata Hat. rewrite <- Hdata in Hentry.
  destruct (export_at_raises _ _ _ _ Hat Hentry) as [Hin Hstep].
  split; [exact Hstep|]. intros stored k Hl Hmagic Hk.
  pose proof (patch_raises _ _ _ _ Hl Hmagic Hk Hin Hstep) as Hrun.
  split; [exact Hrun|]. intros wasm rest any_patched w Hfile.
  destruct (patch_path_total wasm w) as (r & w1 & Hp).
  destruct (patch_path_effect _ _ _ _ Hp) as [Hother Hself].
  destruct (Hself _ Hfile) as (st1 & Hrun1 & Hst1).
  rewrite Hrun in Hrun1. injection Hrun1 as <- <-.
  exists (print (Failed wasm ValueDoesNotFit) w1). cbn [main_loop]. rewrite Hp.
  split; [reflexivity|]. cbn [print printed files].
  rewrite (patch_path_printed _ _ _ _ Hp). auto.
Qed.

(** The module with the externref table of index 128 and a one-byte index in
    its export, as the first of two candidates. *)
Lemma unfit_export_index_raises_witness :
  export_entry externref_table_128 128 (Scan 403 (Some 128) false externref_table_128)
  = Err ValueDoesNotFit /\
  section_step (Walker externref_table_128 400 false (Some 128) externref_table_128 0)
  = Err ValueDoesNotFit /\
  patch_wasm_file externref_table_128
  = Some (Err ValueDoesNotFit,
          Walker externref_table_128 400 false (Some 128) externref_table_128 0) /\
  exists w',
    main_loop ("big_bg.wasm" :: ["c_bg.wasm"]) false
      (World (<["big_bg.wasm" := externref_table_128]> (files two_files)) [])
    = Some (2, w') /\
    printed w' = [Failed "big_bg.wasm" ValueDoesNotFit] /\
    files w' !! "c_bg.wasm" = Some needs_patch.
Proof.
  destruct (unfit_export_index_raises externref_table_128 128
              (Scan 403 (Some 128) false externref_table_128) 21 0 1 1)
    as (Hentry & _ & Hrun).
  - vm_compute. reflexivity.
  - vm_compute. reflexivity.
  - vm_compute. reflexivity.
  - vm_compute. reflexivity.
  - discriminate.
  - simpl. lia.
  - split; [exact Hentry|].
    destruct (Hrun (Walker externref_table_128 400 false (Some 128) externref_table_128 0))
      as [Hstep Hfile].
    + reflexivity.
    + exists 25, 1%nat, 1, 1%nat, 0%nat.
      repeat split; vm_compute; first [reflexivity | discriminate | lia].
    + split; [exact Hstep|].
      destruct (Hfile externref_table_128 1%nat) as [Hpatch Hmain].
      * vm_compute. lia.
      * reflexivity.
      * vm_compute. reflexivity.
      * split; [exact Hpatch|].
        destruct (Hmain "big_bg.wasm" ["c_bg.wasm"] false
                    (World (<["big_bg.wasm" := externref_table_128]> (files two_files)) []))
          as (w' & Hm & Hpr & _ & Hother).
        -- reflexivity.
        -- exists w'. split; [exact Hm|]. split; [exact Hpr|].
           rewrite Hother by discriminate. reflexivity.
Defined.

(** C2 as stated fails: on that module the patcher raises, and the driver
    reports the file as failed and exits with status 2. *)
Lemma unfit_export_index_fails_file :
  (exists st,
     patch_wasm_file externref_table_128 = Some (Err ValueDoesNotFit, st) /\
     w_index st = Some 128) /\
  main ["big_bg.wasm"] (World (<["big_bg.wasm" := externref_table_128]> ∅) [])
  = Some (2, World (<["big_bg.wasm" := externref_table_128]> ∅)
                   [Failed "big_bg.wasm" ValueDoesNotFit]).
Proof.
  split.
  - eexists. split; [vm_compute; reflexivity | reflexivity].
  - vm_compute. reflexivity.
Qed.

(** ** Running the patcher again *)

Lemma agree_sub (a b a' b' : nat) (d d' : buffer) :
  agree a b d d' -> (a <= a')%nat -> (b' <= b)%nat -> agree a' b' d d'.
Proof. intros H Ha Hb i Hi. apply H. lia. Qed.

Lemma agree_refl (a b : nat) (d : buffer) : agree a b d d.
Proof. intros i Hi. reflexivity. Qed.

(** From the agreement [H] on a range to the agreement on a part of it. *)
Ltac narrow H := eapply agree_sub; [exact H | lia | lia].

Lemma read_varuint_agree (d d' : buffer) (off : nat) (v : Z) (n : nat) :
  _read_varuint d off = Ok (v, n) ->
  agree off (off + n) d d' ->
  _read_varuint d' off = Ok (v, n).
Proof.
  intros Hr Ha. eapply read_varuint_local; [exact Hr|].
  apply list_eq. intros i.
  destruct (decide (i < n)%nat).
  - rewrite !lookup_take_lt, !lookup_drop by lia. apply Ha. lia.
  - rewrite !lookup_take_ge by lia. reflexivity.
Qed.

Lemma index_agree (d d' : buffer) (p : nat) (b : Z) :
  index d p = Ok b -> agree p (p + 1) d d' -> index d' p = Ok b.
Proof.
  intros Hi Ha. apply index_ok. rewrite Ha by lia. apply index_ok, Hi.
Qed.

(** Writing into a field the bytes it holds changes nothing. *)
Lemma splice_same (mutable enc : buffer) (a w : nat) :
  (a + w <= length mutable)%nat -> length enc = w ->
  (forall j, (j < w)%nat -> mutable !! (a + j)%nat = enc !! j) ->
  splice mutable a (a + w) enc = mutable.
Proof.
  intros Hb He Hsame. apply list_eq. intros i.
  destruct (decide (a <= i < a + w)%nat) as [Hin|Hout].
  - replace i with (a + (i - a))%nat by lia.
    rewrite splice_lookup_in by (try assumption; lia).
    symmetry. apply Hsame. lia.
  - apply splice_lookup_out; assumption.
Qed.

(** One table entry moves [p] forward and touches the buffer between the old
    and the new [p] only. *)
Lemma table_entry_frame (d : buffer) (payload_end : nat) (table_idx : Z) (s s' : scan) :
  table_entry d payload_end table_idx s = Ok s' ->
  length (sc_mutable s) = length d ->
  (sc_p s < sc_p s')%nat /\
  forall i, ~ (sc_p s <= i < sc_p s')%nat -> sc_mutable s' !! i = sc_mutable s !! i.
Proof.
  unfold table_entry. intros H Hlen.
  destruct (decide _); [discriminate|].
  bind_hyp H. bind_hyp H. destruct a0 as [flags fn].
  bind_hyp H. destruct a0 as [initial inn].
  pose proof (read_varuint_width _ _ _ _ E0).
  pose proof (read_varuint_width _ _ _ _ E1).
  destruct (negb (Z.land flags 1 =? 0)).
  - bind_hyp H. bind_hyp E2. destruct a1 as [m w]. injection E2 as <-.
    pose proof (read_varuint_bound _ _ _ _ E3).
    pose proof (read_varuint_width _ _ _ _ E3).
    destruct (_ && _ && _).
    + bind_hyp H. injection H as <-. cbn [sc_p sc_mutable]. split; [lia|].
      intros i Hi. apply encode_length in E2.
      apply splice_lookup_out; [lia | exact E2 | lia].
    + injection H as <-. cbn [sc_p sc_mutable]. split; [lia | reflexivity].
  - cbn [bind] in H. injection H as <-. cbn [sc_p sc_mutable]. split; [lia | reflexivity].
Qed.

Lemma table_loop_frame (d : buffer) (payload_end : nat) (count : nat) :
  forall (table_idx : Z) (s s' : scan),
  table_loop d payload_end count table_idx s = Ok s' ->
  length (sc_mutable s) = length d ->
  (sc_p s <= sc_p s')%nat /\
  forall i, ~ (sc_p s <= i < sc_p s')%nat -> sc_mutable s' !! i = sc_mutable s !! i.
Proof.
  induction count as [|count IH]; intros table_idx s s'; simpl.
  - intros [= <-] _. split; [lia | reflexivity].
  - intros H Hlen. bind_hyp H.
    pose proof (table_entry_length _ _ _ _ _ E Hlen) as Hlen'.
    destruct (table_entry_frame _ _ _ _ _ E Hlen) as [Hp Hf].
    destruct (IH _ _ _ H Hlen') as [Hp' Hf'].
    split; [lia|]. intros i Hi. rewrite Hf', Hf by lia. reflexivity.
Qed.

(** A table entry scanned again, in a buffer [dB] that holds the entry as
    the first scan left it: the scan reads the same fields, ends at the same
    [p] with the same index, and whatever it writes is there already. *)
Lemma table_entry_rerun (dA dB : buffer) (payload_end : nat) (table_idx : Z)
    (sA sA' sB : scan) :
  table_entry dA payload_end table_idx sA = Ok sA' ->
  length (sc_mutable sA) = length dA ->
  agree (sc_p sA) (sc_p sA') dA (sc_mutable sA) ->
  length dB = length dA ->
  agree (sc_p sA) (sc_p sA') (sc_mutable sA') dB ->
  sc_p sB = sc_p sA ->
  sc_index sB = sc_index sA ->
  length (sc_mutable sB) = length dB ->
  agree (sc_p sA) (sc_p sA') dB (sc_mutable sB) ->
  exists sB',
    table_entry dB payload_end table_idx sB = Ok sB' /\
    sc_p sB' = sc_p sA' /\
    sc_index sB' = sc_index sA' /\
    sc_mutable sB' = sc_mutable sB.
Proof.
  intros HA HlenA HmA HlenB HdB Hp Hidx HlenmB HmB.
  unfold table_entry in HA |- *. rewrite Hp, Hidx.
  destruct (decide _); [discriminate|].
  bind_hyp HA. rename a into elem_type.
  bind_hyp HA. destruct a as [flags fn].
  bind_hyp HA. destruct a as [initial inn].
  pose proof (read_varuint_width _ _ _ _ E0) as Hfn.
  pose proof (read_varuint_width _ _ _ _ E1) as Hinn.
  destruct (negb (Z.land flags 1 =? 0)) eqn:Hmax.
  - (* an explicit maximum *)
    bind_hyp HA. bind_hyp E2. destruct a0 as [m w]. injection E2 as <-.
    pose proof (read_varuint_bound _ _ _ _ E3) as Hbound.
    pose proof (read_varuint_width _ _ _ _ E3) as Hw.
    set (max_off := (sc_p sA + 1 + fn + inn)%nat) in *.
    destruct ((elem_type =? 111) && true && (m <? initial + 4)) eqn:Hcond.
    + (* rewritten by the first scan *)
      bind_hyp HA. rename a into enc. injection HA as <-.
      cbn [sc_p sc_index sc_mutable] in *.
      pose proof (encode_length _ _ _ E2) as Henc.
      assert (agree (sc_p sA) max_off dA dB) as Hhead.
      { intros i Hi. rewrite HdB by lia.
        rewrite splice_lookup_out by (try assumption; lia).
        apply HmA. lia. }
      assert (_read_varuint dB max_off
              = Ok (Z.shiftl 1 (7 * Z.of_nat w) - 1, w)) as Hread.
      { eapply read_varuint_agree.
        - apply (read_spliced (sc_mutable sA) enc max_off w); [lia | lia | exact E2].
        - intros i Hi. apply HdB. lia. }
      rewrite (index_agree dA dB _ _ E) by (narrow Hhead).
      cbn [bind].
      rewrite (read_varuint_agree dA dB _ _ _ E0)
        by (narrow Hhead).
      cbn [bind].
      rewrite (read_varuint_agree dA dB _ _ _ E1)
        by (narrow Hhead).
      cbn [bind]. rewrite Hmax. fold max_off. rewrite Hread. cbn [bind].
      match goal with |- context [if ?c then _ else _] => destruct c end.
      * rewrite E2. cbn [bind]. eexists. split; [reflexivity|].
        cbn [sc_p sc_index sc_mutable]. split; [reflexivity|]. split; [reflexivity|].
        apply splice_same; [lia | exact Henc |].
        intros j Hj. rewrite HmB, HdB by lia.
        apply splice_lookup_in; [lia | exact Henc | exact Hj].
      * eexists. split; [reflexivity|]. auto.
    + (* left alone by the first scan *)
      injection HA as <-. cbn [sc_p sc_index sc_mutable] in *.
      assert (agree (sc_p sA) (max_off + w) dA dB) as Hall.
      { intros i Hi. rewrite HdB by lia. apply HmA. lia. }
      rewrite (index_agree dA dB _ _ E) by (narrow Hall).
      cbn [bind].
      rewrite (read_varuint_agree dA dB _ _ _ E0)
        by (narrow Hall).
      cbn [bind].
      rewrite (read_varuint_agree dA dB _ _ _ E1)
        by (narrow Hall).
      cbn [bind]. rewrite Hmax. fold max_off.
      rewrite (read_varuint_agree dA dB _ _ _ E3)
        by (narrow Hall).
      cbn [bind]. rewrite Hcond.
      eexists. split; [reflexivity|]. auto.
  - (* no maximum *)
    cbn [bind] in HA. injection HA as <-. cbn [sc_p sc_index sc_mutable] in *.
    assert (agree (sc_p sA) (sc_p sA + 1 + fn + inn) dA dB) as Hall.
    { intros i Hi. rewrite HdB by lia. apply HmA. lia. }
    rewrite (index_agree dA dB _ _ E) by (narrow Hall).
    cbn [bind].
    rewrite (read_varuint_agree dA dB _ _ _ E0)
      by (narrow Hall).
    cbn [bind].
    rewrite (read_varuint_agree dA dB _ _ _ E1)
      by (narrow Hall).
    cbn [bind]. rewrite Hmax. cbn [bind].
    eexists. split; [reflexivity|]. auto.
Qed.

Lemma table_loop_rerun (dA dB : buffer) (payload_end : nat) (count : nat) :
  forall (table_idx : Z) (sA sAf sB : scan),
  table_loop dA payload_end count table_idx sA = Ok sAf ->
  length (sc_mutable sA) = length dA ->
  agree (sc_p sA) (sc_p sAf) dA (sc_mutable sA) ->
  length dB = length dA ->
  agree (sc_p sA) (sc_p sAf) (sc_mutable sAf) dB ->
  sc_p sB = sc_p sA ->
  sc_index sB = sc_index sA ->
  length (sc_mutable sB) = length dB ->
  agree (sc_p sA) (sc_p sAf) dB (sc_mutable sB) ->
  exists sBf,
    table_loop dB payload_end count table_idx sB = Ok sBf /\
    sc_p sBf = sc_p sAf /\
    sc_index sBf = sc_index sAf /\
    sc_mutable sBf = sc_mutable sB.
Proof.
  induction count as [|count IH];
    intros table_idx sA sAf sB HA HlenA HmA HlenB HdB Hp Hidx HlenmB HmB; simpl in *.
  - injection HA as <-. exists sB. auto.
  - bind_hyp HA. rename a into sA1.
    pose proof (table_entry_length _ _ _ _ _ E HlenA) as HlenA1.
    destruct (table_entry_frame _ _ _ _ _ E HlenA) as [Hp1 Hf1].
    destruct (table_loop_frame _ _ _ _ _ _ HA HlenA1) as [Hpf Hff].
    destruct (table_entry_rerun dA dB payload_end table_idx sA sA1 sB)
      as (sB1 & HB1 & HpB1 & HidxB1 & HmB1); try assumption.
    + narrow HmA.
    + intros i Hi. rewrite HdB by lia. apply Hff. lia.
    + narrow HmB.
    + rewrite HB1. cbn [bind].
      destruct (IH (table_idx + 1) sA1 sAf sB1)
        as (sBf & HBf & HpBf & HidxBf & HmBf); try assumption.
      * intros i Hi. rewrite Hf1 by lia. apply HmA. lia.
      * narrow HdB.
      * congruence.
      * rewrite HmB1. narrow HmB.
      * exists sBf. rewrite HmBf, HmB1. auto.
Qed.

(** A table section scanned again in a buffer that holds, between the start
    of the payload and the end of the first scan, what the first scan left:
    same end, same index, and the buffer is left as it is. *)
Lemma table_section_rerun (dA dB : buffer) (payload_off payload_end : nat)
    (idx : option Z) (bA bB : bool) (sAf : scan) :
  table_section dA payload_off payload_end (Scan payload_off idx bA dA) = Ok sAf ->
  length dB = length dA ->
  agree payload_off (sc_p sAf) (sc_mutable sAf) dB ->
  exists sBf,
    table_section dB payload_off payload_end (Scan payload_off idx bB dB) = Ok sBf /\
    sc_p sBf = sc_p sAf /\
    sc_index sBf = sc_index sAf /\
    sc_mutable sBf = dB.
Proof.
  unfold table_section. cbn [sc_index sc_patched sc_mutable].
  intros HA HlenB HdB. bind_hyp HA. destruct a as [table_count n].
  destruct (table_loop_frame _ _ _ _ _ _ HA eq_refl) as [Hpf Hff].
  cbn [sc_p sc_mutable] in Hpf, Hff.
  rewrite (read_varuint_agree dA dB _ _ _ E).
  2:{ intros i Hi. rewrite HdB by lia. apply Hff. lia. }
  cbn [bind].
  destruct (table_loop_rerun dA dB payload_end (Z.to_nat table_count) 0
              (Scan (payload_off + n) idx bA dA) sAf
              (Scan (payload_off + n) idx bB dB))
    as (sBf & HBf & HpBf & HidxBf & HmBf); try assumption; try reflexivity.
  - apply agree_refl.
  - cbn [sc_p]. narrow HdB.
  - apply agree_refl.
  - exists sBf. auto.
Qed.

(** One export entry moves [p] forward and touches the buffer between the
    old and the new [p] only. *)
Lemma export_entry_frame (d : buffer) (ext : Z) (s s' : scan) :
  export_entry d ext s = Ok s' ->
  length (sc_mutable s) = length d ->
  (sc_p s < sc_p s')%nat /\
  sc_index s' = sc_index s /\
  forall i, ~ (sc_p s <= i < sc_p s')%nat -> sc_mutable s' !! i = sc_mutable s !! i.
Proof.
  unfold export_entry. intros H Hlen.
  bind_hyp H. destruct a as [name_len n].
  bind_hyp H. bind_hyp H. destruct a0 as [idx_val idx_n].
  pose proof (read_varuint_width _ _ _ _ E).
  pose proof (read_varuint_width _ _ _ _ E1).
  pose proof (read_varuint_bound _ _ _ _ E1).
  destruct (_ && _ && _).
  - bind_hyp H. injection H as <-. cbn [sc_p sc_index sc_mutable].
    split; [lia|]. split; [reflexivity|].
    intros i Hi. apply encode_length in E2.
    apply splice_lookup_out; [lia | exact E2 | lia].
  - injection H as <-. cbn [sc_p sc_index sc_mutable].
    split; [lia|]. split; reflexivity.
Qed.

Lemma export_loop_frame (d : buffer) (ext : Z) (count : nat) :
  forall (s s' : scan),
  export_loop d ext count s = Ok s' ->
  length (sc_mutable s) = length d ->
  (sc_p s <= sc_p s')%nat /\
  sc_index s' = sc_index s /\
  forall i, ~ (sc_p s <= i < sc_p s')%nat -> sc_mutable s' !! i = sc_mutable s !! i.
Proof.
  induction count as [|count IH]; intros s s'; simpl.
  - intros [= <-] _. split; [lia|]. split; reflexivity.
  - intros H Hlen. bind_hyp H.
    pose proof (export_entry_length _ _ _ _ E Hlen) as Hlen'.
    destruct (export_entry_frame _ _ _ _ E Hlen) as (Hp & Hi1 & Hf).
    destruct (IH _ _ H Hlen') as (Hp' & Hi2 & Hf').
    split; [lia|]. split; [congruence|].
    intros i Hi. rewrite Hf', Hf by lia. reflexivity.
Qed.

Lemma slice_agree (d d' : buffer) (a : nat) (len : Z) :
  length d' = length d ->
  agree a (a + Z.to_nat len) d d' ->
  slice d' a len = slice d a len.
Proof.
  intros Hlen Ha. unfold slice. rewrite Hlen.
  set (k := Z.to_nat (Z.min len (Z.of_nat (length d)))).
  apply list_eq. intros i.
  destruct (decide (i < k)%nat).
  - rewrite !lookup_take_lt, !lookup_drop by lia. apply Ha. lia.
  - rewrite !lookup_take_ge by lia. reflexivity.
Qed.

(** An export entry scanned again, in a buffer [dB] that holds the entry as
    the first scan left it: the scan ends at the same [p] and patches
    nothing, because a rewritten index field now holds the externref table
    index. *)
Lemma export_entry_rerun (dA dB : buffer) (ext : Z) (sA sA' sB : scan) :
  export_entry dA ext sA = Ok sA' ->
  length (sc_mutable sA) = length dA ->
  agree (sc_p sA) (sc_p sA') dA (sc_mutable sA) ->
  length dB = length dA ->
  agree (sc_p sA) (sc_p sA') (sc_mutable sA') dB ->
  sc_p sB = sc_p sA ->
  export_entry dB ext sB
  = Ok (Scan (sc_p sA') (sc_index sB) (sc_patched sB) (sc_mutable sB)).
Proof.
  intros HA HlenA HmA HlenB HdB Hp.
  unfold export_entry in HA |- *. rewrite Hp.
  bind_hyp HA. destruct a as [name_len n].
  bind_hyp HA. rename a into kind.
  bind_hyp HA. destruct a as [idx_val idx_n].
  pose proof (read_varuint_width _ _ _ _ E) as Hn.
  pose proof (read_varuint_nonneg _ _ _ _ E) as Hnn.
  pose proof (read_varuint_width _ _ _ _ E1) as Hw.
  pose proof (read_varuint_bound _ _ _ _ E1) as Hbound.
  set (idx_off := (sc_p sA + n + Z.to_nat name_len + 1)%nat) in *.
  assert (agree (sc_p sA) idx_off dA dB) as Hhead.
  { destruct (name_matches _ && (kind =? 1) && negb (idx_val =? ext)).
    - bind_hyp HA. injection HA as <-. cbn [sc_p sc_mutable] in *.
      apply encode_length in E2.
      intros i Hi. rewrite HdB by lia.
      rewrite splice_lookup_out by (try assumption; lia).
      apply HmA. lia.
    - injection HA as <-. cbn [sc_p sc_mutable] in *.
      intros i Hi. rewrite HdB by lia. apply HmA. lia. }
  rewrite (read_varuint_agree dA dB _ _ _ E)
    by (narrow Hhead).
  cbn [bind].
  rewrite (slice_agree dA dB) by
    first [assumption | narrow Hhead].
  rewrite (index_agree dA dB _ _ E0) by (narrow Hhead).
  cbn [bind]. fold idx_off.
  destruct (name_matches _ && (kind =? 1) && negb (idx_val =? ext)) eqn:Hcond.
  - (* rewritten by the first scan: the field now reads [ext] *)
    bind_hyp HA. rename a into enc. injection HA as <-. cbn [sc_p sc_mutable] in *.
    assert (_read_varuint dB idx_off = Ok (ext, idx_n)) as Hread.
    { eapply read_varuint_agree.
      - apply (read_spliced (sc_mutable sA) enc idx_off idx_n); [lia | lia | exact E2].
      - intros i Hi. apply HdB. lia. }
    rewrite Hread. cbn [bind]. rewrite Z.eqb_refl. cbn [negb].
    rewrite andb_false_r. reflexivity.
  - (* left alone by the first scan *)
    injection HA as <-. cbn [sc_p sc_mutable] in *.
    rewrite (read_varuint_agree dA dB _ _ _ E1).
    2:{ intros i Hi. rewrite HdB by lia. apply HmA. lia. }
    cbn [bind]. rewrite Hcond. reflexivity.
Qed.

Lemma export_loop_rerun (dA dB : buffer) (ext : Z) (count : nat) :
  forall (sA sAf sB : scan),
  export_loop dA ext count sA = Ok sAf ->
  length (sc_mutable sA) = length dA ->
  agree (sc_p sA) (sc_p sAf) dA (sc_mutable sA) ->
  length dB = length dA ->
  agree (sc_p sA) (sc_p sAf) (sc_mutable sAf) dB ->
  sc_p sB = sc_p sA ->
  export_loop dB ext count sB
  = Ok (Scan (sc_p sAf) (sc_index sB) (sc_patched sB) (sc_mutable sB)).
Proof.
  induction count as [|count IH];
    intros sA sAf sB HA HlenA HmA HlenB HdB Hp; simpl in *.
  - injection HA as <-. rewrite <- Hp. destruct sB; reflexivity.
  - bind_hyp HA. rename a into sA1.
    pose proof (export_entry_length _ _ _ _ E HlenA) as HlenA1.
    destruct (export_entry_frame _ _ _ _ E HlenA) as (Hp1 & _ & Hf1).
    destruct (export_loop_frame _ _ _ _ _ HA HlenA1) as (Hpf & _ & Hff).
    rewrite (export_entry_rerun dA dB ext sA sA1 sB); try assumption.
    + cbn [bind].
      rewrite (IH sA1 sAf (Scan (sc_p sA1) (sc_index sB) (sc_patched sB) (sc_mutable sB)));
        try assumption; try reflexivity.
      * intros i Hi. rewrite Hf1 by lia. apply HmA. lia.
      * narrow HdB.
    + narrow HmA.
    + intros i Hi. rewrite HdB by lia. apply Hff. lia.
Qed.

(** An export section scanned again in a buffer that holds, between the
    start of the payload and the end of the first scan, what the first scan
    left: same end, and no export is patched. *)
Lemma export_section_rerun (dA dB : buffer) (payload_off : nat) (ext : Z)
    (idx : option Z) (bA bB : bool) (sAf : scan) :
  export_section dA payload_off ext (Scan payload_off idx bA dA) = Ok sAf ->
  length dB = length dA ->
  agree payload_off (sc_p sAf) (sc_mutable sAf) dB ->
  export_section dB payload_off ext (Scan payload_off idx bB dB)
  = Ok (Scan (sc_p sAf) idx bB dB).
Proof.
  unfold export_section. cbn [sc_index sc_patched sc_mutable].
  intros HA HlenB HdB. bind_hyp HA. destruct a as [export_count n].
  destruct (export_loop_frame _ _ _ _ _ HA eq_refl) as (Hpf & _ & Hff).
  cbn [sc_p sc_mutable] in Hpf, Hff.
  rewrite (read_varuint_agree dA dB _ _ _ E).
  2:{ intros i Hi. rewrite HdB by lia. apply Hff. lia. }
  cbn [bind].
  rewrite (export_loop_rerun dA dB ext (Z.to_nat export_count)
             (Scan (payload_off + n) idx bA dA) sAf
             (Scan (payload_off + n) idx bB dB));
    try assumption; try reflexivity.
  - apply agree_refl.
  - cbn [sc_p]. narrow HdB.
Qed.

Lemma table_section_frame (d : buffer) (payload_off payload_end : nat)
    (idx : option Z) (b : bool) (sf : scan) :
  table_section d payload_off payload_end (Scan payload_off idx b d) = Ok sf ->
  (payload_off < sc_p sf)%nat /\
  (forall i, ~ (payload_off <= i < sc_p sf)%nat -> sc_mutable sf !! i = d !! i) /\
  (sc_patched sf = false -> sc_mutable sf = d).
Proof.
  unfold table_section. cbn [sc_index sc_patched sc_mutable].
  intros H. bind_hyp H. destruct a as [table_count n].
  pose proof (read_varuint_width _ _ _ _ E).
  destruct (table_loop_frame _ _ _ _ _ _ H eq_refl) as [Hp Hf].
  cbn [sc_p sc_mutable] in *.
  split; [lia|]. split.
  - intros i Hi. apply Hf. lia.
  - intros Hc. eapply scan_patched_mono_table_loop in H as [_ Hm]; [|exact Hc].
    exact Hm.
Qed.

Lemma export_section_frame (d : buffer) (payload_off : nat) (ext : Z)
    (idx : option Z) (b : bool) (sf : scan) :
  export_section d payload_off ext (Scan payload_off idx b d) = Ok sf ->
  (payload_off < sc_p sf)%nat /\
  sc_index sf = idx /\
  (forall i, ~ (payload_off <= i < sc_p sf)%nat -> sc_mutable sf !! i = d !! i) /\
  (sc_patched sf = false -> sc_mutable sf = d).
Proof.
  unfold export_section. cbn [sc_index sc_patched sc_mutable].
  intros H. bind_hyp H. destruct a as [export_count n].
  pose proof (read_varuint_width _ _ _ _ E).
  destruct (export_loop_frame _ _ _ _ _ H eq_refl) as (Hp & Hi & Hf).
  cbn [sc_p sc_index sc_mutable] in *.
  split; [lia|]. split; [exact Hi|]. split.
  - intros i Hi'. apply Hf. lia.
  - intros Hc. eapply scan_patched_mono_export_loop in H as [_ Hm]; [|exact Hc].
    exact Hm.
Qed.

Lemma commit_data (st : walker) (payload_end : nat) (s : scan) :
  (sc_patched s = false -> sc_mutable s = w_data st) ->
  w_data (commit st payload_end s) = sc_mutable s.
Proof.
  unfold commit. intros Hc. destruct (sc_patched s); simpl; [reflexivity|].
  symmetry. apply Hc. reflexivity.
Qed.

Lemma commit_index (st : walker) (payload_end : nat) (s : scan) :
  w_index (commit st payload_end s) = sc_index s.
Proof. unfold commit. destruct (sc_patched s); reflexivity. Qed.

(** The walker's buffer changes behind [off] only. *)
Lemma section_step_keeps (st st1 : walker) :
  section_step st = Ok st1 ->
  forall i, (i <= w_off st)%nat -> w_data st1 !! i = w_data st !! i.
Proof.
  unfold section_step. intros H i Hi.
  bind_hyp H. bind_hyp H. destruct a0 as [section_size n].
  destruct (_ >? _); [discriminate|].
  destruct (negb _); [injection H as <-; reflexivity|].
  destruct (a =? 4).
  - bind_hyp H. injection H as <-.
    destruct (table_section_frame _ _ _ _ _ _ E1) as (_ & Hf & Hc).
    rewrite commit_data by exact Hc. apply Hf. lia.
  - destruct (w_index st) as [ext|]; [|injection H as <-; reflexivity].
    bind_hyp H. injection H as <-.
    destruct (export_section_frame _ _ _ _ _ _ E1) as (_ & _ & Hf & Hc).
    rewrite commit_data by exact Hc. apply Hf. lia.
Qed.

Lemma walk_keeps (fuel : nat) : forall (st stf : walker) (r : result bool),
  walk fuel st = Some (r, stf) ->
  length (w_data stf) = length (w_data st) /\
  forall i, (i < w_off st)%nat -> w_data stf !! i = w_data st !! i.
Proof.
  induction fuel as [|fuel IH]; intros st stf r; simpl.
  - destruct (decide _); [discriminate|]. intros [= <- <-]. auto.
  - destruct (decide _); [|intros [= <- <-]; auto].
    destruct (section_step st) as [st1|e] eqn:Hstep; [|intros [= <- <-]; auto].
    intros Hw. apply IH in Hw as [Hlen Hk].
    destruct (section_step_advance _ _ Hstep) as [Hoff Hlen1].
    split; [congruence|]. intros i Hi.
    rewrite Hk by lia. apply (section_step_keeps _ _ Hstep). lia.
Qed.

(** A table entry scanned in a buffer that the scan leaves as it is: the
    scan sets [patched] exactly when the table is saturated. *)
Lemma table_entry_unchanged (d : buffer) (payload_end : nat) (table_idx : Z) (s s' : scan) :
  table_entry d payload_end table_idx s = Ok s' ->
  sc_mutable s = d -> sc_mutable s' = d ->
  (sc_patched s' = true <-> sc_patched s = true \/ saturated_at d (sc_p s)).
Proof.
  unfold table_entry. intros H Hs Hs'.
  destruct (decide _); [discriminate|].
  bind_hyp H. rename a into elem_type.
  bind_hyp H. destruct a as [flags fn].
  bind_hyp H. destruct a as [initial inn].
  apply index_ok in E.
  assert (forall P : Prop, saturated_at d (sc_p s) ->
            (forall w, elem_type = 0x6F -> Z.land flags 1 <> 0 ->
               _read_varuint d (sc_p s + 1 + fn + inn) = Ok (2 ^ (7 * Z.of_nat w) - 1, w) ->
               2 ^ (7 * Z.of_nat w) - 1 < initial + 4 -> P) -> P) as Hsat.
  { intros P (flags' & initial' & fn' & inn' & w & He & Hf & Hbit & Hi & Hm & Hlt) HP.
    rewrite E in He. injection He as ->. rewrite E0 in Hf. injection Hf as <- <-.
    rewrite E1 in Hi. injection Hi as <- <-. apply (HP w); auto. }
  destruct (negb (Z.land flags 1 =? 0)) eqn:Hmax.
  - bind_hyp H. bind_hyp E2. destruct a0 as [m w]. injection E2 as <-.
    pose proof (read_varuint_bound _ _ _ _ E3) as Hbound.
    pose proof (read_varuint_width _ _ _ _ E3) as Hw.
    destruct ((elem_type =? 111) && true && (m <? initial + 4)) eqn:Hcond.
    + bind_hyp H. rename a into enc. injection H as <-.
      cbn [sc_patched sc_mutable] in *. split; [|reflexivity]. intros _. right.
      apply andb_prop in Hcond as [Hc1 Hlt]. apply andb_prop in Hc1 as [Helem _].
      apply Z.eqb_eq in Helem. apply Z.ltb_lt in Hlt. subst elem_type.
      assert (sc_p s + 1 + fn + inn + w <= length (sc_mutable s))%nat as Hin
        by (rewrite Hs; lia).
      pose proof (read_spliced (sc_mutable s) enc _ w _ Hw Hin E2) as Hr.
      rewrite Hs', E3 in Hr. injection Hr as Hm. rewrite Z.shiftl_1_l in Hm.
      apply negb_true_iff, Z.eqb_neq in Hmax.
      exists flags, initial, fn, inn, w. rewrite <- Hm. auto 10.
    + injection H as <-. cbn [sc_patched sc_mutable]. split; [auto|].
      intros [Hp|Hsatd]; [exact Hp|]. exfalso.
      apply (Hsat False Hsatd). intros w' -> Hbit Hm Hlt.
      rewrite E3 in Hm. injection Hm as -> ->.
      change (111 =? 111) with true in Hcond. cbn [andb] in Hcond.
      apply Z.ltb_ge in Hcond. lia.
  - cbn [bind] in H. injection H as <-. cbn [sc_patched]. split; [auto|].
    intros [Hp|Hsatd]; [exact Hp|]. exfalso.
    apply (Hsat False Hsatd). intros w' _ Hbit _ _.
    apply negb_false_iff, Z.eqb_eq in Hmax. contradiction.
Qed.

(** A table loop that leaves the buffer as it is sets [patched] exactly when
    it comes to a saturated table. *)
Lemma table_loop_unchanged (d : buffer) (payload_end : nat) (count : nat) :
  forall (table_idx : Z) (s s' : scan),
  table_loop d payload_end count table_idx s = Ok s' ->
  sc_mutable s = d -> sc_mutable s' = d ->
  (sc_patched s' = true <->
   sc_patched s = true \/
   exists (j : nat) (sj : scan), (j < count)%nat /\
     table_loop d payload_end j table_idx s = Ok sj /\ saturated_at d (sc_p sj)).
Proof.
  induction count as [|count IH]; intros table_idx s s'; cbn [table_loop].
  - intros [= <-] _ _. split; [auto|]. intros [Hp|(j & sj & Hj & _)]; [exact Hp | lia].
  - intros H Hs Hs'. bind_hyp H. rename a into s1.
    assert (length (sc_mutable s) = length d) as Hlen by (rewrite Hs; reflexivity).
    pose proof (table_entry_length _ _ _ _ _ E Hlen) as Hlen1.
    destruct (table_entry_frame _ _ _ _ _ E Hlen) as [Hp1 Hf1].
    destruct (table_loop_frame _ _ _ _ _ _ H Hlen1) as [Hpf Hff].
    assert (sc_mutable s1 = d) as Hs1.
    { apply list_eq. intros i. destruct (decide (sc_p s <= i < sc_p s1)%nat).
      - rewrite <- Hff by lia. rewrite Hs'. reflexivity.
      - rewrite Hf1 by assumption. rewrite Hs. reflexivity. }
    pose proof (IH _ _ _ H Hs1 Hs') as Hrest.
    pose proof (table_entry_unchanged _ _ _ _ _ E Hs Hs1) as Hentry.
    split.
    + intros Hp'. apply Hrest in Hp' as [Hp1'|(j & sj & Hj & Hl & Hsat)].
      * apply Hentry in Hp1' as [Hp|Hsat]; [left; exact Hp|].
        right. exists 0%nat, s. split; [lia|]. split; [reflexivity | exact Hsat].
      * right. exists (S j), sj. split; [lia|]. cbn [table_loop]. rewrite E. cbn [bind].
        auto.
    + intros [Hp|(j & sj & Hj & Hl & Hsat)]; apply Hrest.
      * left. apply Hentry. left. exact Hp.
      * destruct j as [|j]; cbn [table_loop] in Hl.
        -- injection Hl as <-. left. apply Hentry. right. exact Hsat.
        -- rewrite E in Hl. cbn [bind] in Hl. right. exists j, sj. split; [lia|]. auto.
Qed.

(** An export scanned in a buffer that the scan leaves as it is: [patched]
    is as before. *)
Lemma export_entry_unchanged (d : buffer) (ext : Z) (s s' : scan) :
  export_entry d ext s = Ok s' ->
  sc_mutable s = d -> sc_mutable s' = d ->
  sc_patched s' = sc_patched s.
Proof.
  unfold export_entry. intros H Hs Hs'.
  bind_hyp H. destruct a as [name_len n].
  bind_hyp H. bind_hyp H. destruct a0 as [idx_val idx_n].
  pose proof (read_varuint_width _ _ _ _ E1) as Hw.
  pose proof (read_varuint_bound _ _ _ _ E1) as Hb.
  destruct (_ && _ && _) eqn:Hcond.
  - bind_hyp H. injection H as <-. cbn [sc_patched sc_mutable] in *. exfalso.
    assert (sc_p s + n + Z.to_nat name_len + 1 + idx_n <= length (sc_mutable s))%nat as Hin
      by (rewrite Hs; lia).
    pose proof (read_spliced (sc_mutable s) _ _ idx_n _ Hw Hin E2) as Hr.
    rewrite Hs', E1 in Hr. injection Hr as ->.
    apply andb_prop in Hcond as [_ Hne]. rewrite Z.eqb_refl in Hne. discriminate.
  - injection H as <-. reflexivity.
Qed.

Lemma export_loop_unchanged (d : buffer) (ext : Z) (count : nat) :
  forall (s s' : scan),
  export_loop d ext count s = Ok s' ->
  sc_mutable s = d -> sc_mutable s' = d ->
  sc_patched s' = sc_patched s.
Proof.
  induction count as [|count IH]; intros s s'; cbn [export_loop].
  - intros [= <-] _ _. reflexivity.
  - intros H Hs Hs'. bind_hyp H. rename a into s1.
    assert (length (sc_mutable s) = length d) as Hlen by (rewrite Hs; reflexivity).
    pose proof (export_entry_length _ _ _ _ E Hlen) as Hlen1.
    destruct (export_entry_frame _ _ _ _ E Hlen) as (Hp1 & _ & Hf1).
    destruct (export_loop_frame _ _ _ _ _ H Hlen1) as (Hpf & _ & Hff).
    assert (sc_mutable s1 = d) as Hs1.
    { apply list_eq. intros i. destruct (decide (sc_p s <= i < sc_p s1)%nat).
      - rewrite <- Hff by lia. rewrite Hs'. reflexivity.
      - rewrite Hf1 by assumption. rewrite Hs. reflexivity. }
    rewrite (IH _ _ H Hs1 Hs'). apply (export_entry_unchanged _ _ _ _ E Hs Hs1).
Qed.

Lemma commit_patched (st : walker) (payload_end : nat) (s : scan) :
  w_patched (commit st payload_end s) = sc_patched s.
Proof. unfold commit. destruct (sc_patched s); reflexivity. Qed.

(** An iteration of the walker that leaves the buffer as it is sets
    [patched] exactly when it is over a table section whose scan comes to a
    saturated table. *)
Lemma section_step_unchanged (st st1 : walker) :
  section_step st = Ok st1 -> w_data st1 = w_data st ->
  (w_patched st1 = true <->
   w_patched st = true \/
   exists s, descriptor_at st s /\ saturated_at (w_data st) (sc_p s)).
Proof.
  unfold section_step. intros H Hd.
  bind_hyp H. rename a into section_id. bind_hyp H. destruct a as [section_size n].
  destruct (Z.gtb_spec (Z.of_nat (w_off st + 1 + n) + section_size)
              (Z.of_nat (length (w_data st)))) as [|Hle]; [discriminate|].
  apply index_ok in E.
  assert (section_id <> 4 ->
          (w_patched st = true \/
           exists s, descriptor_at st s /\ saturated_at (w_data st) (sc_p s)) ->
          w_patched st = true) as Hnot.
  { intros Hne [Hp|(s & (? & ? & ? & ? & ? & Hid & _) & _)]; [exact Hp|].
    rewrite E in Hid. congruence. }
  destruct (Z.eqb_spec section_id 4) as [->|Hne4]; cbn [orb negb] in H.
  - bind_hyp H. rename a into sf. injection H as <-.
    destruct (table_section_frame _ _ _ _ _ _ E1) as (_ & _ & Hc).
    rewrite commit_data in Hd by exact Hc. rewrite commit_patched.
    unfold table_section in E1. cbn [sc_index sc_patched sc_mutable] in E1.
    bind_hyp E1. destruct a as [table_count cn].
    pose proof (table_loop_unchanged _ _ _ _ _ _ E1 eq_refl Hd) as Hiff.
    cbn [sc_patched] in Hiff. split.
    + intros Hp. apply Hiff in Hp as [Hp|(j & sj & Hj & Hl & Hsat)]; [left; exact Hp|].
      right. exists sj. split; [|exact Hsat].
      exists section_size, n, table_count, cn, j. cbn zeta. auto 10.
    + intros [Hp|(s & (ss & n' & tc & cn' & j & Hid & Hsz & Hfit & Hcnt & Hj & Hl) & Hsat)];
        apply Hiff; [left; exact Hp|].
      cbn zeta in *. rewrite E0 in Hsz. injection Hsz as <- <-.
      rewrite E2 in Hcnt. injection Hcnt as <- <-.
      right. exists j, s. auto.
  - destruct (Z.eqb_spec section_id 7) as [->|Hne7]; cbn [orb negb] in H.
    + destruct (w_index st) as [ext|] eqn:Hidx.
      * bind_hyp H. rename a into sf. injection H as <-.
        destruct (export_section_frame _ _ _ _ _ _ E1) as (_ & _ & _ & Hc).
        rewrite commit_data in Hd by exact Hc. rewrite commit_patched.
        unfold export_section in E1. cbn [sc_index sc_patched sc_mutable] in E1.
        bind_hyp E1. destruct a as [export_count cn].
        rewrite (export_loop_unchanged _ _ _ _ _ E1 eq_refl Hd). cbn [sc_patched].
        split; [auto | apply Hnot; lia].
      * injection H as <-. cbn [skip_section w_patched].
        split; [auto | apply Hnot; lia].
    + injection H as <-. cbn [skip_section w_patched].
      split; [auto | apply Hnot; lia].
Qed.

(** One iteration of the walker, done again on the buffer [final] the first
    run ended with: the second walker, which is at the same [off] with the
    same index, moves to the same place and leaves [final] as it is, in its
    buffer and on disk. *)
Lemma section_step_rerun (st st1 stB : walker) (final : buffer) :
  section_step st = Ok st1 ->
  section_confined st = true ->
  length final = length (w_data st) ->
  agree (w_off st) (w_off st1) (w_data st1) final ->
  w_data stB = final ->
  w_off stB = w_off st ->
  w_index stB = w_index st ->
  w_disk stB = final ->
  exists stB1,
    section_step stB = Ok stB1 /\
    w_data stB1 = final /\
    w_off stB1 = w_off st1 /\
    w_index stB1 = w_index st1 /\
    w_disk stB1 = final.
Proof.
  intros HA Hconf Hlen Hfin HdB HoB HiB HkB.
  unfold section_confined in Hconf.
  unfold section_step in HA |- *. rewrite HdB, HoB, HiB, Hlen.
  bind_hyp HA. rename a into section_id. rewrite E in Hconf.
  bind_hyp HA. destruct a as [section_size n]. rewrite E0 in Hconf.
  pose proof (read_varuint_nonneg _ _ _ _ E0) as Hnn.
  pose proof (read_varuint_width _ _ _ _ E0) as Hn.
  destruct (Z.of_nat (w_off st + 1 + n) + section_size >? Z.of_nat (length (w_data st)))
    eqn:Hsize; [discriminate|].
  set (payload_off := (w_off st + 1 + n)%nat) in *.
  set (payload_end := Z.to_nat (Z.of_nat payload_off + section_size)) in *.
  assert (payload_off <= payload_end)%nat as Hpe by (subst payload_end; lia).
  (* the header of the section is the same in [final] *)
  assert (agree (w_off st) payload_off (w_data st) (w_data st1) ->
          w_off st1 = payload_end ->
          index final (w_off st) = Ok section_id /\
          _read_varuint final (w_off st + 1) = Ok (section_size, n)) as Hheader.
  { intros Hhead Hoff1. rewrite Hoff1 in Hfin.
    assert (agree (w_off st) payload_off (w_data st) final) as Hh.
    { intros i Hi. rewrite Hfin by lia. apply Hhead, Hi. }
    split.
    - eapply index_agree; [exact E|]. narrow Hh.
    - eapply read_varuint_agree; [exact E0|].
      narrow Hh. }
  destruct (negb ((section_id =? 4) || (section_id =? 7))) eqn:Hid.
  { (* a section that is not looked at *)
    injection HA as <-. cbn [skip_section w_data w_off w_index] in *.
    destruct Hheader as [-> ->]; [apply agree_refl | reflexivity |].
    cbn [bind]. fold payload_off. rewrite Hsize, Hid. fold payload_end.
    eexists. split; [reflexivity|]. cbn. auto. }
  destruct (section_id =? 4) eqn:Hid4.
  - (* the table section *)
    bind_hyp HA. rename a into sAf. injection HA as <-.
    destruct (table_section_frame _ _ _ _ _ _ E1) as (Hp & Hf & Hc).
    rewrite commit_off, commit_data in Hfin by exact Hc.
    rewrite E1 in Hconf. apply bool_decide_eq_true_1 in Hconf.
    destruct Hheader as [-> ->].
    { rewrite commit_data by exact Hc. intros i Hi. apply Hf. lia. }
    { apply commit_off. }
    cbn [bind]. fold payload_off. rewrite Hsize, Hid4. cbn [orb negb].
    fold payload_end.
    destruct (table_section_rerun (w_data st) final payload_off payload_end
                (w_index st) (w_patched st) (w_patched stB) sAf)
      as (sBf & HB & HpB & HidxB & HmB); [exact E1 | exact Hlen | |].
    { narrow Hfin. }
    rewrite HB. cbn [bind]. eexists. split; [reflexivity|].
    rewrite !commit_off, !commit_index.
    split; [|split; [reflexivity|split; [exact HidxB|]]].
    + rewrite commit_data; [exact HmB|]. intros _. rewrite HmB. symmetry. exact HdB.
    + unfold commit. destruct (sc_patched sBf); simpl; [exact HmB | exact HkB].
  - (* the export section *)
    assert ((section_id =? 7) = true) as Hid7
      by (destruct (section_id =? 7); [reflexivity | discriminate]).
    destruct (w_index st) as [ext|] eqn:Hidx.
    + bind_hyp HA. rename a into sAf. injection HA as <-.
      destruct (export_section_frame _ _ _ _ _ _ E1) as (Hp & Hi & Hf & Hc).
      rewrite commit_off, commit_data in Hfin by exact Hc.
      rewrite Hid7, E1 in Hconf. apply bool_decide_eq_true_1 in Hconf.
      destruct Hheader as [-> ->].
      { rewrite commit_data by exact Hc. intros i Hi'. apply Hf. lia. }
      { apply commit_off. }
      cbn [bind]. fold payload_off. rewrite Hsize, Hid4, Hid7. cbn [orb negb].
      fold payload_end.
      rewrite (export_section_rerun (w_data st) final payload_off ext
                 (Some ext) (w_patched st) (w_patched stB) sAf);
        [| exact E1 | exact Hlen | narrow Hfin].
      cbn [bind]. eexists. split; [reflexivity|].
      rewrite !commit_off, !commit_index. cbn [sc_index].
      split; [|split; [reflexivity|split; [symmetry; exact Hi|]]].
      * rewrite commit_data; [reflexivity|]. intros _. symmetry. exact HdB.
      * unfold commit. cbn [sc_patched sc_mutable].
        destruct (w_patched stB); simpl; [reflexivity | exact HkB].
    + injection HA as <-. cbn [skip_section w_data w_off w_index] in *.
      destruct Hheader as [-> ->]; [apply agree_refl | reflexivity |].
      cbn [bind]. fold payload_off. rewrite Hsize, Hid4, Hid7. cbn [orb negb].
      eexists. split; [reflexivity|]. cbn. rewrite Hidx. auto.
Qed.

Lemma walk_rerun (fuel : nat) : forall (st stf stB : walker) (b : bool),
  walk fuel st = Some (Ok b, stf) ->
  confined fuel st = true ->
  w_data stB = w_data stf ->
  w_off stB = w_off st ->
  w_index stB = w_index st ->
  w_disk stB = w_data stf ->
  exists b' stBf,
    walk fuel stB = Some (Ok b', stBf) /\
    w_data stBf = w_data stf /\
    w_disk stBf = w_data stf /\
    w_patched stBf = b' /\
    (b' = true <->
     w_patched stB = true \/
     exists (k : nat) (stk : walker) (s : scan),
       iterate k stB = Some stk /\ descriptor_at stk s /\
       saturated_at (w_data stf) (sc_p s)).
Proof.
  induction fuel as [|fuel IH]; intros st stf stB b HA Hconf HdB HoB HiB HkB;
    pose proof (walk_keeps _ _ _ _ HA) as [Hlen Hkeep].
  - cbn [walk] in *.
    destruct (decide _) as [|Hend]; [discriminate|]. injection HA as <- <-.
    rewrite HoB. destruct (decide _) as [Hc|Hc]; [rewrite HdB in Hc; contradiction|].
    exists (w_patched stB), stB. split; [reflexivity|]. split; [exact HdB|].
    split; [exact HkB|]. split; [reflexivity|]. split; [auto|].
    intros [Hp|(k & stk & s & Hk & (? & ? & ? & ? & ? & Hid & _) & _)]; [exact Hp|].
    exfalso. destruct k as [|k]; cbn [iterate] in Hk.
    + injection Hk as <-. apply lookup_lt_Some in Hid. rewrite HoB in Hid. contradiction.
    + rewrite HoB in Hk. destruct (decide _); [contradiction | discriminate].
  - cbn [walk confined] in HA, Hconf |- *. destruct (decide _) as [Hin|Hend].
    + destruct (section_step st) as [st1|e] eqn:Hstep; [|discriminate].
      apply andb_prop in Hconf as [Hc1 Hc2].
      pose proof (walk_keeps _ _ _ _ HA) as [Hlen1 Hkeep1].
      destruct (section_step_advance _ _ Hstep) as [Hoff Hlen2].
      destruct (section_step_rerun st st1 stB (w_data stf))
        as (stB1 & HB1 & HdB1 & HoB1 & HiB1 & HkB1); try assumption.
      { intros i Hi. apply Hkeep1. lia. }
      assert (w_off stB < length (w_data stB))%nat as HinB by (rewrite HdB, HoB; lia).
      destruct (decide _); [|contradiction].
      rewrite HB1.
      destruct (IH st1 stf stB1 b HA Hc2 HdB1 HoB1 HiB1 HkB1)
        as (b' & stBf & HBf & Hdf & Hkf & Hpf & Hiff).
      exists b', stBf. split; [exact HBf|]. split; [exact Hdf|]. split; [exact Hkf|].
      split; [exact Hpf|].
      pose proof (section_step_unchanged _ _ HB1 ltac:(congruence)) as Hone.
      rewrite HdB in Hone. split.
      * intros Hb. apply Hiff in Hb as [Hp1|(k & stk & s & Hk & Hat & Hsat)].
        -- apply Hone in Hp1 as [Hp|(s & Hat & Hsat)]; [left; exact Hp|].
           right. exists 0%nat, stB, s. auto.
        -- right. exists (S k), stk, s. cbn [iterate].
           destruct (decide _); [|contradiction]. rewrite HB1. auto.
      * intros [Hp|(k & stk & s & Hk & Hat & Hsat)]; apply Hiff.
        -- left. apply Hone. left. exact Hp.
        -- destruct k as [|k]; cbn [iterate] in Hk.
           ++ injection Hk as <-. left. apply Hone. right. exists s. auto.
           ++ destruct (decide _); [|discriminate]. rewrite HB1 in Hk.
              right. exists k, stk, s. auto.
    + injection HA as <- <-.
      rewrite HoB. destruct (decide _) as [Hc|Hc]; [rewrite HdB in Hc; contradiction|].
      exists (w_patched stB), stB. split; [reflexivity|]. split; [exact HdB|].
      split; [exact HkB|]. split; [reflexivity|]. split; [auto|].
      intros [Hp|(k & stk & s & Hk & (? & ? & ? & ? & ? & Hid & _) & _)]; [exact Hp|].
      exfalso. destruct k as [|k]; cbn [iterate] in Hk.
      * injection Hk as <-. apply lookup_lt_Some in Hid. rewrite HoB in Hid. contradiction.
      * rewrite HoB in Hk. destruct (decide _); [contradiction | discriminate].
Qed.

(** An export section scanned again on what its first scan left: nothing
    is patched, whatever [patched] was. *)
Lemma export_section_again (d : buffer) (payload_off : nat) (ext : Z)
    (idx : option Z) (b b' : bool) (sf : scan) :
  export_section d payload_off ext (Scan payload_off idx b d) = Ok sf ->
  export_section (sc_mutable sf) payload_off ext
    (Scan payload_off idx b' (sc_mutable sf))
  = Ok (Scan (sc_p sf) idx b' (sc_mutable sf)).
Proof.
  intros H. eapply export_section_rerun; [exact H | | apply agree_refl].
  eapply export_section_length; [exact H | reflexivity].
Qed.

(** C8, as the code has it: for a file whose table and export entries end
    inside their sections (as in every well-formed module), a second run of
    [patch_wasm_file] on what the first run left succeeds and leaves the
    stored bytes as they are. It applies no patch, does not write the file
    and returns false, unless one of its table scans comes to a saturated
    table, an externref table whose maximum is the largest value of its
    width and still below the initial size plus 4: exactly then it returns
    true, and it has written the file, with the bytes the file held. The
    export conditions are false on the bytes read again: an export section
    scanned again on what its scan left sets no [patched] and changes no
    byte. *)
Theorem second_run_keeps_bytes :
  (forall (stored : buffer) (b : bool) (st : walker),
     well_delimited stored = true ->
     patch_wasm_file stored = Some (Ok b, st) ->
     exists b' st',
       patch_wasm_file (w_disk st) = Some (Ok b', st') /\
       w_disk st' = w_disk st /\
       w_data st' = w_disk st /\
       (b' = true <->
        exists (k : nat) (stk : walker) (s : scan),
          iterate k (start (w_disk st)) = Some stk /\
          descriptor_at stk s /\
          saturated_at (w_disk st) (sc_p s)) /\
       (b' = false -> w_writes st' = 0%nat) /\
       (b' = true -> (0 < w_writes st')%nat)) /\
  (forall (d : buffer) (payload_off : nat) (ext : Z) (idx : option Z)
          (b b' : bool) (sf : scan),
     export_section d payload_off ext (Scan payload_off idx b d) = Ok sf ->
     export_section (sc_mutable sf) payload_off ext
       (Scan payload_off idx b' (sc_mutable sf))
     = Ok (Scan (sc_p sf) idx b' (sc_mutable sf))).
Proof.
  split; [|apply export_section_again].
  intros stored b st Hwd Hrun.
  destruct (patch_wasm_file_inv _ _ _ Hrun) as [Hdisk Hlen _ _].
  destruct (patch_wasm_file_total (w_disk st)) as [[r2 st2] Hrun2].
  pose proof (patch_wasm_file_inv _ _ _ Hrun2) as [_ _ Hclean Hdirty].
  rewrite Hrun2.
  unfold patch_wasm_file in Hrun, Hrun2.
  destruct (decide _) as [|Hmod]; [discriminate|].
  pose proof (walk_keeps _ _ _ _ Hrun) as [_ Hkeep]. cbn [start w_off w_data] in Hkeep.
  rewrite Hdisk in *.
  destruct (decide _) as [Hbad|_].
  { exfalso. apply Hmod. destruct Hbad as [Hshort|Hmagic]; [left; lia|].
    right. intros Heq. apply Hmagic. rewrite <- Heq.
    apply list_eq. intros i. destruct (decide (i < 4)%nat).
    - rewrite !lookup_take_lt by lia. apply Hkeep. lia.
    - rewrite !lookup_take_ge by lia. reflexivity. }
  rewrite Hlen in Hrun2.
  destruct (walk_rerun (length stored) (start stored) st (start (w_data st)) b)
    as (b' & st' & HB & Hd & Hk & Hp & Hiff); try assumption; try reflexivity.
  rewrite HB in Hrun2. injection Hrun2 as <- <-.
  exists b', st'. split; [reflexivity|]. split; [exact Hk|]. split; [exact Hd|].
  split; [|split].
  - rewrite Hiff. cbn [start w_patched]. split.
    + intros [?|H]; [discriminate | exact H].
    + intros H. right. exact H.
  - intros ->. apply Hclean, Hp.
  - intros ->. apply Hdirty, Hp.
Qed.

(** The scenario of the specification: the maximum 4 of the externref table
    of initial size 4 becomes 0x7F, in one write. *)
Example needs_patch_first_run :
  patch_wasm_file needs_patch
  = Some (Ok true, Walker is_patched 15 true (Some 0) is_patched 1).
Proof. vm_compute. reflexivity. Qed.

(** The first run on [both_defects] patches the table and the export, in
    two writes. *)
Example both_defects_first_run :
  patch_wasm_file both_defects
  = Some (Ok true, Walker both_defects_patched 45 true (Some 1) both_defects_patched 2).
Proof. vm_compute. reflexivity. Qed.

(** The first run on [large_initial] leaves the maximum 0x7F behind the
    initial size 124. *)
Example large_initial_first_run :
  patch_wasm_file large_initial
  = Some (Ok true,
          Walker (wasm_header ++ [0x04; 0x05; 0x01; 0x6F; 0x01; 0x7C; 0x7F]) 15 true
                 (Some 0) (wasm_header ++ [0x04; 0x05; 0x01; 0x6F; 0x01; 0x7C; 0x7F]) 1).
Proof. vm_compute. reflexivity. Qed.

(** The second run on what the first made of [both_defects] returns false
    and writes nothing; the second run on what the first made of
    [large_initial], whose table is saturated, returns true and writes the
    file; an export section scanned again patches nothing. *)
Lemma second_run_keeps_bytes_witness :
  (exists st',
     patch_wasm_file both_defects_patched = Some (Ok false, st') /\
     w_disk st' = both_defects_patched /\
     w_writes st' = 0%nat) /\
  (exists st',
     patch_wasm_file (wasm_header ++ [0x04; 0x05; 0x01; 0x6F; 0x01; 0x7C; 0x7F])
     = Some (Ok true, st') /\
     w_disk st' = wasm_header ++ [0x04; 0x05; 0x01; 0x6F; 0x01; 0x7C; 0x7F] /\
     (0 < w_writes st')%nat) /\
  export_section both_defects_patched 20 1 (Scan 20 (Some 1) false both_defects_patched)
  = Ok (Scan 45 (Some 1) false both_defects_patched).
Proof.
  split; [|split].
  - destruct (proj1 second_run_keeps_bytes both_defects true
                (Walker both_defects_patched 45 true (Some 1) both_defects_patched 2))
      as (b' & st' & Hrun & Hdisk & _ & _ & Hfalse & _).
    + vm_compute. reflexivity.
    + vm_compute. reflexivity.
    + cbn [w_disk] in Hrun, Hdisk.
      assert (b' = false) as ->.
      { assert (patch_wasm_file both_defects_patched
                = Some (Ok false,
                        Walker both_defects_patched 45 false (Some 1) both_defects_patched 0))
          as Hval by (vm_compute; reflexivity).
        rewrite Hval in Hrun. injection Hrun as <- _. reflexivity. }
      exists st'. split; [exact Hrun|]. split; [exact Hdisk|]. apply Hfalse. reflexivity.
  - destruct (proj1 second_run_keeps_bytes large_initial true
                (Walker (wasm_header ++ [0x04; 0x05; 0x01; 0x6F; 0x01; 0x7C; 0x7F]) 15 true
                   (Some 0) (wasm_header ++ [0x04; 0x05; 0x01; 0x6F; 0x01; 0x7C; 0x7F]) 1))
      as (b' & st' & Hrun & Hdisk & _ & Hiff & _ & Htrue).
    + vm_compute. reflexivity.
    + vm_compute. reflexivity.
    + cbn [w_disk] in Hrun, Hdisk, Hiff.
      assert (b' = true) as ->.
      { apply Hiff.
        exists 0%nat, (start (wasm_header ++ [0x04; 0x05; 0x01; 0x6F; 0x01; 0x7C; 0x7F])),
               (Scan 11 None false (wasm_header ++ [0x04; 0x05; 0x01; 0x6F; 0x01; 0x7C; 0x7F])).
        split; [reflexivity|]. split.
        - exists 5, 1%nat, 1, 1%nat, 0%nat.
          repeat split; vm_compute; first [reflexivity | discriminate | lia].
        - exists 1, 124, 1%nat, 1%nat, 1%nat.
          repeat split; vm_compute; first [reflexivity | discriminate | lia]. }
      exists st'. split; [exact Hrun|]. split; [exact Hdisk|]. apply Htrue. reflexivity.
  - apply (proj2 second_run_keeps_bytes
             (wasm_header
              ++ [0x04; 0x08; 0x02; 0x70; 0x00; 0x00; 0x6F; 0x01; 0x04; 0x7F]
              ++ export_of_table_0)
             20%nat 1 (Some 1) true false
             (Scan 45 (Some 1) true both_defects_patched)).
    vm_compute. reflexivity.
Defined.

(** C8 as stated fails: the second run on the patched file finds the table
    condition true again (127 < 124 + 4), writes the file and returns true. *)
Lemma second_run_patches_again :
  exists st st',
    patch_wasm_file large_initial = Some (Ok true, st) /\
    w_disk st = wasm_header ++ [0x04; 0x05; 0x01; 0x6F; 0x01; 0x7C; 0x7F] /\
    patch_wasm_file (w_disk st) = Some (Ok true, st') /\
    w_writes st' = 1%nat /\
    w_disk st' = w_disk st.
Proof.
  do 2 eexists. split; [vm_compute; reflexivity|].
  split; [reflexivity|]. split; [vm_compute; reflexivity|].
  split; reflexivity.
Qed.

(** Why the entries have to end inside their sections: in
    [overlapping_sections] the patch of the second table's maximum changes
    the length of the second export's name, and the second run scans the
    exports past the end of the file. *)
Example overlapping_sections_second_run :
  well_delimited overlapping_sections = false /\
  exists st st',
    patch_wasm_file overlapping_sections = Some (Ok true, st) /\
    patch_wasm_file (w_disk st) = Some (Err IndexOutOfRange, st').
Proof.
  split; [vm_compute; reflexivity|].
  do 2 eexists. split; vm_compute; reflexivity.
Qed.

(** ** The table patch in a run of the patcher *)







(** * Further properties of the code *)

(** ** What the decoder computes *)

Lemma byte_split (b : Z) :
  is_byte b -> Z.lor (Z.land b 0x7F) (Z.land b 0x80) = b.
Proof.
  intros [Hlo Hhi]. apply Z.bits_inj'. intros i Hi.
  rewrite Z.lor_spec, low7_testbit, Z.land_spec, bit7_testbit by lia.
  destruct (Z.ltb_spec i 7); [rewrite andb_true_r|].
  - destruct (Z.eqb_spec i 7); [lia|]. rewrite andb_false_r, orb_false_r. reflexivity.
  - rewrite andb_false_r. simpl. destruct (Z.eqb_spec i 7) as [->|Hne].
    + rewrite andb_true_r. reflexivity.
    + rewrite andb_false_r. symmetry.
      destruct (Z.eq_dec b 0) as [->|Hnz]; [apply Z.bits_0|].
      apply Z.bits_above_log2; [lia|].
      assert (Z.log2 b < 8) by (apply Z.log2_lt_pow2; lia). lia.
Qed.

Lemma bit7_cases (b : Z) : Z.land b 0x80 = 0 \/ Z.land b 0x80 = 0x80.
Proof.
  destruct (Z.testbit b 7) eqn:Hb; [right|left]; apply Z.bits_inj'; intros i Hi;
    rewrite Z.land_spec, bit7_testbit, ?Z.bits_0;
    destruct (Z.eqb_spec i 7) as [->|]; rewrite ?Hb, ?andb_false_r; reflexivity.
Qed.

Lemma byte_last (b : Z) : is_byte b -> ~ continues b -> Z.land b 0x7F = b.
Proof.
  intros Hb Hc. pose proof (byte_split b Hb) as Hs.
  destruct (bit7_cases b) as [Hz|Hz]; [|exfalso; apply Hc; unfold continues; rewrite Hz; discriminate].
  rewrite Hz, Z.lor_0_r in Hs. exact Hs.
Qed.

Lemma byte_inner (b : Z) : is_byte b -> continues b -> Z.lor (Z.land b 0x7F) 0x80 = b.
Proof.
  intros Hb Hc. pose proof (byte_split b Hb) as Hs.
  destruct (bit7_cases b) as [Hz|Hz]; [contradiction|].
  rewrite Hz in Hs. exact Hs.
Qed.

Lemma varuint_value_range (bs : buffer) :
  0 <= varuint_value bs < 2 ^ (7 * Z.of_nat (length bs)).
Proof.
  induction bs as [|b bs IH]; [simpl; lia|].
  cbn [varuint_value length]. pose proof (low7_range b).
  replace (7 * Z.of_nat (S (length bs))) with (7 + 7 * Z.of_nat (length bs)) by lia.
  rewrite Z.pow_add_r by lia. change (2 ^ 7) with 128. lia.
Qed.

(** A group of seven bits put below the groups that follow it. *)
Lemma lor_group (x y shift : Z) :
  0 <= x < 128 -> 0 <= y -> 0 <= shift ->
  Z.lor (Z.shiftl x shift) (Z.shiftl y (shift + 7)) = Z.shiftl (x + 128 * y) shift.
Proof.
  intros Hx Hy Hs.
  assert (x + 128 * y = Z.lor x (Z.shiftl y 7)) as ->.
  { rewrite Z.shiftl_mul_pow2 by lia. change (2 ^ 7) with 128.
    replace (128 * y) with (y * 128) by lia.
    apply Z.add_nocarry_lor. apply Z.bits_inj'. intros i Hi.
    rewrite Z.land_spec, Z.bits_0.
    replace (y * 128) with (Z.shiftl y 7)
      by (rewrite Z.shiftl_mul_pow2 by lia; reflexivity).
    rewrite Z.shiftl_spec by lia.
    destruct (Z.ltb_spec i 7).
    - rewrite (Z.testbit_neg_r y) by lia. apply andb_false_r.
    - rewrite <- (low7_small x Hx), low7_testbit by lia.
      destruct (Z.ltb_spec i 7); [lia|]. rewrite andb_false_r. reflexivity. }
  rewrite Z.shiftl_lor, Z.shiftl_shiftl by lia.
  do 2 f_equal. lia.
Qed.

Lemma read_loop_value (rest : buffer) : forall (res shift : Z) (n : nat) (v : Z) (m : nat),
  0 <= shift ->
  read_loop rest res shift n = Ok (v, m) ->
  v = Z.lor res (Z.shiftl (varuint_value (take (m - n) rest)) shift).
Proof.
  induction rest as [|b rest IH]; intros res shift n v m Hs Hr;
    simpl in Hr; [discriminate|].
  destruct (Z.land b 128 =? 0).
  - injection Hr as <- <-. replace (S n - n)%nat with 1%nat by lia.
    cbn [take varuint_value]. rewrite Z.mul_0_r, Z.add_0_r. reflexivity.
  - destruct (shift + 7 >? 35); [discriminate|].
    pose proof (read_loop_lt _ _ _ _ _ _ Hr) as Hlt.
    apply IH in Hr; [|lia]. subst v.
    replace (m - n)%nat with (S (m - S n)) by lia.
    cbn [take varuint_value].
    rewrite <- Z.lor_assoc. f_equal. apply lor_group; [apply low7_range | | lia].
    apply varuint_value_range.
Qed.

Lemma read_loop_terminated (rest : buffer) : forall (res shift : Z) (n : nat) (v : Z) (m : nat),
  read_loop rest res shift n = Ok (v, m) ->
  length (take (m - n) rest) = (m - n)%nat /\ terminated (take (m - n) rest).
Proof.
  induction rest as [|b rest IH]; intros res shift n v m Hr;
    simpl in Hr; [discriminate|].
  destruct (Z.eqb_spec (Z.land b 128) 0) as [Hz|Hnz].
  - injection Hr as <- <-. replace (S n - n)%nat with 1%nat by lia.
    cbn [take]. split; [reflexivity|].
    exists [], b. split; [reflexivity|]. split; [constructor|].
    unfold continues. intros Hc. apply Hc, Hz.
  - destruct (shift + 7 >? 35); [discriminate|].
    pose proof (read_loop_lt _ _ _ _ _ _ Hr) as Hlt.
    apply IH in Hr as (Hlen & body & c & Hbs & Hbody & Hc).
    replace (m - n)%nat with (S (m - S n)) by lia. cbn [take length].
    split; [lia|]. exists (b :: body), c. rewrite Hbs.
    split; [reflexivity|]. split; [|exact Hc]. constructor; [exact Hnz | exact Hbody].
Qed.

(** Up to six bytes that are one encoded integer are decoded, whatever
    follows them. *)
Lemma read_loop_of_terminated (body : buffer) : forall (b : Z) (rest : buffer) (res : Z) (k : Z) (n : nat),
  0 <= k ->
  Z.of_nat (length body) + k <= 5 ->
  Forall continues body -> ~ continues b ->
  read_loop (body ++ b :: rest) res (7 * k) n
  = Ok (Z.lor res (Z.shiftl (varuint_value (body ++ [b])) (7 * k)),
        (n + length body + 1)%nat).
Proof.
  induction body as [|c body IH]; intros b rest res k n Hk Hlen Hbody Hb.
  - cbn [app read_loop varuint_value length].
    assert (Z.land b 128 = 0) as Hz.
    { destruct (Z.eq_dec (Z.land b 128) 0) as [|Hnz]; [assumption|]. contradiction. }
    rewrite Hz. cbn [Z.eqb]. rewrite Z.mul_0_r, Z.add_0_r. do 2 f_equal. lia.
  - apply Forall_cons in Hbody as [Hc Hbody]. cbn [length] in Hlen.
    cbn [app read_loop].
    destruct (Z.eqb_spec (Z.land c 128) 0) as [Hz|_]; [contradiction|].
    destruct (Z.gtb_spec (7 * k + 7) 35) as [|_]; [lia|].
    replace (7 * k + 7) with (7 * (k + 1)) by lia.
    rewrite (IH b rest _ (k + 1) (S n)); [|lia|lia|assumption|assumption].
    cbn [varuint_value length]. rewrite <- Z.lor_assoc.
    replace (7 * (k + 1)) with (7 * k + 7) by lia.
    rewrite lor_group; [|apply low7_range|apply varuint_value_range|lia].
    do 2 f_equal. lia.
Qed.

(** X1: [_read_varuint] succeeds with [(v, n)] exactly when the [n] bytes at
    [off] exist, are at most six, all but the last have the continuation bit
    and the last has not; [v] is then the number these bytes spell, seven
    bits a byte, least significant group first. *)
Theorem read_varuint_spec (data : buffer) (off : nat) (v : Z) (n : nat) :
  _read_varuint data off = Ok (v, n) <->
  (n <= 6)%nat /\
  length (take n (drop off data)) = n /\
  terminated (take n (drop off data)) /\
  v = varuint_value (take n (drop off data)).
Proof.
  split.
  - intros Hr. pose proof (read_varuint_width _ _ _ _ Hr) as Hw.
    unfold _read_varuint in Hr.
    pose proof (read_loop_value _ 0 0 _ _ _ (Z.le_refl 0) Hr) as Hv.
    apply read_loop_terminated in Hr as [Hlen Ht].
    rewrite Nat.sub_0_r in *. rewrite Z.shiftl_0_r, Z.lor_0_l in Hv.
    split; [lia|]. auto.
  - intros (Hn & Hlen & (body & b & Hbs & Hbody & Hb) & ->).
    unfold _read_varuint.
    assert (length body + 1 = n)%nat as Hl
      by (rewrite <- Hlen, Hbs, length_app; simpl; lia).
    rewrite <- (take_drop n (drop off data)) at 1. rewrite Hbs, <- app_assoc.
    cbn [app].
    pose proof (read_loop_of_terminated body b (drop n (drop off data)) 0 0 0) as Hr.
    rewrite Z.mul_0_r in Hr. rewrite Hr; [|lia|lia|assumption|assumption].
    rewrite Z.shiftl_0_r, Z.lor_0_l. do 2 f_equal. lia.
Qed.

Lemma read_varuint_spec_witness :
  _read_varuint [0x00; 0xAC; 0x02; 0xFF] 1 = Ok (300, 2%nat).
Proof.
  apply (proj2 (read_varuint_spec [0x00; 0xAC; 0x02; 0xFF] 1 300 2)).
  split; [lia|]. split; [reflexivity|]. split; [|reflexivity].
  exists [0xAC], 0x02. split; [reflexivity|]. split.
  - constructor; [discriminate | constructor].
  - intros Hc. apply Hc. reflexivity.
Defined.

(** X2: a decoded value is not negative and lies below [2^(7*n)] for the
    [n] bytes consumed, so below [2^42]; the bytes consumed lie inside the
    buffer. *)
Theorem read_varuint_value_bound (data : buffer) (off : nat) (v : Z) (n : nat) :
  _read_varuint data off = Ok (v, n) ->
  0 <= v < 2 ^ (7 * Z.of_nat n) /\ v < 2 ^ 42 /\ (off + n <= length data)%nat.
Proof.
  intros Hr. pose proof (read_varuint_width _ _ _ _ Hr) as Hw.
  pose proof (read_varuint_bound _ _ _ _ Hr) as Hb.
  unfold _read_varuint in Hr.
  pose proof (read_loop_value _ 0 0 _ _ _ (Z.le_refl 0) Hr) as Hv.
  apply read_loop_terminated in Hr as [Hlen _].
  rewrite Nat.sub_0_r in *. rewrite Z.shiftl_0_r, Z.lor_0_l in Hv.
  pose proof (varuint_value_range (take n (drop off data))) as Hrange.
  rewrite Hlen, <- Hv in Hrange.
  split; [exact Hrange|]. split; [|exact Hb].
  assert (2 ^ (7 * Z.of_nat n) <= 2 ^ 42) by (apply Z.pow_le_mono_r; lia). lia.
Qed.

Lemma read_varuint_value_bound_witness :
  0 <= 300 < 2 ^ (7 * Z.of_nat 2) /\ 300 < 2 ^ 42 /\ (1 + 2 <= 4)%nat.
Proof.
  apply (read_varuint_value_bound [0x00; 0xAC; 0x02; 0xFF] 1 300 2). reflexivity.
Defined.

(** Reading with [j] more bytes allowed, that is at [shift = 7 * (6 - j)]. *)
Lemma read_loop_eof (rest : buffer) : forall (res : Z) (j n : nat),
  (1 <= j <= 6)%nat ->
  read_loop rest res (7 * (6 - Z.of_nat j)) n = Err UnexpectedEOF <->
  (length rest < j)%nat /\ Forall continues rest.
Proof.
  induction rest as [|b rest IH]; intros res j n Hj; cbn [read_loop length].
  - split; [intros _; split; [lia | constructor] | reflexivity].
  - destruct (Z.eqb_spec (Z.land b 128) 0) as [Hz|Hnz].
    + split; [discriminate|]. intros [_ Hc]. apply Forall_cons in Hc as [Hc _].
      contradiction.
    + destruct (Z.gtb_spec (7 * (6 - Z.of_nat j) + 7) 35) as [Hgt|Hle].
      * split; [discriminate|]. intros [Hl _]. lia.
      * replace (7 * (6 - Z.of_nat j) + 7) with (7 * (6 - Z.of_nat (j - 1))) by lia.
        rewrite IH by lia. rewrite Forall_cons. unfold continues at 2.
        split; [intros [? ?]|intros [? [? ?]]]; repeat split; try assumption; lia.
Qed.

Lemma read_loop_too_large (rest : buffer) : forall (res : Z) (j n : nat),
  (1 <= j <= 6)%nat ->
  read_loop rest res (7 * (6 - Z.of_nat j)) n = Err VaruintTooLarge <->
  (j <= length rest)%nat /\ Forall continues (take j rest).
Proof.
  induction rest as [|b rest IH]; intros res j n Hj; cbn [read_loop length].
  - split; [discriminate|]. intros [Hl _]. lia.
  - destruct j as [|j]; [lia|]. cbn [take].
    destruct (Z.eqb_spec (Z.land b 128) 0) as [Hz|Hnz].
    + split; [discriminate|]. intros [_ Hc]. apply Forall_cons in Hc as [Hc _].
      contradiction.
    + destruct (Z.gtb_spec (7 * (6 - Z.of_nat (S j)) + 7) 35) as [Hgt|Hle].
      * assert (j = 0)%nat as -> by lia. cbn [take].
        split; [intros _|reflexivity].
        split; [lia|]. constructor; [exact Hnz | constructor].
      * replace (7 * (6 - Z.of_nat (S j)) + 7) with (7 * (6 - Z.of_nat j)) by lia.
        rewrite IH by lia. rewrite Forall_cons. unfold continues at 2.
        split; [intros [? ?]|intros [? [? ?]]]; repeat split; try assumption; lia.
Qed.

(** X3: the decoder raises nothing but its two errors. It raises
    "unexpected EOF" exactly when fewer than six bytes are left from [off]
    (none, if [off] is at or past the end) and all of them have the
    continuation bit; it raises "varuint too large" exactly when six bytes
    are there and all six have the continuation bit. *)
Theorem read_varuint_errors (data : buffer) (off : nat) :
  (_read_varuint data off = Err UnexpectedEOF <->
     (length (drop off data) < 6)%nat /\ Forall continues (drop off data)) /\
  (_read_varuint data off = Err VaruintTooLarge <->
     (6 <= length (drop off data))%nat /\ Forall continues (take 6 (drop off data))) /\
  (forall e, _read_varuint data off = Err e ->
     e = UnexpectedEOF \/ e = VaruintTooLarge).
Proof.
  unfold _read_varuint. split; [|split].
  - apply (read_loop_eof (drop off data) 0 6 0). lia.
  - apply (read_loop_too_large (drop off data) 0 6 0). lia.
  - intros e. apply read_loop_err.
Qed.

Lemma read_varuint_errors_witness :
  _read_varuint [0x80; 0x80] 0 = Err UnexpectedEOF /\
  _read_varuint [0x01] 5 = Err UnexpectedEOF.
Proof.
  split.
  - apply (proj2 (proj1 (read_varuint_errors [0x80; 0x80] 0))).
    split; [simpl; lia|]. repeat constructor; discriminate.
  - apply (proj2 (proj1 (read_varuint_errors [0x01] 5))).
    split; [simpl; lia | constructor].
Defined.

(** X4: the result of a decode depends on the bytes it consumed and on
    nothing else: any buffer with the same [n] bytes at [off] is decoded to
    the same value and width there. *)
Theorem read_varuint_consumed_only (d d' : buffer) (off : nat) (v : Z) (n : nat) :
  _read_varuint d off = Ok (v, n) ->
  (forall i, (off <= i < off + n)%nat -> d' !! i = d !! i) ->
  _read_varuint d' off = Ok (v, n).
Proof. intros Hr Ha. eapply read_varuint_agree; [exact Hr | exact Ha]. Qed.

Lemma read_varuint_consumed_only_witness :
  _read_varuint [0x07; 0xAC; 0x02] 1 = Ok (300, 2%nat).
Proof.
  apply (read_varuint_consumed_only [0x00; 0xAC; 0x02; 0xFF] [0x07; 0xAC; 0x02] 1 300 2).
  - reflexivity.
  - intros i Hi. destruct i as [|[|[|i]]]; try lia; reflexivity.
Defined.

(** ** What the encoder emits *)

(** X5: the fixed-width encoder succeeds exactly on the values from 0 up to
    [2^(7*width) - 1], and raises "value does not fit in fixed width" on all
    others: on every negative value, and in width 0 on everything but 0. *)
Theorem encode_domain (v : Z) (w : nat) :
  ((exists enc, _encode_varuint_fixed_width v w = Ok enc) <->
     0 <= v < 2 ^ (7 * Z.of_nat w)) /\
  (~ (0 <= v < 2 ^ (7 * Z.of_nat w)) ->
     _encode_varuint_fixed_width v w = Err ValueDoesNotFit).
Proof.
  split.
  - split.
    + intros [enc [_ Hr]%encode_ok_iff]. exact Hr.
    + intros Hr. eexists. apply encode_ok_iff. split; [reflexivity | exact Hr].
  - intros Hr. destruct (_encode_varuint_fixed_width v w) as [enc|e] eqn:He.
    + apply encode_ok_iff in He as [_ Hin]. contradiction.
    + apply encode_err in He as [-> _]. reflexivity.
Qed.

Lemma encode_domain_witness :
  (exists enc, _encode_varuint_fixed_width 127 1 = Ok enc) /\
  _encode_varuint_fixed_width 128 1 = Err ValueDoesNotFit.
Proof.
  split.
  - apply (proj2 (proj1 (encode_domain 127 1))). simpl. lia.
  - apply (proj2 (encode_domain 128 1)). simpl. lia.
Defined.

Lemma low7_of_sum (x y : Z) : 0 <= x < 128 -> Z.land (x + 128 * y) 0x7F = x.
Proof.
  intros Hx. change 0x7F with (Z.ones 7). rewrite Z.land_ones by lia.
  change (2 ^ 7) with 128. replace (x + 128 * y) with (x + y * 128) by lia.
  rewrite Z.mod_add by lia. apply Z.mod_small, Hx.
Qed.

Lemma shiftr7_of_sum (x y : Z) : 0 <= x < 128 -> Z.shiftr (x + 128 * y) 7 = y.
Proof.
  intros Hx. rewrite Z.shiftr_div_pow2 by lia. change (2 ^ 7) with 128.
  replace (x + 128 * y) with (x + y * 128) by lia.
  rewrite Z.div_add by lia. rewrite Z.div_small by lia. lia.
Qed.

Lemma set_bit7_byte (x : Z) : 0 <= x < 128 -> Z.lor x 0x80 = x + 128.
Proof.
  intros Hx. pose proof (lor_group x 1 0 Hx) as H.
  rewrite !Z.shiftl_0_r in H. change (Z.shiftl 1 (0 + 7)) with 0x80 in H.
  rewrite H by lia. lia.
Qed.

Lemma encode_loop_bytes (k : nat) : forall v : Z,
  Forall is_byte (encode_loop k v).1 /\ (k <> 0%nat -> terminated (encode_loop k v).1).
Proof.
  induction k as [|k IH]; intros v; cbn [encode_loop].
  - split; [constructor | congruence].
  - destruct (IH (Z.shiftr v 7)) as [Hb Ht].
    destruct (encode_loop k (Z.shiftr v 7)) as [out r] eqn:Hout. cbn [fst] in *.
    pose proof (low7_range v) as Hl. change 127 with 0x7F.
    destruct k as [|k'].
    + injection Hout as <- <-. split.
      * constructor; [unfold is_byte; lia | constructor].
      * intros _. exists [], (Z.land v 0x7F). split; [reflexivity|].
        split; [constructor|]. unfold continues. rewrite low7_clear_bit7. congruence.
    + split.
      * constructor; [|exact Hb]. unfold is_byte. rewrite set_bit7_byte by exact Hl. lia.
      * intros _. destruct Ht as (body & b & -> & Hbody & Hlast); [congruence|].
        exists (Z.lor (Z.land v 0x7F) 0x80 :: body), b.
        split; [reflexivity|]. split; [|exact Hlast].
        constructor; [|exact Hbody]. unfold continues.
        rewrite set_bit7_bit7. discriminate.
Qed.

Lemma encode_loop_value (k : nat) : forall v : Z,
  0 <= v < 2 ^ (7 * Z.of_nat k) -> varuint_value (encode_loop k v).1 = v.
Proof.
  induction k as [|k IH]; intros v Hv; cbn [encode_loop].
  - simpl in *. lia.
  - replace (7 * Z.of_nat (S k)) with (7 + 7 * Z.of_nat k) in Hv by lia.
    rewrite Z.pow_add_r in Hv by lia. change (2 ^ 7) with 128 in Hv.
    assert (0 <= Z.shiftr v 7 < 2 ^ (7 * Z.of_nat k)) as Hv'.
    { rewrite Z.shiftr_div_pow2 by lia. change (2 ^ 7) with 128.
      split; [apply Z.div_pos; lia | apply Z.div_lt_upper_bound; lia]. }
    specialize (IH _ Hv').
    destruct (encode_loop k (Z.shiftr v 7)) as [out r]. cbn [fst] in *.
    cbn [varuint_value]. rewrite IH. change 127 with 0x7F.
    assert (Z.land v 0x7F + 128 * Z.shiftr v 7 = v) as Hsplit.
    { change 0x7F with (Z.ones 7). rewrite Z.land_ones, Z.shiftr_div_pow2 by lia.
      change (2 ^ 7) with 128. pose proof (Z.div_mod v 128). lia. }
    destruct k.
    + rewrite (low7_small (Z.land v 0x7F)) by apply low7_range. exact Hsplit.
    + rewrite set_bit7_low7. exact Hsplit.
Qed.

(** X6: what the encoder returns has exactly [width] bytes, each a byte
    value; for a width of at least 1 every byte but the last has its high
    bit set and the last has it clear; and the bytes spell the value that
    was encoded. *)
Theorem encode_output (v : Z) (w : nat) (enc : buffer) :
  _encode_varuint_fixed_width v w = Ok enc ->
  length enc = w /\
  Forall is_byte enc /\
  (w <> 0%nat -> terminated enc) /\
  varuint_value enc = v.
Proof.
  intros [-> Hv]%encode_ok_iff.
  destruct (encode_loop_bytes w v) as [Hb Ht].
  split; [apply encode_loop_length|]. split; [exact Hb|]. split; [exact Ht|].
  apply encode_loop_value, Hv.
Qed.

Lemma encode_output_witness :
  length [0xAC; 0x82; 0x00] = 3%nat /\
  Forall is_byte [0xAC; 0x82; 0x00] /\
  terminated [0xAC; 0x82; 0x00] /\
  varuint_value [0xAC; 0x82; 0x00] = 300.
Proof.
  destruct (encode_output 300 3 [0xAC; 0x82; 0x00]) as (Hl & Hb & Ht & Hv).
  - reflexivity.
  - split; [exact Hl|]. split; [exact Hb|]. split; [|exact Hv].
    apply Ht. discriminate.
Defined.

Lemma encode_loop_S (k : nat) (v : Z) :
  encode_loop (S k) v
  = let '(out, r) := encode_loop k (Z.shiftr v 7) in
    (match k with O => Z.land v 0x7F | S _ => Z.lor (Z.land v 0x7F) 0x80 end :: out, r).
Proof. reflexivity. Qed.

Lemma encode_loop_of_terminated (body : buffer) : forall b : Z,
  Forall is_byte (body ++ [b]) -> Forall continues body -> ~ continues b ->
  encode_loop (S (length body)) (varuint_value (body ++ [b])) = (body ++ [b], 0).
Proof.
  induction body as [|c body IH]; intros b Hbytes Hbody Hb.
  - apply Forall_cons in Hbytes as [Hib _].
    cbn [app length encode_loop varuint_value]. change 127 with 0x7F.
    rewrite Z.mul_0_r, Z.add_0_r, (byte_last b Hib Hb), (byte_last b Hib Hb).
    f_equal. apply shiftr_zero_iff; [lia|].
    pose proof (low7_range b). rewrite (byte_last b Hib Hb) in *.
    change (2 ^ 7) with 128. lia.
  - cbn [app] in Hbytes. apply Forall_cons in Hbytes as [Hic Hbytes].
    apply Forall_cons in Hbody as [Hc Hbody].
    cbn [app length varuint_value]. rewrite encode_loop_S.
    rewrite low7_of_sum, shiftr7_of_sum by apply low7_range.
    rewrite (IH b Hbytes Hbody Hb). rewrite (byte_inner c Hic Hc). reflexivity.
Qed.

(** X7: decoding and then encoding back in the same width gives the bytes
    that were there: if the buffer holds byte values and the decoder reads
    [(v, n)] at [off], the encoder turns [(v, n)] into the [n] bytes at
    [off]. *)
Theorem encode_decoded (data : buffer) (off : nat) (v : Z) (n : nat) :
  Forall is_byte data ->
  _read_varuint data off = Ok (v, n) ->
  _encode_varuint_fixed_width v n = Ok (take n (drop off data)).
Proof.
  intros Hbytes Hr. unfold _read_varuint in Hr.
  pose proof (read_loop_value _ 0 0 _ _ _ (Z.le_refl 0) Hr) as Hv.
  apply read_loop_terminated in Hr as [Hlen (body & b & Hbs & Hbody & Hb)].
  rewrite Nat.sub_0_r in *. rewrite Z.shiftl_0_r, Z.lor_0_l in Hv.
  assert (Forall is_byte (body ++ [b])) as Hib
    by (rewrite <- Hbs; apply Forall_take, Forall_drop, Hbytes).
  assert (n = S (length body)) as Hn
    by (rewrite <- Hlen, Hbs, length_app; simpl; lia).
  pose proof (encode_loop_of_terminated body b Hib Hbody Hb) as He.
  unfold _encode_varuint_fixed_width. rewrite Hv, Hbs, Hn, He. reflexivity.
Qed.

Lemma encode_decoded_witness :
  _encode_varuint_fixed_width 300 3 = Ok (take 3 (drop 1 [0x00; 0xAC; 0x82; 0x00; 0xFF])).
Proof.
  apply (encode_decoded [0x00; 0xAC; 0x82; 0x00; 0xFF] 1 300 3).
  - repeat constructor; unfold is_byte; lia.
  - reflexivity.
Defined.

(** ** The export-section patcher, entry by entry *)

(** X8: an export named [__wbindgen_externrefs] of kind 1 whose index
    differs from the externref table index [ext], when [ext] fits the
    [idx_n] bytes of the index field: the patcher sets [patched] and
    overwrites these [idx_n] bytes, and no others, by the [idx_n]-byte
    encoding of [ext], which reads back as [ext] in [idx_n] bytes; the
    buffer keeps its length. *)
Theorem export_rewritten
    (data mutable : buffer) (ext : Z) (p : nat) (idx : option Z) (patched : bool)
    (name_len idx_val : Z) (n idx_n : nat) :
  _read_varuint data p = Ok (name_len, n) ->
  slice data (p + n) name_len = externrefs_name ->
  data !! (p + n + Z.to_nat name_len)%nat = Some 1 ->
  _read_varuint data (p + n + Z.to_nat name_len + 1) = Ok (idx_val, idx_n) ->
  idx_val <> ext ->
  0 <= ext < 2 ^ (7 * Z.of_nat idx_n) ->
  length mutable = length data ->
  let idx_off := (p + n + Z.to_nat name_len + 1)%nat in
  exists enc,
    _encode_varuint_fixed_width ext idx_n = Ok enc /\
    export_entry data ext (Scan p idx patched mutable)
    = Ok (Scan (idx_off + idx_n) idx true
            (take idx_off mutable ++ enc ++ drop (idx_off + idx_n) mutable)) /\
    length (take idx_off mutable ++ enc ++ drop (idx_off + idx_n) mutable)
    = length mutable /\
    _read_varuint (take idx_off mutable ++ enc ++ drop (idx_off + idx_n) mutable) idx_off
    = Ok (ext, idx_n) /\
    forall i, ~ (idx_off <= i < idx_off + idx_n)%nat ->
      (take idx_off mutable ++ enc ++ drop (idx_off + idx_n) mutable) !! i = mutable !! i.
Proof.
  intros Hlen Hname Hkind Hidx Hne Hfit Hmut idx_off.
  pose proof (read_varuint_width _ _ _ _ Hidx) as Hw.
  pose proof (read_varuint_bound _ _ _ _ Hidx) as Hb. fold idx_off in Hb, Hidx.
  assert (_encode_varuint_fixed_width ext idx_n = Ok (encode_loop idx_n ext).1) as Henc
    by (apply encode_ok_iff; auto).
  pose proof (encode_loop_length idx_n ext) as Hel.
  exists (encode_loop idx_n ext).1. split; [exact Henc|]. split.
  - unfold export_entry. cbn [sc_p sc_index sc_patched sc_mutable].
    rewrite Hlen. cbn [bind]. apply index_ok in Hkind. rewrite Hkind. cbn [bind].
    fold idx_off. rewrite Hidx. cbn [bind]. rewrite Hname.
    unfold name_matches. rewrite bool_decide_eq_true_2 by reflexivity.
    change (1 =? 1) with true. apply Z.eqb_neq in Hne. rewrite Hne. cbn [andb negb].
    rewrite Henc. reflexivity.
  - fold (splice mutable idx_off (idx_off + idx_n) (encode_loop idx_n ext).1).
    split; [apply splice_length; [lia | exact Hel]|].
    split; [apply read_spliced; [lia | lia | exact Henc]|].
    intros i Hi. apply splice_lookup_out; [lia | exact Hel | exact Hi].
Qed.

Lemma export_rewritten_witness :
  exists enc,
    _encode_varuint_fixed_width 1 1 = Ok enc /\
    export_entry both_defects 1 (Scan 21 (Some 1) true both_defects)
    = Ok (Scan 45 (Some 1) true
            (take 44 both_defects ++ enc ++ drop 45 both_defects)).
Proof.
  destruct (export_rewritten both_defects both_defects 1 21 (Some 1) true 21 0 1 1)
    as (enc & Henc & Hrun & _).
  - reflexivity.
  - reflexivity.
  - reflexivity.
  - reflexivity.
  - discriminate.
  - simpl. lia.
  - reflexivity.
  - exists enc. split; [exact Henc | exact Hrun].
Defined.

(** X9: an export that has another name, or another kind than 1, or whose
    index is the externref table index already, is passed over: the scan
    moves behind its index field and leaves the buffer and [patched] as they
    are. *)
Theorem export_passed_over
    (data : buffer) (ext : Z) (s : scan)
    (name_len kind idx_val : Z) (n idx_n : nat) :
  _read_varuint data (sc_p s) = Ok (name_len, n) ->
  data !! (sc_p s + n + Z.to_nat name_len)%nat = Some kind ->
  _read_varuint data (sc_p s + n + Z.to_nat name_len + 1) = Ok (idx_val, idx_n) ->
  slice data (sc_p s + n) name_len <> externrefs_name \/ kind <> 1 \/ idx_val = ext ->
  export_entry data ext s
  = Ok (Scan (sc_p s + n + Z.to_nat name_len + 1 + idx_n)
             (sc_index s) (sc_patched s) (sc_mutable s)).
Proof.
  intros Hlen Hkind Hidx Hcase.
  unfold export_entry. rewrite Hlen. cbn [bind].
  apply index_ok in Hkind. rewrite Hkind. cbn [bind]. rewrite Hidx. cbn [bind].
  assert (name_matches (slice data (sc_p s + n) name_len)
          && (kind =? 1) && negb (idx_val =? ext) = false) as ->; [|reflexivity].
  destruct Hcase as [Hname|[Hk| ->]].
  - unfold name_matches. rewrite bool_decide_eq_false_2 by exact Hname. reflexivity.
  - apply Z.eqb_neq in Hk. rewrite Hk. apply andb_false_iff. left. apply andb_false_r.
  - rewrite Z.eqb_refl. apply andb_false_r.
Qed.

Lemma export_passed_over_witness :
  export_entry both_defects_patched 1 (Scan 21 (Some 1) false both_defects_patched)
  = Ok (Scan 45 (Some 1) false both_defects_patched).
Proof.
  apply (export_passed_over both_defects_patched 1
           (Scan 21 (Some 1) false both_defects_patched) 21 1 1 1 1).
  - reflexivity.
  - reflexivity.
  - reflexivity.
  - right. right. reflexivity.
Defined.

(** ** The table-section patcher, entry by entry *)

(** X10: a table whose element type is not 0x6F is never rewritten, whatever
    its limits are, and it does not change the recorded index: the scan of
    the entry leaves the buffer, [patched] and the index as they are. *)
Theorem other_table_untouched
    (data : buffer) (payload_end : nat) (table_idx : Z) (s s' : scan) (elem_type : Z) :
  table_entry data payload_end table_idx s = Ok s' ->
  data !! sc_p s = Some elem_type ->
  elem_type <> 0x6F ->
  sc_mutable s' = sc_mutable s /\
  sc_patched s' = sc_patched s /\
  sc_index s' = sc_index s.
Proof.
  unfold table_entry. intros H Helem Hne.
  destruct (decide _); [discriminate|].
  apply index_ok in Helem. rewrite Helem in H. cbn [bind] in H.
  apply Z.eqb_neq in Hne. rewrite Hne in H.
  bind_hyp H. destruct a as [flags fn].
  bind_hyp H. destruct a as [initial inn].
  bind_hyp H. destruct a as [[[[max_off max_val] max_n]|] p'].
  - cbn [andb] in H. injection H as <-. cbn. destruct (sc_index s); auto.
  - injection H as <-. cbn. destruct (sc_index s); auto.
Qed.

Lemma other_table_untouched_witness :
  sc_mutable (Scan 4 None false [0x70; 0x01; 0x04; 0x04]) = [0x70; 0x01; 0x04; 0x04] /\
  sc_patched (Scan 4 None false [0x70; 0x01; 0x04; 0x04]) = false /\
  sc_index (Scan 4 None false [0x70; 0x01; 0x04; 0x04]) = None.
Proof.
  apply (other_table_untouched [0x70; 0x01; 0x04; 0x04] 4 0
           (Scan 0 None false [0x70; 0x01; 0x04; 0x04])
           (Scan 4 None false [0x70; 0x01; 0x04; 0x04]) 0x70).
  - reflexivity.
  - reflexivity.
  - discriminate.
Defined.

(** ** The externref table index *)

Lemma table_entry_index (data : buffer) (payload_end : nat) (table_idx : Z) (s s' : scan) :
  table_entry data payload_end table_idx s = Ok s' ->
  exists elem_type,
    data !! sc_p s = Some elem_type /\
    sc_index s' = match sc_index s with
                  | None => if elem_type =? 0x6F then Some table_idx else None
                  | Some i => Some i
                  end.
Proof.
  unfold table_entry. intros H.
  destruct (decide _); [discriminate|].
  bind_hyp H. rename a into elem_type. exists elem_type.
  split; [apply index_ok, E|].
  bind_hyp H. destruct a as [flags fn].
  bind_hyp H. destruct a as [initial inn].
  bind_hyp H. destruct a as [[[[max_off max_val] max_n]|] p'].
  - destruct (_ && _ && _).
    + bind_hyp H. injection H as <-. reflexivity.
    + injection H as <-. reflexivity.
  - injection H as <-. reflexivity.
Qed.

Lemma table_loop_index_keep (data : buffer) (payload_end : nat) (count : nat) :
  forall (table_idx : Z) (s s' : scan) (i : Z),
  table_loop data payload_end count table_idx s = Ok s' ->
  sc_index s = Some i -> sc_index s' = Some i.
Proof.
  induction count as [|count IH]; intros table_idx s s' i; simpl.
  - intros [= <-]. auto.
  - intros H Hi. bind_hyp H.
    apply table_entry_index in E as (elem_type & _ & Hidx). rewrite Hi in Hidx.
    eapply IH; [exact H | exact Hidx].
Qed.

(** X11: the index recorded is the ordinal of the first externref table. If
    [k] tables have been scanned with no index recorded, and the table that
    follows has element type 0x6F, then the index at the end of the table
    loop is [k], whatever tables come after it, externref or not. *)
Theorem first_externref_recorded
    (data : buffer) (payload_end : nat) (k m : nat) (s s1 s2 : scan) :
  table_loop data payload_end k 0 s = Ok s1 ->
  sc_index s1 = None ->
  data !! sc_p s1 = Some 0x6F ->
  table_loop data payload_end (k + S m) 0 s = Ok s2 ->
  sc_index s2 = Some (Z.of_nat k).
Proof.
  intros Hk Hnone Helem Hall.
  rewrite table_loop_split, Hk in Hall. cbn [bind table_loop] in Hall.
  bind_hyp Hall. rename a into s1'.
  pose proof E as Hentry.
  apply table_entry_index in Hentry as (elem_type & Hel & Hidx).
  rewrite Helem in Hel. injection Hel as <-. rewrite Hnone in Hidx.
  change (111 =? 111) with true in Hidx. cbn in Hidx.
  eapply table_loop_index_keep; [exact Hall | exact Hidx].
Qed.

Lemma first_externref_recorded_witness :
  sc_index (Scan 9 (Some 1) false [0x70; 0x00; 0x00; 0x6F; 0x00; 0x00; 0x6F; 0x00; 0x00])
  = Some (Z.of_nat 1).
Proof.
  apply (first_externref_recorded
           [0x70; 0x00; 0x00; 0x6F; 0x00; 0x00; 0x6F; 0x00; 0x00] 9 1 1
           (Scan 0 None false [0x70; 0x00; 0x00; 0x6F; 0x00; 0x00; 0x6F; 0x00; 0x00])
           (Scan 3 None false [0x70; 0x00; 0x00; 0x6F; 0x00; 0x00; 0x6F; 0x00; 0x00])).
  - reflexivity.
  - reflexivity.
  - reflexivity.
  - reflexivity.
Defined.

Lemma table_loop_index_nonneg (data : buffer) (payload_end : nat) (count : nat) :
  forall (table_idx : Z) (s s' : scan),
  0 <= table_idx ->
  (forall i, sc_index s = Some i -> 0 <= i) ->
  table_loop data payload_end count table_idx s = Ok s' ->
  forall i, sc_index s' = Some i -> 0 <= i.
Proof.
  induction count as [|count IH]; intros table_idx s s' Ht Hs; simpl.
  - intros [= <-]. exact Hs.
  - intros H. bind_hyp H.
    apply table_entry_index in E as (elem_type & _ & Hidx).
    eapply (IH (table_idx + 1)); [lia | | exact H].
    intros i. rewrite Hidx. destruct (sc_index s) as [j|].
    + intros [= <-]. apply Hs. reflexivity.
    + destruct (elem_type =? 111); [intros [= <-]; exact Ht | discriminate].
Qed.

Lemma section_step_index (st st' : walker) :
  section_step st = Ok st' ->
  (forall i, w_index st = Some i -> w_index st' = Some i) /\
  ((forall i, w_index st = Some i -> 0 <= i) ->
   forall i, w_index st' = Some i -> 0 <= i).
Proof.
  unfold section_step. intros H.
  bind_hyp H. bind_hyp H. destruct a0 as [section_size n].
  destruct (_ >? _); [discriminate|].
  destruct (negb _); [injection H as <-; simpl; auto|].
  destruct (a =? 4).
  - bind_hyp H. injection H as <-. rewrite commit_index.
    unfold table_section in E1. bind_hyp E1. destruct a1 as [table_count k].
    cbn [sc_index sc_patched sc_mutable] in E1. split.
    + intros i Hi. eapply table_loop_index_keep; [exact E1 | exact Hi].
    + intros Hnn. eapply table_loop_index_nonneg; [| |exact E1]; [lia | exact Hnn].
  - destruct (w_index st) as [ext|] eqn:Hidx; [|injection H as <-; simpl; rewrite Hidx; auto].
    bind_hyp H. injection H as <-. rewrite commit_index.
    destruct (export_section_frame _ _ _ _ _ _ E1) as (_ & -> & _). auto.
Qed.

Lemma walk_index (fuel : nat) : forall (st st' : walker) (r : result bool),
  walk fuel st = Some (r, st') ->
  (forall i, w_index st = Some i -> w_index st' = Some i) /\
  ((forall i, w_index st = Some i -> 0 <= i) ->
   forall i, w_index st' = Some i -> 0 <= i).
Proof.
  induction fuel as [|fuel IH]; intros st st' r; simpl.
  - destruct (decide _); [discriminate|]. intros [= <- <-]. auto.
  - destruct (decide _); [|intros [= <- <-]; auto].
    destruct (section_step st) as [st1|e] eqn:Hstep; [|intros [= <- <-]; auto].
    intros Hw. apply IH in Hw as [Hk Hn].
    apply section_step_index in Hstep as [Hk1 Hn1]. split; auto.
Qed.

(** X12: the externref table index is set at most once in a run. From any
    point of the walk on, an index that is recorded stays what it is to the
    end of the run, through every later table and export section; and the
    index a run of [patch_wasm_file] ends with is never negative. *)
Theorem externref_index_set_once :
  (forall (fuel : nat) (st st' : walker) (r : result bool) (i : Z),
     walk fuel st = Some (r, st') ->
     w_index st = Some i -> w_index st' = Some i) /\
  (forall (stored : buffer) (r : result bool) (st : walker) (i : Z),
     patch_wasm_file stored = Some (r, st) ->
     w_index st = Some i -> 0 <= i).
Proof.
  split.
  - intros fuel st st' r i Hw. apply (walk_index _ _ _ _ Hw).
  - intros stored r st i. unfold patch_wasm_file.
    destruct (decide _); [intros [= <- <-]; discriminate|].
    intros Hw. apply (walk_index _ _ _ _ Hw). discriminate.
Qed.

Lemma externref_index_set_once_witness :
  w_index (Walker both_defects_patched 45 true (Some 1) both_defects_patched 2)
  = Some 1 /\ 0 <= 1.
Proof.
  split.
  - apply (proj1 externref_index_set_once 45%nat
             (Walker both_defects_patched 18 true (Some 1) both_defects_patched 1)
             (Walker both_defects_patched 45 true (Some 1) both_defects_patched 2)
             (Ok true) 1).
    + vm_compute. reflexivity.
    + reflexivity.
  - apply (proj2 externref_index_set_once both_defects (Ok true)
             (Walker both_defects_patched 45 true (Some 1) both_defects_patched 2) 1).
    + vm_compute. reflexivity.
    + reflexivity.
Defined.

(** ** What a run leaves on disk *)

(** X13: whatever a run of [patch_wasm_file] ends in, a return or an error,
    the file has the length it had, and its first eight bytes, the magic tag
    and the version, are the ones it had. *)
Theorem patch_keeps_length_and_header (stored : buffer) (r : result bool) (st : walker) :
  patch_wasm_file stored = Some (r, st) ->
  length (w_disk st) = length stored /\
  take 8 (w_disk st) = take 8 stored.
Proof.
  intros Hrun. destruct (patch_wasm_file_inv _ _ _ Hrun) as [Hdisk Hlen _ _].
  rewrite Hdisk. split; [exact Hlen|].
  unfold patch_wasm_file in Hrun. destruct (decide _).
  - injection Hrun as <- <-. reflexivity.
  - apply walk_keeps in Hrun as [_ Hkeep]. cbn [start w_off w_data] in Hkeep.
    apply list_eq. intros i. destruct (decide (i < 8)%nat).
    + rewrite !lookup_take_lt by lia. apply Hkeep. lia.
    + rewrite !lookup_take_ge by lia. reflexivity.
Qed.

Lemma patch_keeps_length_and_header_witness :
  length is_patched = length needs_patch /\
  take 8 is_patched = take 8 needs_patch.
Proof.
  apply (patch_keeps_length_and_header needs_patch (Ok true)
           (Walker is_patched 15 true (Some 0) is_patched 1)).
  vm_compute. reflexivity.
Defined.

Lemma walk_ok_end (fuel : nat) : forall (st st' : walker) (b : bool),
  walk fuel st = Some (Ok b, st') ->
  (w_off st <= length (w_data st))%nat ->
  w_patched st' = b /\ w_off st' = length (w_data st').
Proof.
  induction fuel as [|fuel IH]; intros st st' b; simpl.
  - destruct (decide _); [discriminate|]. intros [= <- <-] Hle. split; [reflexivity | lia].
  - destruct (decide _); [|intros [= <- <-] Hle; split; [reflexivity | lia]].
    destruct (section_step st) as [st1|e] eqn:Hstep; [|discriminate].
    intros Hw _. apply section_step_advance in Hstep as [Hoff Hlen].
    eapply IH; [exact Hw | lia].
Qed.

(** X14: the value returned tells whether the file was written. A run that
    returns false has not written the file, which holds what it held; a run
    that returns true has written it at least once. Either way the walk has
    ended exactly at the end of the file, and the file holds the walker's
    buffer. *)
Theorem return_value_tells_writes (stored : buffer) (b : bool) (st : walker) :
  patch_wasm_file stored = Some (Ok b, st) ->
  (b = false -> w_writes st = 0%nat /\ w_disk st = stored) /\
  (b = true -> (0 < w_writes st)%nat) /\
  w_off st = length stored /\
  w_disk st = w_data st.
Proof.
  intros Hrun. destruct (patch_wasm_file_inv _ _ _ Hrun) as [Hdisk Hlen Hclean Hdirty].
  unfold patch_wasm_file in Hrun. destruct (decide _) as [|Hok]; [discriminate|].
  apply walk_ok_end in Hrun as [Hb Hoff];
    [|cbn [start w_off w_data]; apply Decidable.not_or in Hok as [Hl _]; lia].
  subst b. split; [|split; [exact Hdirty|split; [congruence | exact Hdisk]]].
  intros Hf. destruct (Hclean Hf) as [Hd Hw]. split; [exact Hw | congruence].
Qed.

Lemma return_value_tells_writes_witness :
  w_writes (Walker is_patched 15 false (Some 0) is_patched 0) = 0%nat /\
  w_disk (Walker is_patched 15 false (Some 0) is_patched 0) = is_patched.
Proof.
  destruct (return_value_tells_writes is_patched false
              (Walker is_patched 15 false (Some 0) is_patched 0)) as (Hfalse & _).
  - vm_compute. reflexivity.
  - apply Hfalse. reflexivity.
Defined.

(** ** Which errors a run can end in *)

Lemma read_err_table (data : buffer) (off : nat) (e : error) :
  _read_varuint data off = Err e -> table_error e.
Proof. intros [->| ->]%read_varuint_err; unfold table_error; auto. Qed.

Lemma read_err_export (data : buffer) (off : nat) (e : error) :
  _read_varuint data off = Err e -> export_error e.
Proof. intros [->| ->]%read_varuint_err; unfold export_error; auto. Qed.

Lemma table_entry_errors (data : buffer) (payload_end : nat) (table_idx : Z) (s : scan) (e : error) :
  (payload_end <= length data)%nat ->
  table_entry data payload_end table_idx s = Err e -> table_error e.
Proof.
  unfold table_entry. intros Hpe.
  destruct (decide _) as [|Hp]; [intros [= <-]; unfold table_error; auto|].
  destruct (index data (sc_p s)) as [elem_type|e'] eqn:E; cbn [bind].
  2:{ unfold index in E. destruct (data !! sc_p s) eqn:Hl; [discriminate|].
      apply lookup_ge_None in Hl. lia. }
  bind_goal; [|intros [= <-]; eapply read_err_table; eassumption].
  destruct a as [flags fn].
  bind_goal; [|intros [= <-]; eapply read_err_table; eassumption].
  destruct a as [initial inn].
  destruct (negb (Z.land flags 1 =? 0)).
  - bind_goal; [|intros [= <-]; eapply read_err_table; eassumption].
    destruct a as [m w]. cbn [bind].
    destruct (_ && _ && _); [|discriminate].
    rewrite encode_new_max. discriminate.
  - cbn [bind]. discriminate.
Qed.

Lemma table_loop_errors (data : buffer) (payload_end : nat) (count : nat) :
  forall (table_idx : Z) (s : scan) (e : error),
  (payload_end <= length data)%nat ->
  table_loop data payload_end count table_idx s = Err e -> table_error e.
Proof.
  induction count as [|count IH]; intros table_idx s e Hpe; simpl; [discriminate|].
  destruct (table_entry data payload_end table_idx s) as [s1|e1] eqn:E; cbn [bind].
  - apply IH, Hpe.
  - intros [= <-]. eapply table_entry_errors; eassumption.
Qed.

Lemma export_entry_errors (data : buffer) (ext : Z) (s : scan) (e : error) :
  export_entry data ext s = Err e -> export_error e.
Proof.
  unfold export_entry.
  bind_goal; [|intros [= <-]; eapply read_err_export; eassumption].
  destruct a as [name_len n].
  bind_goal; [|intros [= <-]; apply index_err in E0; subst; unfold export_error; auto].
  bind_goal; [|intros [= <-]; eapply read_err_export; eassumption].
  destruct a0 as [idx_val idx_n].
  destruct (_ && _ && _); [|discriminate].
  bind_goal; [discriminate|].
  intros [= <-]. apply encode_err in E2 as [-> _]. unfold export_error. auto.
Qed.

Lemma export_loop_errors (data : buffer) (ext : Z) (count : nat) :
  forall (s : scan) (e : error),
  export_loop data ext count s = Err e -> export_error e.
Proof.
  induction count as [|count IH]; intros s e; simpl; [discriminate|].
  destruct (export_entry data ext s) as [s1|e1] eqn:E; cbn [bind].
  - apply IH.
  - intros [= <-]. eapply export_entry_errors; eassumption.
Qed.

Lemma section_step_error_cases (st : walker) (e : error) (section_id : Z) :
  section_step st = Err e ->
  w_data st !! w_off st = Some section_id ->
  e = InvalidSectionSize \/
  (section_id = 4 /\ table_error e) \/
  (section_id = 7 /\ export_error e) \/
  (e = UnexpectedEOF \/ e = VaruintTooLarge).
Proof.
  unfold section_step. intros H Hid. apply index_ok in Hid.
  rewrite Hid in H. cbn [bind] in H.
  destruct (_read_varuint (w_data st) (w_off st + 1)) as [[section_size n]|e'] eqn:E;
    cbn [bind] in H.
  2:{ injection H as <-. right. right. right.
      apply read_varuint_err in E. exact E. }
  destruct (Z.gtb_spec (Z.of_nat (w_off st + 1 + n) + section_size)
              (Z.of_nat (length (w_data st)))) as [|Hle];
    [injection H as <-; auto|].
  pose proof (read_varuint_nonneg _ _ _ _ E) as Hnn.
  destruct (Z.eqb_spec section_id 4) as [->|Hne4].
  - cbn [orb negb] in H. right. left. split; [reflexivity|].
    destruct (table_section _ _ _ _) as [s'|e1] eqn:E1; [discriminate|].
    injection H as <-. unfold table_section in E1.
    destruct (_read_varuint (w_data st) (w_off st + 1 + n)) as [[table_count k]|e2] eqn:E2;
      cbn [bind] in E1.
    + eapply table_loop_errors; [|exact E1]. lia.
    + injection E1 as <-. eapply read_err_table; eassumption.
  - destruct (Z.eqb_spec section_id 7) as [->|Hne7]; cbn [orb negb] in H;
      [|discriminate].
    destruct (w_index st) as [ext|]; [|discriminate].
    destruct (export_section _ _ _ _) as [s'|e1] eqn:E1; [discriminate|].
    injection H as <-. unfold export_section in E1.
    destruct (_read_varuint (w_data st) (w_off st + 1 + n)) as [[export_count k]|e2] eqn:E2;
      cbn [bind] in E1.
    + right. right. left. split; [reflexivity|]. eapply export_loop_errors; exact E1.
    + injection E1 as <-. right. right. right. apply read_varuint_err in E2. exact E2.
Qed.

(** X15: the errors of one iteration of the walker. Reading the section's
    id never fails. Behind the header of the section, whose errors are those
    of the decoder and "invalid section size", a table section raises
    nothing but the decoder's errors and "table section truncated" (no
    [IndexError], no "value does not fit"), an export section nothing but
    the decoder's errors, the [IndexError] of a missing kind byte and "value
    does not fit", and any other section nothing at all. *)
Theorem section_step_errors (st : walker) (e : error) (section_id : Z) :
  section_step st = Err e ->
  w_data st !! w_off st = Some section_id ->
  e = InvalidSectionSize \/
  (section_id = 4 /\ table_error e) \/
  (section_id = 7 /\ export_error e) \/
  (e = UnexpectedEOF \/ e = VaruintTooLarge).
Proof. apply section_step_error_cases. Qed.

Lemma section_step_errors_witness :
  InvalidSectionSize = InvalidSectionSize \/
  (9 = 4 /\ table_error InvalidSectionSize) \/
  (9 = 7 /\ export_error InvalidSectionSize) \/
  (InvalidSectionSize = UnexpectedEOF \/ InvalidSectionSize = VaruintTooLarge).
Proof.
  apply (section_step_errors
           (Walker (is_patched ++ [0x09; 0x05]) 15 true (Some 0)
                   (is_patched ++ [0x09; 0x05]) 1)).
  - reflexivity.
  - reflexivity.
Defined.

Lemma walk_errors (fuel : nat) : forall (st st' : walker) (e : error),
  walk fuel st = Some (Err e, st') -> e <> NotAModule /\ e <> ReadFailed.
Proof.
  induction fuel as [|fuel IH]; intros st st' e; simpl.
  - destruct (decide _); discriminate.
  - destruct (decide _) as [Hin|]; [|discriminate].
    destruct (section_step st) as [st1|e1] eqn:Hstep; [apply IH|].
    intros [= <- <-].
    destruct (lookup_lt_is_Some_2 _ _ Hin) as [section_id Hid].
    destruct (section_step_error_cases _ _ _ Hstep Hid)
      as [->|[[_ Ht]|[[_ Hx]|[->| ->]]]]; try (split; discriminate).
    + destruct Ht as [->|[->| ->]]; split; discriminate.
    + destruct Hx as [->|[->|[->| ->]]]; split; discriminate.
Qed.

(** X16: [patch_wasm_file] raises "not a wasm module" exactly on the files
    that are shorter than eight bytes or do not start with the magic tag,
    and then before anything else is looked at; no later step raises it. *)
Theorem not_a_module_iff (stored : buffer) :
  (exists st, patch_wasm_file stored = Some (Err NotAModule, st)) <->
  (length stored < 8)%nat \/ take 4 stored <> wasm_magic.
Proof.
  unfold patch_wasm_file. destruct (decide _) as [Hbad|Hok]; split.
  - intros _. exact Hbad.
  - intros _. eauto.
  - intros [st Hw]. apply walk_errors in Hw as [Hne _]. congruence.
  - intros Hbad. contradiction.
Qed.

Lemma not_a_module_iff_witness :
  exists st, patch_wasm_file [0x00; 0x61; 0x73; 0x6D; 0x01] = Some (Err NotAModule, st).
Proof.
  apply (proj2 (not_a_module_iff [0x00; 0x61; 0x73; 0x6D; 0x01])).
  left. simpl. lia.
Defined.

Lemma table_loop_patched_keep (data : buffer) (payload_end : nat) (count : nat)
    (table_idx : Z) (s s' : scan) :
  table_loop data payload_end count table_idx s = Ok s' ->
  sc_patched s = true -> sc_patched s' = true.
Proof.
  intros H Ht. destruct (sc_patched s') eqn:Hf; [reflexivity|].
  apply (scan_patched_mono_table_loop _ _ _ _ _ _ H) in Hf as [Hf _]. congruence.
Qed.

Lemma export_loop_patched_keep (data : buffer) (ext : Z) (count : nat) (s s' : scan) :
  export_loop data ext count s = Ok s' ->
  sc_patched s = true -> sc_patched s' = true.
Proof.
  intros H Ht. destruct (sc_patched s') eqn:Hf; [reflexivity|].
  apply (scan_patched_mono_export_loop _ _ _ _ _ H) in Hf as [Hf _]. congruence.
Qed.

(** X17: [patched] is never reset. Once it is set, it stays set over every
    later iteration of the walker, the number of writes never goes down, and
    every later table section, and every export section that is scanned,
    writes the file again, whether or not it changed a byte. *)
Theorem patched_stays_set (st st' : walker) (section_id : Z) :
  section_step st = Ok st' ->
  w_patched st = true ->
  w_data st !! w_off st = Some section_id ->
  w_patched st' = true /\
  (w_writes st <= w_writes st')%nat /\
  (section_id = 4 \/ (section_id = 7 /\ w_index st <> None) ->
     w_writes st' = S (w_writes st) /\ w_disk st' = w_data st').
Proof.
  unfold section_step. intros H Hp Hid. apply index_ok in Hid.
  rewrite Hid in H. cbn [bind] in H.
  bind_hyp H. destruct a as [section_size n].
  destruct (_ >? _); [discriminate|].
  destruct (Z.eqb_spec section_id 4) as [->|Hne4]; cbn [orb negb] in H.
  - bind_hyp H. rename a into s'. injection H as <-.
    unfold table_section in E0. bind_hyp E0. destruct a as [table_count k].
    apply table_loop_patched_keep in E0; [|exact Hp].
    unfold commit. rewrite E0. cbn. split; [reflexivity|]. split; [lia|]. auto.
  - destruct (Z.eqb_spec section_id 7) as [->|Hne7]; cbn [orb negb] in H.
    + destruct (w_index st) as [ext|] eqn:Hidx.
      * bind_hyp H. rename a into s'. injection H as <-.
        unfold export_section in E0. bind_hyp E0. destruct a as [export_count k].
        apply export_loop_patched_keep in E0; [|exact Hp].
        unfold commit. rewrite E0. cbn. split; [reflexivity|]. split; [lia|]. auto.
      * injection H as <-. cbn. split; [exact Hp|]. split; [lia|].
        intros [?|[_ ?]]; [lia | congruence].
    + injection H as <-. cbn. split; [exact Hp|]. split; [lia|].
      intros [?|[? _]]; lia.
Qed.

Lemma patched_stays_set_witness :
  w_writes (Walker both_defects_patched 45 true (Some 1) both_defects_patched 2) = 2%nat.
Proof.
  destruct (patched_stays_set
              (Walker both_defects_patched 18 true (Some 1) both_defects_patched 1)
              (Walker both_defects_patched 45 true (Some 1) both_defects_patched 2) 7)
    as (_ & _ & Hw).
  - reflexivity.
  - reflexivity.
  - reflexivity.
  - destruct Hw as [Hw _]; [right; split; [reflexivity | discriminate]|].
    exact Hw.
Defined.

(** ** The driver and the files *)

Lemma patch_false_writes (stored : buffer) (st : walker) :
  patch_wasm_file stored = Some (Ok false, st) -> w_writes st = 0%nat.
Proof.
  intros Hrun. destruct (patch_wasm_file_inv _ _ _ Hrun) as [_ _ Hclean _].
  unfold patch_wasm_file in Hrun. destruct (decide _) as [|Hok]; [discriminate|].
  apply walk_ok_end in Hrun as [Hb _];
    [|cbn [start w_off w_data]; apply Decidable.not_or in Hok as [Hl _]; lia].
  apply Hclean, Hb.
Qed.

(** What [patch_wasm_file(wasm)] does to the files: nothing, or it replaces
    the bytes of [wasm] by as many bytes; nothing, if it returns false. *)
Lemma patch_path_files (wasm : string) (w w' : world) (r : result bool) :
  patch_path wasm w = Some (r, w') ->
  printed w' = printed w /\
  (r = Ok false -> w' = w) /\
  (files w' = files w \/
   exists d d', files w !! wasm = Some d /\
                files w' = <[wasm := d']> (files w) /\
                length d' = length d).
Proof.
  unfold patch_path. destruct (files w !! wasm) as [stored|] eqn:Hl;
    [|intros [= <- <-]; split; [reflexivity|]; split; [discriminate | left; reflexivity]].
  destruct (patch_wasm_file stored) as [[r' st]|] eqn:Hrun; [|discriminate].
  intros [= <- <-].
  destruct (patch_wasm_file_inv _ _ _ Hrun) as [Hdisk Hlen _ _].
  destruct (decide (w_writes st = 0%nat)) as [Hz|Hnz].
  - split; [reflexivity|]. split; [reflexivity | left; reflexivity].
  - split; [reflexivity|]. split.
    + intros ->. apply patch_false_writes in Hrun. contradiction.
    + right. exists stored, (w_disk st). split; [reflexivity|].
      split; [reflexivity | congruence].
Qed.

Lemma same_shape_refl (w : world) (p : string) : same_shape w w p.
Proof. unfold same_shape. destruct (files w !! p); reflexivity. Qed.

Lemma same_shape_trans (w1 w2 w3 : world) (p : string) :
  same_shape w1 w2 p -> same_shape w2 w3 p -> same_shape w1 w3 p.
Proof.
  unfold same_shape.
  destruct (files w1 !! p), (files w2 !! p), (files w3 !! p); try tauto; congruence.
Qed.

Lemma patch_path_step (wasm : string) (w w' : world) (r : result bool) :
  patch_path wasm w = Some (r, w') ->
  forall p, same_shape w w' p /\ (p <> wasm -> files w' !! p = files w !! p).
Proof.
  intros Hp p. apply patch_path_files in Hp as (_ & _ & [Hsame|(d & d' & Hd & Hf & Hl)]).
  - unfold same_shape. rewrite Hsame. split; [|reflexivity].
    destruct (files w !! p); reflexivity.
  - unfold same_shape. rewrite Hf. destruct (decide (p = wasm)) as [->|Hne].
    + rewrite lookup_insert_eq, Hd. split; [exact Hl | congruence].
    + rewrite lookup_insert_ne by congruence. split; [|reflexivity].
      destruct (files w !! p); reflexivity.
Qed.

Lemma main_loop_files (candidates : list string) : forall (any_patched : bool) (w w' : world) (code : Z),
  main_loop candidates any_patched w = Some (code, w') ->
  forall p, same_shape w w' p /\ (p ∉ candidates -> files w' !! p = files w !! p).
Proof.
  induction candidates as [|wasm rest IH]; intros any_patched w w' code; simpl.
  - intros [= <- <-] p. split; [|destruct any_patched; reflexivity].
    unfold same_shape. destruct any_patched; simpl; destruct (files w !! p); reflexivity.
  - destruct (patch_path wasm w) as [[[did|e] w1]|] eqn:Hp; [| |discriminate].
    + intros Hrest p.
      destruct (patch_path_step _ _ _ _ Hp p) as [Hs1 Hk1].
      assert (forall w2, files w2 = files w1 ->
                main_loop rest (if did then true else any_patched) w2 = Some (code, w') ->
                same_shape w w' p /\ (p ∉ wasm :: rest -> files w' !! p = files w !! p))
        as Hgo.
      { intros w2 Hw2 Hrun. destruct (IH _ _ _ _ Hrun p) as [Hs2 Hk2]. split.
        - eapply same_shape_trans; [exact Hs1|].
          unfold same_shape in *. rewrite Hw2 in Hs2. exact Hs2.
        - intros Hnot. rewrite not_elem_of_cons in Hnot. destruct Hnot as [Hne Hnr].
          rewrite Hk2, Hw2 by exact Hnr. apply Hk1, Hne. }
      destruct did; [apply (Hgo (print (Patched wasm) w1)) | apply (Hgo w1)];
        try reflexivity; exact Hrest.
    + intros [= <- <-] p. destruct (patch_path_step _ _ _ _ Hp p) as [Hs1 Hk1].
      split; [exact Hs1|]. intros Hnot. rewrite not_elem_of_cons in Hnot.
      apply Hk1, Hnot.
Qed.

(** X18: a run of the driver touches no file but its candidates: a path that
    is not among the candidates holds after the run what it held before.
    Nor does a run create or delete a file or change the length of one. *)
Theorem main_touches_candidates_only
    (candidates : list string) (w w' : world) (code : Z) (p : string) :
  main candidates w = Some (code, w') ->
  same_shape w w' p /\
  (p ∉ candidates -> files w' !! p = files w !! p).
Proof. intros Hmain. apply (main_loop_files _ _ _ _ _ Hmain). Qed.

Lemma main_touches_candidates_only_witness :
  same_shape two_files (World (<["c_bg.wasm" := is_patched]> (files two_files))
                              [Patched "c_bg.wasm"]) "a_bg.wasm" /\
  files (World (<["c_bg.wasm" := is_patched]> (files two_files))
               [Patched "c_bg.wasm"]) !! "a_bg.wasm"
  = files two_files !! "a_bg.wasm".
Proof.
  destruct (main_touches_candidates_only ["c_bg.wasm"] two_files
              (World (<["c_bg.wasm" := is_patched]> (files two_files))
                     [Patched "c_bg.wasm"]) 0 "a_bg.wasm") as [Hshape Hkeep].
  - vm_compute. reflexivity.
  - split; [exact Hshape|]. apply Hkeep.
    apply not_elem_of_cons. split; [discriminate | apply not_elem_of_nil].
Defined.

Lemma main_loop_reports (candidates : list string) : forall (any_patched : bool) (w w' : world) (code : Z),
  main_loop candidates any_patched w = Some (code, w') ->
  exists lines,
    printed w' = printed w ++ lines /\
    forall p, files w' !! p <> files w !! p ->
      Patched p ∈ lines \/ exists e, Failed p e ∈ lines.
Proof.
  induction candidates as [|wasm rest IH]; intros any_patched w w' code; simpl.
  - intros [= <- <-]. destruct any_patched.
    + exists []. rewrite app_nil_r. split; [reflexivity|]. intros p Hp. congruence.
    + exists [NoChanges]. split; [reflexivity|]. intros p Hp. simpl in Hp. congruence.
  - destruct (patch_path wasm w) as [[[did|e] w1]|] eqn:Hp; [| |discriminate].
    + pose proof (patch_path_files _ _ _ _ Hp) as (Hpr & Hfalse & _).
      destruct did.
      * intros Hrun. apply IH in Hrun as (lines & Hlines & Hrep).
        exists (Patched wasm :: lines). simpl in Hlines.
        split; [rewrite Hlines, Hpr, <- app_assoc; reflexivity|].
        intros p Hdiff. simpl in Hrep.
        destruct (decide (files w' !! p = files w1 !! p)) as [Heq|Hne].
        -- destruct (decide (p = wasm)) as [->|Hpw]; [left; left|].
           exfalso. apply Hdiff. rewrite Heq.
           apply (patch_path_step _ _ _ _ Hp p), Hpw.
        -- destruct (Hrep p Hne) as [Hin|[e Hin]];
             [left; right; exact Hin | right; exists e; right; exact Hin].
      * rewrite (Hfalse eq_refl) in *. apply IH.
    + intros [= <- <-]. exists [Failed wasm e].
      pose proof (patch_path_files _ _ _ _ Hp) as (Hpr & _ & _).
      simpl. split; [rewrite Hpr; reflexivity|].
      intros p Hdiff. right. exists e.
      destruct (decide (p = wasm)) as [->|Hpw]; [left|].
      exfalso. apply Hdiff. apply (patch_path_step _ _ _ _ Hp p), Hpw.
Qed.

(** X19: the driver changes no file silently. Every file whose bytes differ
    after the run is named in a line that the run has printed, either as
    patched or as failed; so a file that is not named holds what it held,
    and a run whose output is the one line "no changes needed" has changed
    no file. *)
Theorem every_change_is_reported
    (candidates : list string) (w w' : world) (code : Z) :
  main candidates w = Some (code, w') ->
  exists lines,
    printed w' = printed w ++ lines /\
    (forall p, files w' !! p <> files w !! p ->
       Patched p ∈ lines \/ exists e, Failed p e ∈ lines) /\
    (lines = [NoChanges] -> files w' = files w).
Proof.
  intros Hmain. apply main_loop_reports in Hmain as (lines & Hl & Hrep).
  exists lines. split; [exact Hl|]. split; [exact Hrep|].
  intros ->. apply map_eq. intros p.
  destruct (decide (files w' !! p = files w !! p)) as [Heq|Hne]; [exact Heq|].
  destruct (Hrep p Hne) as [Hin|[e Hin]];
    apply list_elem_of_singleton in Hin; discriminate.
Qed.

Lemma every_change_is_reported_witness :
  files (World (files one_clean_file) [NoChanges]) = files one_clean_file.
Proof.
  destruct (every_change_is_reported ["c_bg.wasm"] one_clean_file
              (World (files one_clean_file) [NoChanges]) 0)
    as (lines & Hlines & _ & Hsame).
  - vm_compute. reflexivity.
  - apply Hsame. simpl in Hlines. congruence.
Defined.

(** ** Candidate discovery *)

Lemma list_ascii_of_string_app (a b : string) :
  String.list_ascii_of_string (a +:+ b)
  = String.list_ascii_of_string a ++ String.list_ascii_of_string b.
Proof. induction a as [|c a IH]; simpl; [reflexivity | rewrite IH; reflexivity]. Qed.

(** [f.endswith(suffix)] holds of the strings that are some string followed
    by [suffix]. *)
Lemma endswith_spec (f suffix : string) :
  endswith f suffix = true <-> exists stem, f = stem +:+ suffix.
Proof.
  unfold endswith. rewrite bool_decide_eq_true. split.
  - intros [k Hk]. exists (String.string_of_list_ascii k).
    rewrite <- (String.string_of_list_ascii_of_string f), Hk.
    rewrite <- (String.list_ascii_of_string_of_list_ascii k) at 1.
    rewrite <- list_ascii_of_string_app.
    apply String.string_of_list_ascii_of_string.
  - intros [stem ->]. exists (String.list_ascii_of_string stem).
    apply list_ascii_of_string_app.
Qed.

(** Induction on a directory tree. *)
Lemma dir_tree_ind (P : dir -> Prop) :
  (forall files subdirs,
     (forall name child, (name, child) ∈ subdirs -> P child) ->
     P (Dir files subdirs)) ->
  forall d, P d.
Proof.
  intros H. fix IH 1. intros [files subdirs]. apply H.
  induction subdirs as [|[name0 child0] ds IHds]; intros name child Hin.
  - apply elem_of_nil in Hin. contradiction.
  - apply elem_of_cons in Hin as [[= -> ->]|Hin].
    + apply IH.
    + eapply IHds, Hin.
Qed.

Lemma dir_candidates_elem (root : path) (files : list string) (c : path) :
  c ∈ dir_candidates root files <->
  exists f, c = root ++ [f] /\ f ∈ files /\ endswith f "_bg.wasm" = true.
Proof.
  induction files as [|f files IH]; cbn [dir_candidates].
  - split; [intros Hin; apply elem_of_nil in Hin; contradiction|].
    intros (f & _ & Hin & _). apply elem_of_nil in Hin. contradiction.
  - destruct (endswith f "_bg.wasm") eqn:He.
    + rewrite elem_of_cons, IH. split.
      * intros [->|(g & -> & Hin & Hg)].
        -- exists f. split; [reflexivity|]. split; [left | exact He].
        -- exists g. split; [reflexivity|]. split; [right; exact Hin | exact Hg].
      * intros (g & -> & Hin & Hg). apply elem_of_cons in Hin as [->|Hin]; [left; reflexivity|].
        right. exists g. auto.
    + rewrite IH. split.
      * intros (g & -> & Hin & Hg). exists g. split; [reflexivity|].
        split; [right; exact Hin | exact Hg].
      * intros (g & -> & Hin & Hg). apply elem_of_cons in Hin as [->|Hin]; [congruence|].
        exists g. auto.
Qed.

Lemma walk_candidates_app (a b : list (path * list string)) :
  walk_candidates (a ++ b) = walk_candidates a ++ walk_candidates b.
Proof.
  induction a as [|[root files] a IH]; cbn [app walk_candidates]; [reflexivity|].
  rewrite IH, app_assoc. reflexivity.
Qed.

Lemma os_walk_unfold (root : path) (files : list string) (subdirs : list (string * dir)) :
  os_walk root (Dir files subdirs) = (root, files) :: walk_subdirs root subdirs.
Proof. reflexivity. Qed.

Lemma walk_subdirs_elem (root : path) (ds : list (string * dir)) (c : path) :
  c ∈ walk_candidates (walk_subdirs root ds) <->
  exists name child,
    (name, child) ∈ ds /\ c ∈ walk_candidates (os_walk (root ++ [name]) child).
Proof.
  induction ds as [|[name0 child0] ds IH]; cbn [walk_subdirs].
  - split; [intros Hin; apply elem_of_nil in Hin; contradiction|].
    intros (name & child & Hin & _). apply elem_of_nil in Hin. contradiction.
  - rewrite walk_candidates_app, elem_of_app, IH. split.
    + intros [Hin|(name & child & Hin & Hc)].
      * exists name0, child0. split; [left | exact Hin].
      * exists name, child. split; [right; exact Hin | exact Hc].
    + intros (name & child & Hin & Hc).
      apply elem_of_cons in Hin as [[= -> ->]|Hin]; [left; exact Hc|].
      right. exists name, child. auto.
Qed.

Lemma file_at_here (files : list string) (subdirs : list (string * dir)) (f : string) :
  file_at (Dir files subdirs) [f] <-> f ∈ files.
Proof. reflexivity. Qed.

Lemma file_at_below (files : list string) (subdirs : list (string * dir))
    (name : string) (rel : path) (f : string) :
  file_at (Dir files subdirs) (name :: rel ++ [f]) <->
  exists child, (name, child) ∈ subdirs /\ file_at child (rel ++ [f]).
Proof. destruct rel; reflexivity. Qed.

Lemma walk_candidates_elem (d : dir) : forall (p c : path),
  c ∈ walk_candidates (os_walk p d) <->
  exists rel f,
    c = p ++ rel ++ [f] /\ file_at d (rel ++ [f]) /\ endswith f "_bg.wasm" = true.
Proof.
  induction d as [files subdirs IH] using dir_tree_ind. intros p c.
  rewrite os_walk_unfold. cbn [walk_candidates].
  rewrite elem_of_app, dir_candidates_elem, walk_subdirs_elem. split.
  - intros [(f & -> & Hin & He)|(name & child & Hin & Hc)].
    + exists [], f. split; [reflexivity|]. split; [apply file_at_here, Hin | exact He].
    + apply (IH name child Hin) in Hc as (rel & f & -> & Hat & He).
      exists (name :: rel), f. split; [rewrite <- !app_assoc; reflexivity|].
      split; [|exact He]. cbn [app]. apply file_at_below. eauto.
  - intros (rel & f & -> & Hat & He). destruct rel as [|name rel].
    + left. exists f. split; [reflexivity|]. split; [apply (file_at_here files subdirs), Hat | exact He].
    + right. cbn [app] in Hat. apply file_at_below in Hat as (child & Hin & Hat).
      exists name, child. split; [exact Hin|].
      apply (IH name child Hin). exists rel, f.
      split; [rewrite <- !app_assoc; reflexivity|]. auto.
Qed.

(** X20: the candidates of a directory are the files of the tree under it
    whose names end in [_bg.wasm], and no others: a path is yielded exactly
    when it is the directory's path followed by the relative path of a
    non-directory entry of the tree whose name is some string followed by
    [_bg.wasm]. Files with other names, [b.wasm] among them, are never
    candidates, at any depth. *)
Theorem directory_candidates (p : path) (d : dir) (c : path) :
  c ∈ iter_wasm_candidates p (DirEntry d) <->
  exists rel f stem,
    c = p ++ rel ++ [f] /\
    file_at d (rel ++ [f]) /\
    f = stem +:+ "_bg.wasm".
Proof.
  cbn [iter_wasm_candidates]. rewrite walk_candidates_elem. split.
  - intros (rel & f & Hc & Hat & [stem Hs]%endswith_spec). exists rel, f, stem. auto.
  - intros (rel & f & stem & Hc & Hat & Hs). exists rel, f.
    split; [exact Hc|]. split; [exact Hat|]. apply endswith_spec. eauto.
Qed.

Lemma directory_candidates_witness :
  ["out"; "pkg"; "x_bg.wasm"] ∈ iter_wasm_candidates ["out"] (DirEntry scenario_dir).
Proof.
  apply (proj2 (directory_candidates ["out"] scenario_dir ["out"; "pkg"; "x_bg.wasm"])).
  exists ["pkg"], "x_bg.wasm", "x". split; [reflexivity|]. split; [|reflexivity].
  exists (Dir ["x_bg.wasm"; "x.js"] []). split; [left | left].
Defined.

Example scenario_candidates :
  iter_wasm_candidates ["out"] (DirEntry scenario_dir)
  = [["out"; "a_bg.wasm"]; ["out"; "c_bg.wasm"]; ["out"; "pkg"; "x_bg.wasm"]] /\
  iter_wasm_candidates ["out"; "b.wasm"] FileEntry = [["out"; "b.wasm"]] /\
  iter_wasm_candidates ["nowhere"] NoEntry = [].
Proof. repeat split. Qed.
